(** * PSOldGen: sizing, resize visibility, allocation pretouch and block iteration

    A shallow embedding of [src/hotspot/share/gc/parallel/psOldGen.cpp].
    Values of type [size_t] and [HeapWord*] are 64-bit machine words, kept
    as [Z] in the range [0, 2^64) with the wrap-around written out.  A
    [HeapWord*] is the byte address it holds; pointer arithmetic scales by
    [HeapWordSize].

    State is passed explicitly: every operation takes the generation and
    returns the generation it leaves behind, together with its result.
    The collaborators that are not part of this file (virtual space, object
    space, object-start index, card table, counters) are kept as the part
    of their state the generation reads back.  Assertions, lock ownership
    checks, logging and the diagnostic delay of [expand_for_allocate] have
    no effect on that state and are left out; [guarantee] and
    [vm_exit_during_initialization] end the construction with [None]. *)

From Stdlib Require Import ZArith List Bool Lia.
Import ListNotations.
Local Open Scope Z_scope.

(** ** Machine words *)

Definition word_bits : Z := 64.
Definition word_modulus : Z := 2 ^ word_bits.
Definition max_uintx : Z := word_modulus - 1.

(** Reduction of an integer to a [size_t]. *)
Definition wrap (x : Z) : Z := x mod word_modulus.

Definition in_word (x : Z) : Prop := 0 <= x < word_modulus.

Definition HeapWordSize : Z := 8.

(** [p + n] on a [HeapWord*]. *)
Definition ptr_add (p n : Z) : Z := wrap (p + HeapWordSize * n).

(** [p - n] on a [HeapWord*]. *)
Definition ptr_sub (p n : Z) : Z := wrap (p - HeapWordSize * n).

(** Modelled from the spec: [pointer_delta] of utilities/globalDefinitions.hpp
    is not among the sources; it is the distance between two word pointers
    in words, computed on unsigned machine words. *)
Definition pointer_delta (left right : Z) : Z := wrap (left - right) / HeapWordSize.

(** Modelled from the spec: [heap_word_size] of
    utilities/globalDefinitions.hpp: a byte size in words, rounded up. *)
Definition heap_word_size (byte_size : Z) : Z :=
  wrap (byte_size + (HeapWordSize - 1)) / HeapWordSize.

(** Modelled from the spec: [MIN2], [MAX2] and [clamp] of
    utilities/globalDefinitions.hpp are not among the sources. *)
Definition MIN2 (a b : Z) : Z := if a <? b then a else b.
Definition MAX2 (a b : Z) : Z := if a >? b then a else b.
Definition clamp (value lo hi : Z) : Z := MIN2 (MAX2 value lo) hi.

(** Modelled from the spec: the alignment helpers of utilities/align.hpp are
    not among the sources.  They round with a bit mask, so rounding up can
    wrap to zero (the case [PSOldGen::expand] tests for). *)
Definition align_mask (alignment : Z) : Z := wrap (alignment - 1).
Definition word_not (x : Z) : Z := Z.lxor x max_uintx.
Definition align_down (size alignment : Z) : Z :=
  Z.land size (word_not (align_mask alignment)).
Definition align_up (size alignment : Z) : Z :=
  align_down (wrap (size + align_mask alignment)) alignment.
Definition is_aligned (size alignment : Z) : bool :=
  Z.land size (align_mask alignment) =? 0.

(** Modelled from the spec: [is_power_of_2] of utilities/powerOfTwo.hpp. *)
Definition is_power_of_2 (x : Z) : bool :=
  (0 <? x) && (x =? 2 ^ Z.log2 x).


(** ** Memory regions *)

(** Modelled from the spec: class [MemRegion] (memory/memRegion.hpp) is not
    among the sources.  A region is kept as its two bounds.  The class keeps
    the start and a count of words, which is the same region whenever the
    bounds are a whole number of heap words apart, as the bounds of a
    well-formed virtual space are ([MemRegion_of_bounds],
    [new_memregion_exact]). *)
Record MemRegion := mkMemRegion { mr_start : Z; mr_end : Z }.

Definition mr_word_size (m : MemRegion) : Z := pointer_delta (mr_end m) (mr_start m).
Definition mr_byte_size (m : MemRegion) : Z := wrap (mr_word_size m * HeapWordSize).

(** ** Execution environment: VM flags, platform constants and the
    outcome of operating-system commits *)

Record Env := mkEnv {
  UseNUMA : bool;
  numa_get_groups_num : Z;
  MinHeapDeltaBytes : Z;
  ZapUnusedHeapArea : bool;
  UsePerfData : bool;
  AlwaysPreTouch : bool;
  UseLargePages : bool;
  UseTransparentHugePages : bool;
  vm_page_size : Z;
  large_page_size : Z;
  ParallelGCThreads : Z;
  GenAlignment : Z;
  (** [Thread::current()->is_VM_thread()] *)
  is_VM_thread : bool;
  (** [os::commit_memory base bytes] *)
  commit_memory : Z -> Z -> bool
}.

(** ** The virtual-memory collaborator *)

(** Modelled from the spec: class [PSVirtualSpace] (psVirtualspace.cpp) is
    not among the sources.  The reserved region is
    [[low_boundary, high_boundary)], the committed region is
    [[low_boundary, high)]. *)
Record PSVirtualSpace := mkVS {
  vs_alignment : Z;
  reserved_low_addr : Z;
  reserved_high_addr : Z;
  committed_high_addr : Z
}.

Definition low_boundary (vs : PSVirtualSpace) : Z := reserved_low_addr vs.
Definition high_boundary (vs : PSVirtualSpace) : Z := reserved_high_addr vs.
Definition low (vs : PSVirtualSpace) : Z := reserved_low_addr vs.
Definition high (vs : PSVirtualSpace) : Z := committed_high_addr vs.
Definition reserved_size (vs : PSVirtualSpace) : Z :=
  wrap (reserved_high_addr vs - reserved_low_addr vs).
Definition committed_size (vs : PSVirtualSpace) : Z :=
  wrap (committed_high_addr vs - reserved_low_addr vs).
Definition uncommitted_size (vs : PSVirtualSpace) : Z :=
  wrap (reserved_size vs - committed_size vs).

(** Modelled from the spec: the constructor [PSVirtualSpace(rs, alignment)]
    over a reserved space with base [rs_base] and size [rs_size]; nothing
    is committed yet. *)
Definition vs_new (rs_base rs_size alignment : Z) : PSVirtualSpace :=
  {| vs_alignment := alignment;
     reserved_low_addr := rs_base;
     reserved_high_addr := wrap (rs_base + rs_size);
     committed_high_addr := rs_base |}.

(** Modelled from the spec: [PSVirtualSpace::expand_by].  The commit cannot
    go past the reserved ceiling and otherwise succeeds when the operating
    system commits the pages; a failed commit leaves the space as it was. *)
Definition vs_expand_by (env : Env) (vs : PSVirtualSpace) (bytes : Z)
  : bool * PSVirtualSpace :=
  if uncommitted_size vs <? bytes then (false, vs)
  else if commit_memory env (committed_high_addr vs) bytes then
    (true, {| vs_alignment := vs_alignment vs;
              reserved_low_addr := reserved_low_addr vs;
              reserved_high_addr := reserved_high_addr vs;
              committed_high_addr := wrap (committed_high_addr vs + bytes) |})
  else (false, vs).

(** Modelled from the spec: [PSVirtualSpace::shrink_by] uncommits [bytes]
    from the top of the committed region; uncommitting is assumed always
    possible.  No more than what is committed can be given back. *)
Definition vs_shrink_by (vs : PSVirtualSpace) (bytes : Z) : PSVirtualSpace :=
  if committed_size vs <? bytes then vs
  else {| vs_alignment := vs_alignment vs;
          reserved_low_addr := reserved_low_addr vs;
          reserved_high_addr := reserved_high_addr vs;
          committed_high_addr := wrap (committed_high_addr vs - bytes) |}.

(** ** The allocation-space collaborator *)

(** Modelled from the spec: class [MutableSpace] (mutableSpace.cpp) is not
    among the sources: [bottom <= top <= end], and [initialize] is the single
    call that publishes a new [end]. *)
Record MutableSpace := mkMS { ms_bottom : Z; ms_top : Z; ms_end : Z }.

Inductive ClearSpace := Clear | DontClear.

Definition ms_initialize (ms : MutableSpace) (mr : MemRegion) (clear_space : ClearSpace)
  : MutableSpace :=
  {| ms_bottom := mr_start mr;
     ms_top := match clear_space with Clear => mr_start mr | DontClear => ms_top ms end;
     ms_end := mr_end mr |}.

Definition ms_capacity_in_words (ms : MutableSpace) : Z :=
  pointer_delta (ms_end ms) (ms_bottom ms).
Definition ms_capacity_in_bytes (ms : MutableSpace) : Z :=
  wrap (ms_capacity_in_words ms * HeapWordSize).
Definition ms_used_in_words (ms : MutableSpace) : Z :=
  pointer_delta (ms_top ms) (ms_bottom ms).
Definition ms_used_in_bytes (ms : MutableSpace) : Z :=
  wrap (ms_used_in_words ms * HeapWordSize).

(** ** The generation *)

Record PSOldGen := mkGen {
  reserved : MemRegion;
  virtual_space : PSVirtualSpace;
  object_space : MutableSpace;
  (** covered region declared by the object-start index *)
  start_array_covered : MemRegion;
  (** reserved region handed to [ObjectStartArray::initialize] *)
  start_array_reserved : MemRegion;
  (** covered region declared by the card table *)
  card_table_covered : MemRegion;
  alloc_pretouch_next : Z;
  alloc_pretouch_stride_words : Z;
  alloc_pretouch_limit_words : Z;
  min_gen_size : Z;
  max_gen_size : Z;
  (** capacity last published by the space counters *)
  space_counters_capacity : Z;
  (** committed size last published by the generation counters *)
  gen_counters_committed : Z;
  (** regions handed to [SpaceMangler::mangle_region], latest first *)
  mangled : list MemRegion;
  (** addresses touched by the allocation pretouch, latest first *)
  touched : list Z
}.

Definition set_virtual_space (g : PSOldGen) (v : PSVirtualSpace) : PSOldGen :=
  mkGen (reserved g) v (object_space g) (start_array_covered g)
        (start_array_reserved g) (card_table_covered g) (alloc_pretouch_next g)
        (alloc_pretouch_stride_words g) (alloc_pretouch_limit_words g)
        (min_gen_size g) (max_gen_size g) (space_counters_capacity g)
        (gen_counters_committed g) (mangled g) (touched g).

Definition set_object_space (g : PSOldGen) (s : MutableSpace) : PSOldGen :=
  mkGen (reserved g) (virtual_space g) s (start_array_covered g)
        (start_array_reserved g) (card_table_covered g) (alloc_pretouch_next g)
        (alloc_pretouch_stride_words g) (alloc_pretouch_limit_words g)
        (min_gen_size g) (max_gen_size g) (space_counters_capacity g)
        (gen_counters_committed g) (mangled g) (touched g).

Definition set_start_array_covered (g : PSOldGen) (m : MemRegion) : PSOldGen :=
  mkGen (reserved g) (virtual_space g) (object_space g) m
        (start_array_reserved g) (card_table_covered g) (alloc_pretouch_next g)
        (alloc_pretouch_stride_words g) (alloc_pretouch_limit_words g)
        (min_gen_size g) (max_gen_size g) (space_counters_capacity g)
        (gen_counters_committed g) (mangled g) (touched g).

Definition set_card_table_covered (g : PSOldGen) (m : MemRegion) : PSOldGen :=
  mkGen (reserved g) (virtual_space g) (object_space g) (start_array_covered g)
        (start_array_reserved g) m (alloc_pretouch_next g)
        (alloc_pretouch_stride_words g) (alloc_pretouch_limit_words g)
        (min_gen_size g) (max_gen_size g) (space_counters_capacity g)
        (gen_counters_committed g) (mangled g) (touched g).

Definition set_alloc_pretouch_next (g : PSOldGen) (p : Z) : PSOldGen :=
  mkGen (reserved g) (virtual_space g) (object_space g) (start_array_covered g)
        (start_array_reserved g) (card_table_covered g) p
        (alloc_pretouch_stride_words g) (alloc_pretouch_limit_words g)
        (min_gen_size g) (max_gen_size g) (space_counters_capacity g)
        (gen_counters_committed g) (mangled g) (touched g).

Definition set_space_counters (g : PSOldGen) (c : Z) : PSOldGen :=
  mkGen (reserved g) (virtual_space g) (object_space g) (start_array_covered g)
        (start_array_reserved g) (card_table_covered g) (alloc_pretouch_next g)
        (alloc_pretouch_stride_words g) (alloc_pretouch_limit_words g)
        (min_gen_size g) (max_gen_size g) c
        (gen_counters_committed g) (mangled g) (touched g).

Definition set_gen_counters (g : PSOldGen) (c : Z) : PSOldGen :=
  mkGen (reserved g) (virtual_space g) (object_space g) (start_array_covered g)
        (start_array_reserved g) (card_table_covered g) (alloc_pretouch_next g)
        (alloc_pretouch_stride_words g) (alloc_pretouch_limit_words g)
        (min_gen_size g) (max_gen_size g) (space_counters_capacity g)
        c (mangled g) (touched g).

Definition mangle_region (g : PSOldGen) (m : MemRegion) : PSOldGen :=
  mkGen (reserved g) (virtual_space g) (object_space g) (start_array_covered g)
        (start_array_reserved g) (card_table_covered g) (alloc_pretouch_next g)
        (alloc_pretouch_stride_words g) (alloc_pretouch_limit_words g)
        (min_gen_size g) (max_gen_size g) (space_counters_capacity g)
        (gen_counters_committed g) (m :: mangled g) (touched g).

Definition touch_page (g : PSOldGen) (p : Z) : PSOldGen :=
  mkGen (reserved g) (virtual_space g) (object_space g) (start_array_covered g)
        (start_array_reserved g) (card_table_covered g) (alloc_pretouch_next g)
        (alloc_pretouch_stride_words g) (alloc_pretouch_limit_words g)
        (min_gen_size g) (max_gen_size g) (space_counters_capacity g)
        (gen_counters_committed g) (mangled g) (p :: touched g).

Definition capacity_in_bytes (g : PSOldGen) : Z := ms_capacity_in_bytes (object_space g).
Definition used_in_bytes (g : PSOldGen) : Z := ms_used_in_bytes (object_space g).

(** [_space_counters->update_capacity()] and [_gen_counters->update_all()] *)
Definition update_capacity (g : PSOldGen) : PSOldGen :=
  set_space_counters g (capacity_in_bytes g).
Definition update_all (g : PSOldGen) : PSOldGen :=
  set_gen_counters g (committed_size (virtual_space g)).

(** ** Construction *)

(** The members as the constructor's initializer list leaves them, before
    [initialize] runs: the pretouch pointer is [NULL], the pretouch stride
    and limit are zero. *)
Definition PSOldGen_members (min_size max_size : Z) : PSOldGen :=
  {| reserved := mkMemRegion 0 0;
     virtual_space := mkVS 0 0 0 0;
     object_space := mkMS 0 0 0;
     start_array_covered := mkMemRegion 0 0;
     start_array_reserved := mkMemRegion 0 0;
     card_table_covered := mkMemRegion 0 0;
     alloc_pretouch_next := 0;
     alloc_pretouch_stride_words := 0;
     alloc_pretouch_limit_words := 0;
     min_gen_size := min_size;
     max_gen_size := max_size;
     space_counters_capacity := 0;
     gen_counters_committed := 0;
     mangled := [];
     touched := [] |}.

Definition initialize_allocation_pretouch (env : Env) (g : PSOldGen) : PSOldGen :=
  let page_size :=
    if UseLargePages env && negb (UseTransparentHugePages env)
    then large_page_size env else vm_page_size env in
  let stride := page_size / HeapWordSize in
  mkGen (reserved g) (virtual_space g) (object_space g) (start_array_covered g)
        (start_array_reserved g) (card_table_covered g) (alloc_pretouch_next g)
        stride (wrap (stride * ParallelGCThreads env))
        (min_gen_size g) (max_gen_size g) (space_counters_capacity g)
        (gen_counters_committed g) (mangled g) (touched g).

(** [None] stands for [vm_exit_during_initialization]. *)
Definition initialize_virtual_space (env : Env) (g : PSOldGen)
  (rs_base rs_size initial_size alignment : Z) : option PSOldGen :=
  let (ok, vs) := vs_expand_by env (vs_new rs_base rs_size alignment) initial_size in
  if ok then Some (set_virtual_space g vs) else None.

(** [None] stands for a failed [guarantee].  [card_size] and
    [heap_reserved_end] are the card table's granule and the end of the
    heap's reserved region. *)
Definition initialize_work (env : Env) (card_size heap_reserved_end : Z)
  (g : PSOldGen) : option PSOldGen :=
  let vs := virtual_space g in
  let limit_reserved :=
    mkMemRegion (low_boundary vs)
                (ptr_add (low_boundary vs) (heap_word_size (max_gen_size g))) in
  let rsv := mkMemRegion (low_boundary vs) (high_boundary vs) in
  let cmr := mkMemRegion (low vs) (high vs) in
  let g := mkGen rsv vs (object_space g) (start_array_covered g)
                 limit_reserved (card_table_covered g) (alloc_pretouch_next g)
                 (alloc_pretouch_stride_words g) (alloc_pretouch_limit_words g)
                 (min_gen_size g) (max_gen_size g) (space_counters_capacity g)
                 (gen_counters_committed g) (mangled g) (touched g) in
  let g := if ZapUnusedHeapArea env then mangle_region g cmr else g in
  let g := set_card_table_covered g cmr in
  if negb (is_aligned (mr_start rsv) card_size) then None
  else if negb (mr_end rsv =? heap_reserved_end)
          && negb (is_aligned (mr_end rsv) card_size) then None
  else
    let g := set_object_space g (ms_initialize (object_space g) cmr Clear) in
    Some (set_start_array_covered g cmr).

(** Modelled from the spec: the constructors of [PSGenerationCounters] and
    [SpaceCounters] are not among the sources.  Like every counter update
    of this file they act under [UsePerfData] only: the counters are then
    created holding the committed size and the capacity of the moment;
    without the flag nothing is published. *)
Definition initialize_performance_counters (env : Env) (g : PSOldGen) : PSOldGen :=
  if UsePerfData env then update_capacity (update_all g) else g.

(** [PSOldGen::PSOldGen] followed by [PSOldGen::initialize]. *)
Definition PSOldGen_new (env : Env) (card_size heap_reserved_end : Z)
  (rs_base rs_size initial_size min_size max_size : Z) : option PSOldGen :=
  let g := initialize_allocation_pretouch env (PSOldGen_members min_size max_size) in
  match initialize_virtual_space env g rs_base rs_size initial_size (GenAlignment env) with
  | None => None
  | Some g =>
      match initialize_work env card_size heap_reserved_end g with
      | None => None
      | Some g => Some (initialize_performance_counters env g)
      end
  end.

Definition is_allocated (g : PSOldGen) : bool :=
  negb (reserved_size (virtual_space g) =? 0).

(** ** Resize synchronization: [PSOldGen::post_resize] *)

Definition new_memregion (g : PSOldGen) : MemRegion :=
  mkMemRegion (low (virtual_space g)) (high (virtual_space g)).

Definition start_array_set_covered_region (mr : MemRegion) (g : PSOldGen) : PSOldGen :=
  set_start_array_covered g mr.

Definition card_table_resize_covered_region (mr : MemRegion) (g : PSOldGen) : PSOldGen :=
  set_card_table_covered g mr.

(** [object_space()->initialize(new_memregion, DontClear, DontMangle, ...)]:
    the update of the space's end. *)
Definition object_space_initialize (mr : MemRegion) (g : PSOldGen) : PSOldGen :=
  set_object_space g (ms_initialize (object_space g) mr DontClear).

(** The worker gang is non-[NULL] exactly on the VM thread. *)
Definition update_alloc_pretouch (env : Env) (mr : MemRegion) (g : PSOldGen) : PSOldGen :=
  if is_VM_thread env then
    let next_pretouch := mr_end mr in
    let next_pretouch :=
      if negb (AlwaysPreTouch env)
      then MIN2 next_pretouch (alloc_pretouch_next g) else next_pretouch in
    set_alloc_pretouch_next g next_pretouch
  else g.

(** The mutations of [post_resize], in program order. *)
Definition post_resize_steps (env : Env) (mr : MemRegion) : list (PSOldGen -> PSOldGen) :=
  [ start_array_set_covered_region mr;
    card_table_resize_covered_region mr;
    object_space_initialize mr;
    update_alloc_pretouch env mr ].

(** The state after each step of a list of mutations. *)
Fixpoint run_steps (steps : list (PSOldGen -> PSOldGen)) (g : PSOldGen) : list PSOldGen :=
  match steps with
  | [] => []
  | f :: rest => f g :: run_steps rest (f g)
  end.

Definition post_resize_states (env : Env) (g : PSOldGen) : list PSOldGen :=
  run_steps (post_resize_steps env (new_memregion g)) g.

Definition post_resize (env : Env) (g : PSOldGen) : PSOldGen :=
  last (post_resize_states env g) g.

(** ** Size control *)

Definition expand_by (env : Env) (g : PSOldGen) (bytes : Z) : bool * PSOldGen :=
  let (result, vs) := vs_expand_by env (virtual_space g) bytes in
  let g := set_virtual_space g vs in
  if result then
    let g :=
      if ZapUnusedHeapArea env
      then mangle_region g (mkMemRegion (ms_end (object_space g)) (high (virtual_space g)))
      else g in
    let g := post_resize env g in
    let g := if UsePerfData env then update_all (update_capacity g) else g in
    (result, g)
  else (result, g).

Definition expand_to_reserved (env : Env) (g : PSOldGen) : bool * PSOldGen :=
  let remaining_bytes := uncommitted_size (virtual_space g) in
  if remaining_bytes >? 0 then expand_by env g remaining_bytes
  else (false, g).

Definition expand (env : Env) (g : PSOldGen) (bytes : Z) : bool * PSOldGen :=
  let alignment := vs_alignment (virtual_space g) in
  let aligned_bytes := align_up bytes alignment in
  let aligned_expand_bytes := align_up (MinHeapDeltaBytes env) alignment in
  let aligned_expand_bytes :=
    if UseNUMA env
    then MAX2 aligned_expand_bytes (wrap (alignment * numa_get_groups_num env))
    else aligned_expand_bytes in
  let aligned_bytes :=
    if aligned_bytes =? 0 then align_down bytes alignment else aligned_bytes in
  let (success, g) :=
    if aligned_expand_bytes >? aligned_bytes
    then expand_by env g aligned_expand_bytes else (false, g) in
  let (success, g) :=
    if negb success then expand_by env g aligned_bytes else (success, g) in
  let (success, g) :=
    if negb success then expand_to_reserved env g else (success, g) in
  (success, g).

Definition expand_for_allocate_impl (env : Env) (g : PSOldGen) (word_size : Z)
  : bool * PSOldGen :=
  let old_end := ms_end (object_space g) in
  if word_size <=? pointer_delta old_end (ms_top (object_space g)) then (true, g)
  else expand env g (wrap (word_size * HeapWordSize)).

Definition expand_for_allocate (env : Env) (g : PSOldGen) (word_size : Z)
  : bool * PSOldGen :=
  expand_for_allocate_impl env g word_size.

Definition shrink (env : Env) (g : PSOldGen) (bytes : Z) : PSOldGen :=
  let size := align_down bytes (vs_alignment (virtual_space g)) in
  if size >? 0 then
    let g := set_virtual_space g (vs_shrink_by (virtual_space g) bytes) in
    post_resize env g
  else g.

(** The sum [used_in_bytes() + desired_free_space] of [resize] after its
    overflow test. *)
Definition resize_desired_size (g : PSOldGen) (desired_free_space : Z) : Z :=
  let new_size := wrap (used_in_bytes g + desired_free_space) in
  if new_size <? used_in_bytes g then max_gen_size g else new_size.

(** The target size of [resize]: clamped to the bounds, then aligned up. *)
Definition resize_new_size (g : PSOldGen) (desired_free_space : Z) : Z :=
  let alignment := vs_alignment (virtual_space g) in
  let new_size := resize_desired_size g desired_free_space in
  let new_size := clamp new_size (min_gen_size g) (max_gen_size g) in
  align_up new_size alignment.

Definition resize (env : Env) (g : PSOldGen) (desired_free_space : Z) : PSOldGen :=
  let new_size := resize_new_size g desired_free_space in
  let current_size := capacity_in_bytes g in
  if new_size =? current_size then g
  else if new_size >? current_size then
    let change_bytes := wrap (new_size - current_size) in
    snd (expand env g change_bytes)
  else
    let change_bytes := wrap (current_size - new_size) in
    shrink env g change_bytes.

(** ** Allocation pretouch *)

(** Modelled from the spec: [Atomic::cmpxchg dest compare exchange] returns
    the value found and stores [exchange] when that value is [compare]. *)
Definition Atomic_cmpxchg (dest compare exchange : Z) : Z * Z :=
  (dest, if dest =? compare then exchange else dest).

(** What a call does once it has read the pretouch pointer and the
    allocation end: return, or attempt one compare-and-swap from [old] to
    [new] and, when a page was claimed, touch it on success. *)
Inductive pretouch_action :=
| PtReturn
| PtCmpxchg (old_touch next_touch : Z) (claimed : option Z).

(** The tail of [pretouch_during_allocation], from the comment
    "Next touch pointer is current + stride, limited by alloc_end". *)
Definition pretouch_next (stride_words old_touch touch alloc_end : Z) : pretouch_action :=
  let next_touch := ptr_add touch stride_words in
  let next_touch :=
    if pointer_delta alloc_end touch <? stride_words then alloc_end else next_touch in
  PtCmpxchg old_touch next_touch (Some touch).

(** The body of [pretouch_during_allocation] between the two atomic loads
    and the compare-and-swap. *)
Definition pretouch_plan (stride_words limit_words touch alloc_end alloc alloc_size : Z)
  : pretouch_action :=
  if touch >=? alloc_end then PtReturn
  else
    let old_touch := touch in
    let stride_align := wrap (stride_words * HeapWordSize) in
    let new_alloc := ptr_add alloc alloc_size in
    if new_alloc >? touch then
      if new_alloc >? align_down (ptr_sub alloc_end 1) stride_align
      then PtCmpxchg old_touch alloc_end None
      else pretouch_next stride_words old_touch (align_up new_alloc stride_align) alloc_end
    else if pointer_delta touch new_alloc >? limit_words then PtReturn
    else pretouch_next stride_words old_touch touch alloc_end.

(** The compare-and-swap that ends a call. *)
Definition pretouch_commit (g : PSOldGen) (a : pretouch_action) : PSOldGen :=
  match a with
  | PtReturn => g
  | PtCmpxchg old_touch next_touch claimed =>
      let (found, stored) := Atomic_cmpxchg (alloc_pretouch_next g) old_touch next_touch in
      let g := set_alloc_pretouch_next g stored in
      match claimed with
      | Some touch => if found =? old_touch then touch_page g touch else g
      | None => g
      end
  end.

(** A call that runs without interference from other threads. *)
Definition pretouch_during_allocation (g : PSOldGen) (alloc alloc_size : Z) : PSOldGen :=
  if alloc_pretouch_stride_words g <=? alloc_size then g
  else
    let touch := alloc_pretouch_next g in
    let alloc_end := ms_end (object_space g) in
    pretouch_commit g
      (pretouch_plan (alloc_pretouch_stride_words g) (alloc_pretouch_limit_words g)
                     touch alloc_end alloc alloc_size).

(** *** Interleaved calls

    Each thread runs [pretouch_during_allocation] as three atomic steps:
    the load of the pretouch pointer, the load of the allocation end, and
    the compare-and-swap.  Other threads run between them. *)
Inductive pt_thread :=
| PtIdle
| PtEntered (alloc alloc_size : Z)
| PtLoadedTouch (alloc alloc_size touch : Z)
| PtLoadedEnd (a : pretouch_action).

Definition pt_step (g : PSOldGen) (t : pt_thread) : PSOldGen * pt_thread :=
  match t with
  | PtIdle => (g, PtIdle)
  | PtEntered alloc alloc_size =>
      if alloc_pretouch_stride_words g <=? alloc_size then (g, PtIdle)
      else (g, PtLoadedTouch alloc alloc_size (alloc_pretouch_next g))
  | PtLoadedTouch alloc alloc_size touch =>
      (g, PtLoadedEnd
            (pretouch_plan (alloc_pretouch_stride_words g) (alloc_pretouch_limit_words g)
                           touch (ms_end (object_space g)) alloc alloc_size))
  | PtLoadedEnd a => (pretouch_commit g a, PtIdle)
  end.

(** What the scheduler does next: thread [tid] begins a call, or thread
    [tid] takes its next step. *)
Inductive pt_event :=
| PtCall (tid : nat) (alloc alloc_size : Z)
| PtStep (tid : nat).

Fixpoint set_nth {A : Type} (n : nat) (x : A) (l : list A) : list A :=
  match l, n with
  | [], _ => []
  | _ :: r, O => x :: r
  | y :: r, S m => y :: set_nth m x r
  end.

Definition pt_run1 (st : PSOldGen * list pt_thread) (e : pt_event)
  : PSOldGen * list pt_thread :=
  let (g, ts) := st in
  match e with
  | PtCall tid alloc alloc_size =>
      match nth_error ts tid with
      | Some PtIdle => (g, set_nth tid (PtEntered alloc alloc_size) ts)
      | _ => st
      end
  | PtStep tid =>
      match nth_error ts tid with
      | Some t => let (g', t') := pt_step g t in (g', set_nth tid t' ts)
      | None => st
      end
  end.

Definition pt_run (st : PSOldGen * list pt_thread) (es : list pt_event)
  : PSOldGen * list pt_thread :=
  fold_left pt_run1 es st.

(** ** Block iteration *)

(** Modelled from the spec: the object space holds its objects back to
    back from [bottom]; [sizes] lists their sizes in words, in address
    order.  The addresses at which objects start: *)
Fixpoint object_addresses (p : Z) (sizes : list Z) : list Z :=
  match sizes with
  | [] => []
  | s :: rest => p :: object_addresses (ptr_add p s) rest
  end.

(** The words the objects take together. *)
Definition total_words (sizes : list Z) : Z := fold_right Z.add 0 sizes.

(** Modelled from the spec: [cast_to_oop(p)->size()], the size in words that
    the object at [p] reports. *)
Fixpoint oop_size (bottom : Z) (sizes : list Z) (p : Z) : Z :=
  match sizes with
  | [] => 0
  | s :: rest => if p =? bottom then s else oop_size (ptr_add bottom s) rest p
  end.

(** Modelled from the spec: [ObjectStartArray::object_start addr], the start
    address of the object that contains or precedes [addr]. *)
Fixpoint object_start (bottom : Z) (sizes : list Z) (addr : Z) : Z :=
  match sizes with
  | [] => bottom
  | s :: rest =>
      if addr <? ptr_add bottom s then bottom
      else object_start (ptr_add bottom s) rest addr
  end.

(** Modelled from the spec: [ObjectStartArray::object_starts_in_range],
    whether any object starts within [[begin, end)]. *)
Definition object_starts_in_range (bottom : Z) (sizes : list Z) (begin end_ : Z) : bool :=
  existsb (fun s => (begin <=? s) && (s <? end_)) (object_addresses bottom sizes).

Definition num_iterable_blocks (IterateBlockSize : Z) (space : MutableSpace) : Z :=
  wrap (ms_used_in_bytes space + IterateBlockSize - 1) / IterateBlockSize.

(** The loop [for (p = start; p < end; p += cast_to_oop(p)->size())]; the
    result lists the objects handed to [cl->do_object], in order.  [None]
    when the fuel runs out before the loop ends. *)
Fixpoint iterate_objects (fuel : nat) (size_of : Z -> Z) (p end_ : Z) : option (list Z) :=
  if p <? end_ then
    match fuel with
    | O => None
    | S fuel' =>
        match iterate_objects fuel' size_of (ptr_add p (size_of p)) end_ with
        | Some visited => Some (p :: visited)
        | None => None
        end
    end
  else Some [].

Definition block_begin (IterateBlockSize : Z) (space : MutableSpace) (block_index : Z) : Z :=
  ptr_add (ms_bottom space) (wrap (block_index * (IterateBlockSize / HeapWordSize))).

Definition block_end (IterateBlockSize : Z) (space : MutableSpace) (block_index : Z) : Z :=
  MIN2 (ms_top space)
       (ptr_add (block_begin IterateBlockSize space block_index)
                (IterateBlockSize / HeapWordSize)).

(** [PSOldGen::object_iterate_block] over a space whose objects are [sizes];
    every object of the block takes at most one unit of fuel. *)
Definition object_iterate_block (IterateBlockSize : Z) (space : MutableSpace)
  (sizes : list Z) (block_index : Z) : option (list Z) :=
  let begin := block_begin IterateBlockSize space block_index in
  let end_ := block_end IterateBlockSize space block_index in
  if negb (object_starts_in_range (ms_bottom space) sizes begin end_) then Some []
  else
    let start := object_start (ms_bottom space) sizes begin in
    let start :=
      if start <? begin
      then ptr_add start (oop_size (ms_bottom space) sizes start) else start in
    iterate_objects (length sizes) (oop_size (ms_bottom space) sizes) start end_.

(** The blocks [0 .. n-1], one after the other. *)
Fixpoint iterate_blocks (IterateBlockSize : Z) (space : MutableSpace)
  (sizes : list Z) (first : Z) (n : nat) : option (list Z) :=
  match n with
  | O => Some []
  | S n' =>
      match object_iterate_block IterateBlockSize space sizes first,
            iterate_blocks IterateBlockSize space sizes (first + 1) n' with
      | Some here, Some later => Some (here ++ later)
      | _, _ => None
      end
  end.

(** Running [object_iterate_block] over all [num_iterable_blocks] blocks. *)
Definition object_iterate_all_blocks (IterateBlockSize : Z) (space : MutableSpace)
  (sizes : list Z) : option (list Z) :=
  iterate_blocks IterateBlockSize space sizes 0
    (Z.to_nat (num_iterable_blocks IterateBlockSize space)).
(** ** Well-formed generations *)

(** The virtual space lies in the address space, its committed part inside
    its reserved part, all three addresses multiples of the alignment, which
    is a power of two of at least a heap word. *)
Definition vs_wf (vs : PSVirtualSpace) : Prop :=
  is_power_of_2 (vs_alignment vs) = true /\
  HeapWordSize <= vs_alignment vs < word_modulus /\
  0 <= reserved_low_addr vs /\
  reserved_low_addr vs <= committed_high_addr vs /\
  committed_high_addr vs <= reserved_high_addr vs /\
  reserved_high_addr vs < word_modulus /\
  reserved_low_addr vs mod vs_alignment vs = 0 /\
  committed_high_addr vs mod vs_alignment vs = 0 /\
  reserved_high_addr vs mod vs_alignment vs = 0.

(** The object space spans the committed region. *)
Definition gen_wf (g : PSOldGen) : Prop :=
  vs_wf (virtual_space g) /\
  ms_bottom (object_space g) = low (virtual_space g) /\
  ms_end (object_space g) = high (virtual_space g).

(** Two generations built for the same reserved space and bounds. *)
Definition same_config (g g' : PSOldGen) : Prop :=
  min_gen_size g' = min_gen_size g /\
  max_gen_size g' = max_gen_size g /\
  vs_alignment (virtual_space g') = vs_alignment (virtual_space g) /\
  reserved_low_addr (virtual_space g') = reserved_low_addr (virtual_space g) /\
  reserved_high_addr (virtual_space g') = reserved_high_addr (virtual_space g).

(** The pretouch stride is a whole power-of-two page. *)
Definition pretouch_wf (g : PSOldGen) : Prop :=
  is_power_of_2 (alloc_pretouch_stride_words g * HeapWordSize) = true /\
  0 < alloc_pretouch_stride_words g /\
  alloc_pretouch_stride_words g * HeapWordSize < word_modulus.

(** The object space ends at a real address: at least one word above
    [NULL], inside the address space. *)
Definition end_wf (g : PSOldGen) : Prop :=
  HeapWordSize <= ms_end (object_space g) < word_modulus.

(** A thread that is not in the middle of a call. *)
Definition pt_fresh (t : pt_thread) : bool :=
  match t with
  | PtIdle | PtEntered _ _ => true
  | _ => false
  end.

(** What is known of a thread in the middle of a call, for a space ending
    at [e]. *)
Definition pt_thread_ok (e : Z) (t : pt_thread) : Prop :=
  match t with
  | PtIdle | PtEntered _ _ => True
  | PtLoadedTouch _ _ touch => 0 <= touch
  | PtLoadedEnd PtReturn => True
  | PtLoadedEnd (PtCmpxchg old_touch next_touch _) =>
      0 <= old_touch /\ old_touch < next_touch <= e
  end.

(** What interleaved pretouch calls keep true of a generation that started
    as [g0]: the object space and the pretouch parameters stay put, and
    every thread in the middle of a call holds values it can have read. *)
Definition pt_inv (g0 : PSOldGen) (st : PSOldGen * list pt_thread) : Prop :=
  object_space (fst st) = object_space g0 /\
  alloc_pretouch_stride_words (fst st) = alloc_pretouch_stride_words g0 /\
  alloc_pretouch_limit_words (fst st) = alloc_pretouch_limit_words g0 /\
  0 <= alloc_pretouch_next (fst st) /\
  Forall (pt_thread_ok (ms_end (object_space g0))) (snd st).

(** Objects of positive size laid out from [p] inside the address space. *)
Definition layout_ok (p : Z) (sizes : list Z) : Prop :=
  0 <= p /\ forallb (fun s => 0 <? s) sizes = true /\
  p + HeapWordSize * total_words sizes < word_modulus.

(** Addresses in [[lo, hi)]. *)
Definition between (lo hi p : Z) : bool := (lo <=? p) && (p <? hi).

(** A used space made of the objects [sizes], cut into blocks of
    [IterateBlockSize] bytes, a whole number of words, and ending at least
    one block below the end of the address space. *)
Definition blocks_wf (IterateBlockSize : Z) (space : MutableSpace) (sizes : list Z) : Prop :=
  0 < IterateBlockSize /\
  IterateBlockSize mod HeapWordSize = 0 /\
  layout_ok (ms_bottom space) sizes /\
  ms_top space = ms_bottom space + HeapWordSize * total_words sizes /\
  ms_top space + IterateBlockSize <= word_modulus.

(** ** Concrete configurations *)

Definition K : Z := 1024.
Definition M : Z := K * K.

(** 4 KiB pages, four GC threads, 1 MiB alignment, every commit granted. *)
Definition env0 : Env :=
  {| UseNUMA := false; numa_get_groups_num := 1; MinHeapDeltaBytes := 128 * K;
     ZapUnusedHeapArea := false; UsePerfData := true; AlwaysPreTouch := false;
     UseLargePages := false; UseTransparentHugePages := false;
     vm_page_size := 4096; large_page_size := 2 * M; ParallelGCThreads := 4;
     GenAlignment := M; is_VM_thread := true;
     commit_memory := fun _ _ => true |}.

(** The same, with the operating system refusing every commit. *)
Definition env_no_commit : Env :=
  {| UseNUMA := false; numa_get_groups_num := 1; MinHeapDeltaBytes := 128 * K;
     ZapUnusedHeapArea := false; UsePerfData := true; AlwaysPreTouch := false;
     UseLargePages := false; UseTransparentHugePages := false;
     vm_page_size := 4096; large_page_size := 2 * M; ParallelGCThreads := 4;
     GenAlignment := M; is_VM_thread := true;
     commit_memory := fun _ _ => false |}.

(** Allocation moves [top]; it belongs to the allocation collaborator. *)
Definition set_top (g : PSOldGen) (t : Z) : PSOldGen :=
  set_object_space g (mkMS (ms_bottom (object_space g)) t (ms_end (object_space g))).

Definition gen_base : Z := 2048 * M.

(** A generation reserved at 2 GiB: 64 MiB reserved, 8 MiB minimum, 64 MiB
    maximum, 16 MiB committed at construction, then 10 MiB in use. *)
Definition gen0 : PSOldGen :=
  match PSOldGen_new env0 512 0 gen_base (64 * M) (16 * M) (8 * M) (64 * M) with
  | Some g => set_top g (gen_base + 10 * M)
  | None => PSOldGen_members 0 0
  end.

(** The same generation with everything committed. *)
Definition gen_full : PSOldGen :=
  match PSOldGen_new env0 512 0 gen_base (64 * M) (64 * M) (8 * M) (64 * M) with
  | Some g => set_top g (gen_base + 10 * M)
  | None => PSOldGen_members 0 0
  end.

(** The generation [gen0] once the pretouch pointer has reached the page
    at 32 KiB above the bottom. *)
Definition gen_touch : PSOldGen := set_alloc_pretouch_next gen0 (gen_base + 8 * 4096).

(** Two threads, each allocating a 64-word chunk, interleaved so that both
    read the pretouch pointer before either swaps it. *)
Definition two_calls : list pt_event :=
  [ PtCall 0 (gen_base + 8 * 4096 - 8 * 600) 64;
    PtCall 1 (gen_base + 8 * 4096 + 8 * 100) 64;
    PtStep 0; PtStep 1; PtStep 0; PtStep 1; PtStep 1; PtStep 0 ].

(** The generation right after construction: nothing allocated yet. *)
Definition gen_fresh : PSOldGen :=
  match PSOldGen_new env0 512 0 gen_base (64 * M) (16 * M) (8 * M) (64 * M) with
  | Some g => g
  | None => PSOldGen_members 0 0
  end.

(** The space fills up to 64 bytes below its end; the last 64-word chunk
    drives the pretouch pointer. *)
Definition gen_filled : PSOldGen :=
  let top := gen_base + 16 * M - 64 in
  pretouch_during_allocation (set_top gen_fresh top) (top - 8 * 64) 64.

(** A collection then leaves 3 MiB in use. *)
Definition gen_collected : PSOldGen := set_top gen_filled (gen_base + 3 * M).

(** A generation whose maximum size, 32 MiB, is below its 64 MiB reserved
    size; 16 MiB committed, 10 MiB in use. *)
Definition gen_low_max : PSOldGen :=
  match PSOldGen_new env0 512 0 gen_base (64 * M) (16 * M) (8 * M) (32 * M) with
  | Some g => set_top g (gen_base + 10 * M)
  | None => PSOldGen_members 0 0
  end.

(** The same with a maximum size of 32 MiB + 4 KiB, not a multiple of the
    alignment. *)
Definition gen_odd_max : PSOldGen :=
  match PSOldGen_new env0 512 0 gen_base (64 * M) (16 * M) (8 * M) (32 * M + 4096) with
  | Some g => set_top g (gen_base + 10 * M)
  | None => PSOldGen_members 0 0
  end.

(** [env0] with a minimum expansion increment of 24 MiB. *)
Definition env_big_delta : Env :=
  {| UseNUMA := false; numa_get_groups_num := 1; MinHeapDeltaBytes := 24 * M;
     ZapUnusedHeapArea := false; UsePerfData := true; AlwaysPreTouch := false;
     UseLargePages := false; UseTransparentHugePages := false;
     vm_page_size := 4096; large_page_size := 2 * M; ParallelGCThreads := 4;
     GenAlignment := M; is_VM_thread := true;
     commit_memory := fun _ _ => true |}.

(** A small space for block iteration: blocks of 64 bytes (8 words), five
    objects of 3, 7, 2, 12 and 1 words.  The second object straddles the
    first block boundary, the fourth spans all of the third block. *)
Definition small_space : MutableSpace :=
  mkMS gen_base (gen_base + 8 * 25) (gen_base + 8 * 64).
Definition small_sizes : list Z := [3; 7; 2; 12; 1].

(** ** Further operations and predicates *)

(** The minimum increment [aligned_expand_bytes] that [expand] computes
    before its attempts. *)
Definition expand_min_increment (env : Env) (alignment : Z) : Z :=
  let aligned_expand_bytes := align_up (MinHeapDeltaBytes env) alignment in
  if UseNUMA env
  then MAX2 aligned_expand_bytes (wrap (alignment * numa_get_groups_num env))
  else aligned_expand_bytes.

(** The amount [aligned_bytes] that [expand] asks for in its second
    attempt. *)
Definition expand_aligned_bytes (bytes alignment : Z) : Z :=
  if align_up bytes alignment =? 0
  then align_down bytes alignment else align_up bytes alignment.

(** The operating system grants every commit. *)
Definition commits_granted (env : Env) : Prop :=
  forall base bytes, commit_memory env base bytes = true.

(** The allocation frontier lies within the object space. *)
Definition top_wf (g : PSOldGen) : Prop :=
  ms_bottom (object_space g) <= ms_top (object_space g) <= ms_end (object_space g).

(** [object_iterate_block] with the answer of the object-start index to
    [object_starts_in_range] taken from [in_range]. *)
Definition object_iterate_block_with (in_range : Z -> Z -> bool)
  (IterateBlockSize : Z) (space : MutableSpace) (sizes : list Z) (block_index : Z)
  : option (list Z) :=
  let begin := block_begin IterateBlockSize space block_index in
  let end_ := block_end IterateBlockSize space block_index in
  if negb (in_range begin end_) then Some []
  else
    let start := object_start (ms_bottom space) sizes begin in
    let start :=
      if start <? begin
      then ptr_add start (oop_size (ms_bottom space) sizes start) else start in
    iterate_objects (length sizes) (oop_size (ms_bottom space) sizes) start end_.

(** Modelled from the spec: [PSOldGen::object_iterate] (psOldGen.hpp) hands
    every object of the object space to the closure, walking from [bottom]
    to [top] by the sizes the objects report. *)
Definition object_iterate (space : MutableSpace) (sizes : list Z) : option (list Z) :=
  iterate_objects (length sizes) (oop_size (ms_bottom space) sizes)
                  (ms_bottom space) (ms_top space).

(** [VerifyObjectStartArrayClosure::do_object]: [true] when both
    guarantees hold.  [is_block_allocated] is the answer of the
    object-start index for the object's address. *)
Definition verify_do_object (bottom : Z) (sizes : list Z)
  (is_block_allocated : Z -> bool) (obj : Z) : bool :=
  let test_addr := ptr_add obj 1 in
  (object_start bottom sizes test_addr =? obj) && is_block_allocated obj.

(** [PSOldGen::verify_object_start_array]: [Some true] when every object
    passes, [Some false] when a guarantee fails, [None] when the walk does
    not end. *)
Definition verify_object_start_array (space : MutableSpace) (sizes : list Z)
  (is_block_allocated : Z -> bool) : option bool :=
  match object_iterate space sizes with
  | Some objs =>
      Some (forallb (verify_do_object (ms_bottom space) sizes is_block_allocated) objs)
  | None => None
  end.

(** Modelled from the spec: the constructor [MemRegion(start, end)] as the
    class has it, keeping [start] and [pointer_delta(end, start)] words;
    [end()] is [start] plus that many words. *)
Definition MemRegion_of_bounds (start end_ : Z) : MemRegion :=
  mkMemRegion start (ptr_add start (pointer_delta end_ start)).

(** [g'] is [g] with [grow] more bytes committed and published. *)
Definition grown_by (g g' : PSOldGen) (grow : Z) : Prop :=
  0 < grow /\ grow <= uncommitted_size (virtual_space g) /\
  virtual_space g'
    = mkVS (vs_alignment (virtual_space g)) (reserved_low_addr (virtual_space g))
           (reserved_high_addr (virtual_space g))
           (committed_high_addr (virtual_space g) + grow) /\
  object_space g'
    = mkMS (low (virtual_space g)) (ms_top (object_space g))
           (committed_high_addr (virtual_space g) + grow).

(** What is known of the page a thread is about to claim. *)
Definition pt_claim_ok (t : pt_thread) : Prop :=
  match t with
  | PtLoadedEnd (PtCmpxchg old_touch next_touch (Some page)) =>
      old_touch <= page < next_touch
  | _ => True
  end.

(** Every page touched so far lies below the pretouch pointer, and none
    was touched twice. *)
Definition touched_inv (g : PSOldGen) : Prop :=
  Forall (fun p => p < alloc_pretouch_next g) (touched g) /\ NoDup (touched g).

(** A generation with one 1 MiB unit left to commit. *)
Definition gen_nearly_full : PSOldGen :=
  match PSOldGen_new env0 512 0 gen_base (64 * M) (63 * M) (8 * M) (64 * M) with
  | Some g => set_top g (gen_base + 63 * M - 64)
  | None => PSOldGen_members 0 0
  end.

(** An object-start index that answers yes to every range query. *)
Definition always_in_range (begin end_ : Z) : bool := true.

(** A space whose objects all have at least two words. *)
Definition checked_space : MutableSpace :=
  mkMS gen_base (gen_base + 8 * 24) (gen_base + 8 * 64).
Definition checked_sizes : list Z := [3; 7; 2; 12].

(** * Properties *)

(** ** Arithmetic facts about the helpers *)

Lemma wrap_small (x : Z) : in_word x -> wrap x = x.
Proof. intros H. apply Z.mod_small. exact H. Qed.

Lemma wrap_range (x : Z) : in_word (wrap x).
Proof. apply Z.mod_pos_bound. reflexivity. Qed.

Lemma MIN2_min (a b : Z) : MIN2 a b = Z.min a b.
Proof. unfold MIN2. destruct (Z.ltb_spec a b); lia. Qed.

Lemma MAX2_max (a b : Z) : MAX2 a b = Z.max a b.
Proof. unfold MAX2. rewrite Z.gtb_ltb. destruct (Z.ltb_spec b a); lia. Qed.

Lemma clamp_bounds (v lo hi : Z) : lo <= hi -> lo <= clamp v lo hi <= hi.
Proof. intros H. unfold clamp. rewrite MIN2_min, MAX2_max. lia. Qed.

Lemma is_power_of_2_spec (x : Z) :
  is_power_of_2 x = true -> 0 < x /\ x = 2 ^ Z.log2 x /\ 0 <= Z.log2 x.
Proof.
  unfold is_power_of_2. intros H.
  apply andb_true_iff in H. destruct H as [Hp He].
  apply Z.ltb_lt in Hp. apply Z.eqb_eq in He.
  repeat split; [exact Hp | exact He | apply Z.log2_nonneg].
Qed.

(** The mask form of rounding down agrees with division when the alignment
    is a power of two that fits a word. *)
Lemma align_down_pow2 (s k : Z) :
  in_word s -> 0 <= k < word_bits ->
  align_down s (2 ^ k) = 2 ^ k * (s / 2 ^ k).
Proof.
  intros Hs Hk. unfold align_down, align_mask, word_not.
  assert (H2k : 0 < 2 ^ k < word_modulus).
  { split; [apply Z.pow_pos_nonneg; lia|].
    unfold word_modulus. apply Z.pow_lt_mono_r; lia. }
  rewrite wrap_small by (unfold in_word; lia).
  replace (2 ^ k - 1) with (Z.ones k) by (rewrite Z.ones_equiv; lia).
  replace max_uintx with (Z.ones word_bits)
    by (rewrite Z.ones_equiv; unfold max_uintx, word_modulus; lia).
  transitivity (Z.ldiff s (Z.ones k)).
  - apply Z.bits_inj'. intros n Hn.
    rewrite Z.land_spec, Z.lxor_spec, Z.ldiff_spec.
    destruct (Z.ltb_spec n word_bits) as [Hlt | Hge].
    + rewrite (Z.ones_spec_low word_bits n) by lia.
      destruct (Z.testbit (Z.ones k) n); simpl; reflexivity.
    + assert (Hsn : Z.testbit s n = false).
      { destruct (Z.eq_dec s 0) as [-> | Hnz]; [apply Z.bits_0|].
        apply Z.bits_above_log2; [apply Hs|].
        apply Z.lt_le_trans with word_bits; [|exact Hge].
        apply Z.log2_lt_pow2; [unfold in_word in Hs; lia|].
        apply Hs. }
      rewrite Hsn. reflexivity.
  - rewrite Z.ldiff_ones_r by lia.
    rewrite Z.shiftl_mul_pow2, Z.shiftr_div_pow2 by lia. lia.
Qed.

Lemma pow2_in_word (a : Z) :
  is_power_of_2 a = true -> a < word_modulus ->
  exists k, 0 <= k < word_bits /\ a = 2 ^ k.
Proof.
  intros Hp Ha. destruct (is_power_of_2_spec a Hp) as (Hpos & He & Hk).
  exists (Z.log2 a). split; [|exact He]. split; [exact Hk|].
  apply Z.log2_lt_pow2; [exact Hpos | exact Ha].
Qed.

Lemma align_down_div (s a : Z) :
  in_word s -> is_power_of_2 a = true -> a < word_modulus ->
  align_down s a = a * (s / a).
Proof.
  intros Hs Hp Ha. destruct (pow2_in_word a Hp Ha) as (k & Hk & ->).
  apply align_down_pow2; assumption.
Qed.

Lemma align_down_bounds (s a : Z) :
  in_word s -> is_power_of_2 a = true -> a < word_modulus ->
  align_down s a <= s < align_down s a + a /\ align_down s a mod a = 0
  /\ 0 <= align_down s a.
Proof.
  intros Hs Hp Ha. rewrite align_down_div by assumption.
  destruct (is_power_of_2_spec a Hp) as (Hpos & _ & _).
  pose proof (Z.div_mod s a ltac:(lia)) as Hdm.
  pose proof (Z.mod_pos_bound s a Hpos) as Hm.
  assert (H0 : 0 <= s / a) by (apply Z.div_pos; [apply Hs | lia]).
  repeat split; try nia.
  rewrite Z.mul_comm. apply Z.mod_mul. lia.
Qed.

Lemma align_down_aligned (s a : Z) :
  in_word s -> is_power_of_2 a = true -> a < word_modulus ->
  s mod a = 0 -> align_down s a = s.
Proof.
  intros Hs Hp Ha Hm. rewrite align_down_div by assumption.
  destruct (is_power_of_2_spec a Hp) as (Hpos & _ & _).
  pose proof (Z.div_mod s a ltac:(lia)). lia.
Qed.

Lemma align_mask_pow2 (a : Z) :
  is_power_of_2 a = true -> a < word_modulus -> align_mask a = a - 1.
Proof.
  intros Hp Ha. destruct (is_power_of_2_spec a Hp) as (Hpos & _ & _).
  unfold align_mask. apply wrap_small. unfold in_word. lia.
Qed.

(** Rounding up without wrap-around. *)
Lemma align_up_bounds (s a : Z) :
  in_word s -> is_power_of_2 a = true -> a < word_modulus ->
  s + a - 1 < word_modulus ->
  s <= align_up s a < s + a /\ align_up s a mod a = 0.
Proof.
  intros Hs Hp Ha Hno.
  destruct (is_power_of_2_spec a Hp) as (Hpos & _ & _).
  unfold align_up. rewrite align_mask_pow2 by assumption.
  assert (Hw : in_word (s + (a - 1))) by (unfold in_word in *; lia).
  rewrite (wrap_small _ Hw).
  destruct (align_down_bounds (s + (a - 1)) a Hw Hp Ha) as (Hb & Hm & _).
  split; [|exact Hm].
  split; [|lia].
  (* a multiple of [a] above [s - 1] is at least [s] when ... *)
  rewrite align_down_div in * by assumption.
  pose proof (Z.div_mod (s + (a - 1)) a ltac:(lia)) as Hdm.
  pose proof (Z.mod_pos_bound (s + (a - 1)) a Hpos) as Hmb.
  destruct (Z.le_gt_cases s (a * ((s + (a - 1)) / a))) as [Hle | Hgt]; [exact Hle|].
  exfalso.
  (* s > a*q and a*q > s - 1, so a*q = ... impossible unless s mod a = 0 *)
  assert (Hq : a * ((s + (a - 1)) / a) > s - 1) by lia.
  lia.
Qed.

(** A multiple of the alignment above [s] bounds its rounding up. *)
Lemma align_up_le_multiple (s a m : Z) :
  in_word s -> is_power_of_2 a = true -> a < word_modulus ->
  s <= m -> m mod a = 0 -> m + a <= word_modulus ->
  align_up s a <= m.
Proof.
  intros Hs Hp Ha Hsm Hm Hno.
  destruct (is_power_of_2_spec a Hp) as (Hpos & _ & _).
  unfold align_up. rewrite align_mask_pow2 by assumption.
  assert (Hw : in_word (s + (a - 1))) by (unfold in_word in *; lia).
  rewrite (wrap_small _ Hw), align_down_div by assumption.
  apply Z.mod_divide in Hm; [|lia]. destruct Hm as [q Hq]. subst m.
  assert (Hd : (s + (a - 1)) / a <= q).
  { apply Z.lt_succ_r. apply Z.div_lt_upper_bound; [lia | nia]. }
  nia.
Qed.

Lemma align_up_aligned (s a : Z) :
  in_word s -> is_power_of_2 a = true -> a < word_modulus ->
  s mod a = 0 -> s + a <= word_modulus -> align_up s a = s.
Proof.
  intros Hs Hp Ha Hm Hno.
  destruct (is_power_of_2_spec a Hp) as (Hpos & _ & _).
  pose proof (align_up_le_multiple s a s Hs Hp Ha (Z.le_refl _) Hm Hno).
  pose proof (align_up_bounds s a Hs Hp Ha ltac:(lia)). lia.
Qed.

(** Whatever wraps, rounding yields a multiple of the alignment that is a
    machine word. *)
Lemma align_down_multiple (s a : Z) :
  in_word s -> is_power_of_2 a = true -> a < word_modulus ->
  align_down s a mod a = 0 /\ in_word (align_down s a).
Proof.
  intros Hs Hp Ha. destruct (align_down_bounds s a Hs Hp Ha) as (Hb & Hm & H0).
  split; [exact Hm|]. unfold in_word in *. lia.
Qed.

Lemma align_up_multiple (s a : Z) :
  is_power_of_2 a = true -> a < word_modulus ->
  align_up s a mod a = 0 /\ in_word (align_up s a).
Proof.
  intros Hp Ha. unfold align_up. apply align_down_multiple; try assumption.
  apply wrap_range.
Qed.

(** ** Frame facts: what each mutation leaves alone *)

Lemma set_virtual_space_same (g : PSOldGen) :
  set_virtual_space g (virtual_space g) = g.
Proof. destruct g; reflexivity. Qed.

Lemma post_resize_states_eq (env : Env) (g : PSOldGen) :
  let mr := new_memregion g in
  let s1 := start_array_set_covered_region mr g in
  let s2 := card_table_resize_covered_region mr s1 in
  let s3 := object_space_initialize mr s2 in
  let s4 := update_alloc_pretouch env mr s3 in
  post_resize_states env g = [s1; s2; s3; s4] /\ post_resize env g = s4.
Proof. split; reflexivity. Qed.

Lemma update_alloc_pretouch_frame (env : Env) (mr : MemRegion) (g : PSOldGen) :
  let g' := update_alloc_pretouch env mr g in
  virtual_space g' = virtual_space g /\ object_space g' = object_space g /\
  start_array_covered g' = start_array_covered g /\
  card_table_covered g' = card_table_covered g /\
  min_gen_size g' = min_gen_size g /\ max_gen_size g' = max_gen_size g.
Proof.
  unfold update_alloc_pretouch. destruct (is_VM_thread env); simpl; auto 10.
Qed.

Lemma post_resize_frame (env : Env) (g : PSOldGen) :
  let g' := post_resize env g in
  virtual_space g' = virtual_space g /\
  min_gen_size g' = min_gen_size g /\ max_gen_size g' = max_gen_size g /\
  object_space g' = ms_initialize (object_space g) (new_memregion g) DontClear /\
  start_array_covered g' = new_memregion g /\
  card_table_covered g' = new_memregion g.
Proof.
  pose proof (post_resize_states_eq env g) as H. cbv zeta in H.
  destruct H as [_ ->]. cbv zeta.
  match goal with |- context [update_alloc_pretouch env ?mr ?s] =>
    pose proof (update_alloc_pretouch_frame env mr s) as H; cbv zeta in H;
    destruct H as (-> & -> & -> & -> & -> & ->)
  end.
  simpl. auto 10.
Qed.

(** ** Resize synchronization *)

(** C1: [post_resize] sets the covered region of the object-start index,
    then that of the card table, then publishes the new end through the
    object space's [initialize]; the step after it changes neither the
    bounds nor the coverage.  So in every intermediate state either the
    object space is still the old one or both coverage structures already
    declare the new region, and at the end both declare exactly
    [[bottom, end)] of the object space. *)
Theorem post_resize_publishes_end_last (env : Env) (g : PSOldGen) :
  let mr := new_memregion g in
  (exists s1 s2 s3 s4,
      post_resize_states env g = [s1; s2; s3; s4] /\ post_resize env g = s4 /\
      (* 1: object-start index first *)
      start_array_covered s1 = mr /\ card_table_covered s1 = card_table_covered g /\
      object_space s1 = object_space g /\
      (* 2: card table second *)
      start_array_covered s2 = mr /\ card_table_covered s2 = mr /\
      object_space s2 = object_space g /\
      (* 3: the new end is published *)
      start_array_covered s3 = mr /\ card_table_covered s3 = mr /\
      ms_bottom (object_space s3) = mr_start mr /\
      ms_end (object_space s3) = mr_end mr /\
      ms_top (object_space s3) = ms_top (object_space g) /\
      (* 4: nothing moves the bounds afterwards *)
      start_array_covered s4 = mr /\ card_table_covered s4 = mr /\
      object_space s4 = object_space s3) /\
  (forall s, In s (post_resize_states env g) ->
      object_space s = object_space g \/
      (start_array_covered s = mr /\ card_table_covered s = mr)) /\
  (let g' := post_resize env g in
   start_array_covered g' =
     mkMemRegion (ms_bottom (object_space g')) (ms_end (object_space g')) /\
   card_table_covered g' =
     mkMemRegion (ms_bottom (object_space g')) (ms_end (object_space g')) /\
   ms_end (object_space g') = high (virtual_space g')).
Proof.
  intros mr.
  destruct (post_resize_states_eq env g) as [Hst Hlast].
  fold mr in Hst, Hlast. cbv zeta in Hst, Hlast.
  pose proof (update_alloc_pretouch_frame env mr
    (object_space_initialize mr
       (card_table_resize_covered_region mr (start_array_set_covered_region mr g))))
    as (Hvs & Hos & Hsa & Hct & _ & _).
  cbv zeta in Hvs, Hos, Hsa, Hct.
  split; [|split].
  - do 4 eexists. split; [exact Hst|]. split; [exact Hlast|].
    rewrite Hos, Hsa, Hct. simpl. repeat split; reflexivity.
  - intros s Hin. rewrite Hst in Hin. simpl in Hin.
    destruct Hin as [<- | [<- | [<- | [<- | []]]]].
    + left. reflexivity.
    + left. reflexivity.
    + right. split; reflexivity.
    + right. rewrite Hsa, Hct. split; reflexivity.
  - cbv zeta. rewrite Hlast, Hos, Hsa, Hct, Hvs. simpl.
    repeat split; reflexivity.
Qed.

(** ** Size control *)

Lemma used_in_bytes_in_word (g : PSOldGen) : in_word (used_in_bytes g).
Proof. unfold used_in_bytes, ms_used_in_bytes. apply wrap_range. Qed.

(** A refused commit leaves [expand_by] with nothing to do. *)
Lemma expand_by_refused (env : Env) (g : PSOldGen) (bytes : Z) :
  fst (vs_expand_by env (virtual_space g) bytes) = false ->
  expand_by env g bytes = (false, g).
Proof.
  unfold expand_by, vs_expand_by.
  destruct (uncommitted_size (virtual_space g) <? bytes).
  - intros _. rewrite set_virtual_space_same. reflexivity.
  - destruct (commit_memory env (committed_high_addr (virtual_space g)) bytes).
    + simpl. discriminate.
    + intros _. rewrite set_virtual_space_same. reflexivity.
Qed.

(** The outcome of [expand_by] is that of the commit, and success runs the
    resize synchronization on the grown virtual space. *)
Lemma expand_by_success (env : Env) (g : PSOldGen) (bytes : Z) :
  fst (vs_expand_by env (virtual_space g) bytes) = true ->
  fst (expand_by env g bytes) = true /\
  virtual_space (snd (expand_by env g bytes))
    = snd (vs_expand_by env (virtual_space g) bytes) /\
  min_gen_size (snd (expand_by env g bytes)) = min_gen_size g /\
  max_gen_size (snd (expand_by env g bytes)) = max_gen_size g /\
  object_space (snd (expand_by env g bytes))
    = ms_initialize (object_space g)
        (new_memregion (set_virtual_space g (snd (vs_expand_by env (virtual_space g) bytes))))
        DontClear.
Proof.
  unfold expand_by.
  destruct (vs_expand_by env (virtual_space g) bytes) as [r vs]. simpl.
  intros ->.
  set (g1 := if ZapUnusedHeapArea env then _ else _).
  assert (Hg1 : virtual_space g1 = vs /\ min_gen_size g1 = min_gen_size g /\
                max_gen_size g1 = max_gen_size g /\ object_space g1 = object_space g).
  { subst g1. destruct (ZapUnusedHeapArea env); simpl; auto. }
  destruct Hg1 as (Hv & Hmin & Hmax & Hos).
  pose proof (post_resize_frame env g1) as H. cbv zeta in H.
  destruct H as (Hv' & Hmin' & Hmax' & Hos' & _ & _).
  assert (Hmr : new_memregion g1 = new_memregion (set_virtual_space g vs)).
  { unfold new_memregion. rewrite Hv. reflexivity. }
  destruct (UsePerfData env); simpl;
    rewrite ?Hv', ?Hmin', ?Hmax', ?Hos', ?Hv, ?Hmin, ?Hmax, ?Hos, ?Hmr; auto.
Qed.

Lemma expand_by_outcome (env : Env) (g : PSOldGen) (bytes : Z) :
  fst (expand_by env g bytes) = fst (vs_expand_by env (virtual_space g) bytes).
Proof.
  destruct (fst (vs_expand_by env (virtual_space g) bytes)) eqn:E.
  - apply expand_by_success. exact E.
  - rewrite expand_by_refused by exact E. reflexivity.
Qed.

(** C10: when the commit fails, [expand_by] returns false and the
    generation is exactly as before: committed region, covered regions of
    the object-start index and of the card table, object space, pretouch
    pointer and counters; nothing was mangled either.  The resize
    synchronization and the counter updates run on success only: the
    result of [expand_by] is the result of the commit. *)
Theorem expand_by_commit_failure (env : Env) (g : PSOldGen) (bytes : Z) :
  fst (vs_expand_by env (virtual_space g) bytes) = false ->
  let g' := snd (expand_by env g bytes) in
  fst (expand_by env g bytes) = false /\
  g' = g /\
  committed_size (virtual_space g') = committed_size (virtual_space g) /\
  start_array_covered g' = start_array_covered g /\
  card_table_covered g' = card_table_covered g /\
  ms_end (object_space g') = ms_end (object_space g) /\
  alloc_pretouch_next g' = alloc_pretouch_next g /\
  space_counters_capacity g' = space_counters_capacity g /\
  gen_counters_committed g' = gen_counters_committed g /\
  mangled g' = mangled g /\
  (forall bytes', fst (expand_by env g bytes')
                  = fst (vs_expand_by env (virtual_space g) bytes')).
Proof.
  intros H. cbv zeta. rewrite (expand_by_refused env g bytes H). cbn [fst snd].
  repeat split. intros bytes'. apply expand_by_outcome.
Qed.

Lemma expand_by_commit_failure_witness :
  expand_by env_no_commit gen0 M = (false, gen0).
Proof.
  destruct (expand_by_commit_failure env_no_commit gen0 M eq_refl) as (Hf & Hg & _).
  rewrite (surjective_pairing (expand_by env_no_commit gen0 M)), Hf, Hg. reflexivity.
Defined.

Lemma vs_sizes (vs : PSVirtualSpace) :
  vs_wf vs ->
  reserved_size vs = reserved_high_addr vs - reserved_low_addr vs /\
  committed_size vs = committed_high_addr vs - reserved_low_addr vs /\
  uncommitted_size vs = reserved_high_addr vs - committed_high_addr vs.
Proof.
  intros (_ & _ & H0 & H1 & H2 & H3 & _).
  unfold uncommitted_size, reserved_size, committed_size.
  rewrite (wrap_small (reserved_high_addr vs - reserved_low_addr vs))
    by (unfold in_word; lia).
  rewrite (wrap_small (committed_high_addr vs - reserved_low_addr vs))
    by (unfold in_word; lia).
  rewrite wrap_small by (unfold in_word; lia).
  repeat split; lia.
Qed.

(** C5, as the code has it: [expand_to_reserved] expands by exactly the
    uncommitted capacity when there is some, which on a granted commit
    brings the committed size to the reserved size; when the generation is
    already at the reserved ceiling it changes nothing and returns false. *)
Theorem expand_to_reserved_spec (env : Env) (g : PSOldGen) :
  vs_wf (virtual_space g) ->
  let remaining := uncommitted_size (virtual_space g) in
  (remaining = 0 -> expand_to_reserved env g = (false, g)) /\
  (remaining <> 0 ->
     expand_to_reserved env g = expand_by env g remaining /\
     (commit_memory env (high (virtual_space g)) remaining = true ->
        fst (expand_to_reserved env g) = true /\
        committed_size (virtual_space (snd (expand_to_reserved env g)))
          = committed_size (virtual_space g) + remaining /\
        uncommitted_size (virtual_space (snd (expand_to_reserved env g))) = 0) /\
     (commit_memory env (high (virtual_space g)) remaining = false ->
        expand_to_reserved env g = (false, g))).
Proof.
  intros Hwf remaining.
  destruct (vs_sizes _ Hwf) as (Hr & Hc & Hu).
  pose proof Hwf as (_ & _ & H0 & H1 & H2 & H3 & _).
  unfold expand_to_reserved. fold remaining.
  split.
  - intros ->. reflexivity.
  - intros Hne.
    assert (Hpos : 0 < remaining) by (subst remaining; lia).
    assert (Hgt : (remaining >? 0) = true) by (apply Z.gtb_lt; exact Hpos).
    rewrite Hgt. split; [reflexivity|].
    assert (Hvs : forall b, commit_memory env (high (virtual_space g)) remaining = b ->
              vs_expand_by env (virtual_space g) remaining
              = if b then (true, mkVS (vs_alignment (virtual_space g))
                                  (reserved_low_addr (virtual_space g))
                                  (reserved_high_addr (virtual_space g))
                                  (wrap (committed_high_addr (virtual_space g) + remaining)))
                else (false, virtual_space g)).
    { intros b Hb. unfold vs_expand_by. fold remaining.
      rewrite Z.ltb_irrefl. unfold high in Hb. rewrite Hb. reflexivity. }
    split.
    + intros Hok. specialize (Hvs true Hok).
      pose proof (expand_by_success env g remaining) as Hs.
      rewrite Hvs in Hs. simpl in Hs. destruct (Hs eq_refl) as (Hf & Hv & _).
      split; [exact Hf|]. rewrite Hv, Hc. subst remaining. rewrite Hu.
      unfold uncommitted_size, reserved_size, committed_size. simpl.
      replace (committed_high_addr (virtual_space g) +
               (reserved_high_addr (virtual_space g) - committed_high_addr (virtual_space g)))
        with (reserved_high_addr (virtual_space g)) by lia.
      rewrite (wrap_small (reserved_high_addr (virtual_space g)))
        by (unfold in_word; lia).
      rewrite (wrap_small (reserved_high_addr (virtual_space g)
                           - reserved_low_addr (virtual_space g)))
        by (unfold in_word; lia).
      rewrite Z.sub_diag. split; [lia | reflexivity].
    + intros Hno. apply expand_by_refused.
      rewrite (Hvs false Hno). reflexivity.
Qed.

Lemma gen0_wf : gen_wf gen0.
Proof.
  unfold gen_wf, vs_wf. vm_compute.
  repeat split; (reflexivity || discriminate).
Qed.

Lemma gen_full_wf : gen_wf gen_full.
Proof.
  unfold gen_wf, vs_wf. vm_compute.
  repeat split; (reflexivity || discriminate).
Qed.

Lemma expand_to_reserved_spec_witness :
  expand_to_reserved env0 gen_full = (false, gen_full) /\
  committed_size (virtual_space (snd (expand_to_reserved env0 gen0))) = 64 * M.
Proof.
  split.
  - destruct (expand_to_reserved_spec env0 gen_full (proj1 gen_full_wf)) as [H _].
    apply H. reflexivity.
  - destruct (expand_to_reserved_spec env0 gen0 (proj1 gen0_wf)) as [_ H].
    destruct H as (_ & H & _); [vm_compute; discriminate|].
    destruct (H eq_refl) as (_ & -> & _). reflexivity.
Defined.

(** C5 as stated fails: at the reserved ceiling [expand_to_reserved]
    returns false. *)
Lemma expand_to_reserved_at_ceiling_returns_false :
  uncommitted_size (virtual_space gen_full) = 0 /\
  fst (expand_to_reserved env0 gen_full) <> true.
Proof. split; [reflexivity | vm_compute; discriminate]. Qed.

(** [shrink] in general: nothing when the request rounds down to zero,
    otherwise the virtual space gives back [bytes] as passed and the resize
    synchronization runs. *)
Lemma shrink_spec (env : Env) (g : PSOldGen) (bytes : Z) :
  shrink env g bytes =
    if align_down bytes (vs_alignment (virtual_space g)) >? 0
    then post_resize env (set_virtual_space g (vs_shrink_by (virtual_space g) bytes))
    else g.
Proof. reflexivity. Qed.

(** C4: [shrink] tests the rounded-down amount but hands the raw [bytes]
    to the virtual space.  With 16 MiB committed and a 1 MiB alignment, a
    request of 1 MiB + 4 KiB rounds down to 1 MiB, yet 1 MiB + 4 KiB is
    uncommitted and the committed size is no longer aligned. *)
Theorem shrink_uncommits_raw_bytes :
  let bytes := M + 4096 in
  let g' := shrink env0 gen0 bytes in
  committed_size (virtual_space gen0) = 16 * M /\
  align_down bytes (vs_alignment (virtual_space gen0)) = M /\
  committed_size (virtual_space g') = 16 * M - bytes /\
  committed_size (virtual_space g') <> 16 * M - M /\
  committed_size (virtual_space g') mod vs_alignment (virtual_space g') <> 0 /\
  ms_end (object_space g') = high (virtual_space g').
Proof. vm_compute. repeat split; (reflexivity || discriminate). Qed.

(** ** Allocation pretouch *)

Lemma multiple_room (m a : Z) :
  is_power_of_2 a = true -> a < word_modulus -> in_word m -> m mod a = 0 ->
  m + a <= word_modulus.
Proof.
  intros Hp Ha Hm Hmod. destruct (pow2_in_word a Hp Ha) as (k & Hk & ->).
  assert (Hpos : 0 < 2 ^ k) by (apply Z.pow_pos_nonneg; lia).
  assert (Hwm : word_modulus = 2 ^ k * 2 ^ (word_bits - k)).
  { unfold word_modulus. rewrite <- Z.pow_add_r by lia. f_equal. lia. }
  apply Z.mod_divide in Hmod; [|lia]. destruct Hmod as [q Hq].
  unfold in_word in Hm. rewrite Hwm in *.
  assert (q < 2 ^ (word_bits - k)) by nia. nia.
Qed.

Lemma pointer_delta_exact (a b : Z) :
  0 <= b <= a -> a < word_modulus -> pointer_delta a b = (a - b) / HeapWordSize.
Proof.
  intros H1 H2. unfold pointer_delta. rewrite wrap_small; [reflexivity|].
  unfold in_word. lia.
Qed.

(** The next pretouch pointer is one stride past the touched page, limited
    by the allocation end. *)
Lemma pretouch_next_spec (stride old_touch touch alloc_end : Z) :
  0 < stride -> 0 <= touch <= alloc_end -> alloc_end < word_modulus ->
  pretouch_next stride old_touch touch alloc_end =
    PtCmpxchg old_touch (Z.min (touch + stride * HeapWordSize) alloc_end) (Some touch).
Proof.
  intros Hs Ht He. unfold pretouch_next. f_equal.
  rewrite pointer_delta_exact by lia. unfold HeapWordSize in *.
  destruct (Z.ltb_spec ((alloc_end - touch) / 8) stride) as [Hlt | Hge].
  - assert (alloc_end - touch < 8 * stride).
    { destruct (Z.lt_ge_cases (alloc_end - touch) (8 * stride)) as [H | H]; [exact H|].
      exfalso. apply (Z.div_le_lower_bound _ 8) in H; lia. }
    lia.
  - assert (8 * stride <= alloc_end - touch).
    { pose proof (Z.mul_div_le (alloc_end - touch) 8 ltac:(lia)). lia. }
    unfold ptr_add, HeapWordSize. rewrite wrap_small by (unfold in_word; lia). lia.
Qed.

(** Whenever a call decides to compare-and-swap, it swaps from the value it
    read to a strictly larger one that does not exceed the allocation end
    it read. *)
Lemma pretouch_plan_advances (stride limit touch alloc_end alloc alloc_size : Z)
  (old_touch next_touch : Z) (claimed : option Z) :
  is_power_of_2 (stride * HeapWordSize) = true ->
  0 < stride -> stride * HeapWordSize < word_modulus ->
  0 <= touch -> HeapWordSize <= alloc_end < word_modulus ->
  pretouch_plan stride limit touch alloc_end alloc alloc_size
    = PtCmpxchg old_touch next_touch claimed ->
  old_touch = touch /\ old_touch < next_touch <= alloc_end.
Proof.
  intros Hp Hs Hsa Ht He. unfold pretouch_plan.
  destruct (Z.geb_spec touch alloc_end) as [Hge | Hlt]; [discriminate|].
  assert (Hsaw : wrap (stride * HeapWordSize) = stride * HeapWordSize)
    by (apply wrap_small; unfold in_word, HeapWordSize in *; lia).
  rewrite Hsaw.
  set (new_alloc := ptr_add alloc alloc_size).
  assert (Hna : in_word new_alloc) by apply wrap_range.
  rewrite !Z.gtb_ltb.
  destruct (Z.ltb_spec touch new_alloc) as [Hpast | Hbehind].
  - destruct (Z.ltb_spec (align_down (ptr_sub alloc_end 1) (stride * HeapWordSize)) new_alloc)
      as [Hlast | Hroom].
    + intros [= <- <- _]. lia.
    + assert (Hw : ptr_sub alloc_end 1 = alloc_end - HeapWordSize).
      { unfold ptr_sub. rewrite wrap_small; unfold in_word, HeapWordSize in *; lia. }
      rewrite Hw in Hroom.
      assert (Hin : in_word (alloc_end - HeapWordSize))
        by (unfold in_word, HeapWordSize in *; lia).
      destruct (align_down_bounds _ _ Hin Hp Hsa) as (Hdb & Hdm & Hd0).
      set (D := align_down (alloc_end - HeapWordSize) (stride * HeapWordSize)) in *.
      assert (HD : in_word D) by (unfold in_word in *; lia).
      pose proof (multiple_room D _ Hp Hsa HD Hdm) as Hrm.
      pose proof (align_up_le_multiple new_alloc _ D Hna Hp Hsa Hroom Hdm Hrm) as Hup.
      pose proof (align_up_bounds new_alloc _ Hna Hp Hsa ltac:(lia)) as [Hub _].
      rewrite pretouch_next_spec by (unfold HeapWordSize in *; lia).
      intros [= <- <- _]. unfold HeapWordSize in *. lia.
  - destruct (Z.ltb_spec limit (pointer_delta touch new_alloc)); [discriminate|].
    rewrite pretouch_next_spec by (unfold HeapWordSize in *; lia).
    intros [= <- <- _]. unfold HeapWordSize in *. lia.
Qed.

Lemma pretouch_commit_frame (g : PSOldGen) (a : pretouch_action) :
  let g' := pretouch_commit g a in
  object_space g' = object_space g /\ virtual_space g' = virtual_space g /\
  alloc_pretouch_stride_words g' = alloc_pretouch_stride_words g /\
  alloc_pretouch_limit_words g' = alloc_pretouch_limit_words g /\
  alloc_pretouch_next g' =
    match a with
    | PtReturn => alloc_pretouch_next g
    | PtCmpxchg old_touch next_touch _ =>
        if alloc_pretouch_next g =? old_touch then next_touch else alloc_pretouch_next g
    end.
Proof.
  destruct a as [| o n c]; simpl; [auto|].
  destruct c as [t|]; simpl; [|auto].
  destruct (alloc_pretouch_next g =? o); simpl; auto.
Qed.

(** A call that nothing interrupts moves the pretouch pointer forward, or
    not at all, and never past the end of the object space. *)
Lemma pretouch_during_allocation_monotone (g : PSOldGen) (alloc alloc_size : Z) :
  pretouch_wf g -> end_wf g -> 0 <= alloc_pretouch_next g ->
  let g' := pretouch_during_allocation g alloc alloc_size in
  object_space g' = object_space g /\
  alloc_pretouch_next g <= alloc_pretouch_next g' /\
  (alloc_pretouch_next g <= ms_end (object_space g) ->
   alloc_pretouch_next g' <= ms_end (object_space g')).
Proof.
  intros (Hp & Hs & Hsa) He Hc. unfold pretouch_during_allocation.
  destruct (alloc_pretouch_stride_words g <=? alloc_size); [cbv zeta; auto with zarith|].
  cbv zeta.
  match goal with |- context [pretouch_commit g ?a] =>
    pose proof (pretouch_commit_frame g a) as Hf; cbv zeta in Hf;
    destruct Hf as (Hos & _ & _ & _ & Hn);
    destruct a as [| o n c] eqn:Ha
  end.
  - rewrite Hos, Hn. auto with zarith.
  - apply pretouch_plan_advances in Ha; try assumption.
    destruct Ha as (-> & Hlt & Hle).
    rewrite Hos, Hn, Z.eqb_refl. split; [reflexivity | lia].
Qed.

(** *** Interleaved calls *)

Lemma Forall_set_nth {A : Type} (P : A -> Prop) (n : nat) (x : A) (l : list A) :
  Forall P l -> P x -> Forall P (set_nth n x l).
Proof.
  intros Hl Hx. revert n. induction Hl as [| y r Hy Hr IH]; intros n.
  - destruct n; constructor.
  - destruct n; simpl; constructor; auto.
Qed.

Lemma Forall_nth_error {A : Type} (P : A -> Prop) (n : nat) (x : A) (l : list A) :
  Forall P l -> nth_error l n = Some x -> P x.
Proof.
  intros Hl Hn. rewrite Forall_forall in Hl. apply Hl.
  eapply nth_error_In. exact Hn.
Qed.

Lemma pt_fresh_ok (e : Z) (ts : list pt_thread) :
  forallb pt_fresh ts = true -> Forall (pt_thread_ok e) ts.
Proof.
  rewrite forallb_forall, Forall_forall. intros H t Ht.
  specialize (H t Ht). destruct t; simpl in *; try discriminate; exact I.
Qed.

(** One scheduler event keeps the invariant and does not move the pretouch
    pointer backward or past the end. *)
Lemma pt_run1_inv (g0 : PSOldGen) (st : PSOldGen * list pt_thread) (e : pt_event) :
  pretouch_wf g0 -> end_wf g0 -> pt_inv g0 st ->
  pt_inv g0 (pt_run1 st e) /\
  alloc_pretouch_next (fst st) <= alloc_pretouch_next (fst (pt_run1 st e)) /\
  (alloc_pretouch_next (fst st) <= ms_end (object_space g0) ->
   alloc_pretouch_next (fst (pt_run1 st e)) <= ms_end (object_space g0)).
Proof.
  intros (Hp & Hs & Hsa) He (Hos & Hst & Hli & Hc & Hts).
  destruct st as [g ts]. simpl in *.
  assert (Hsame : pt_inv g0 (g, ts)) by (repeat split; assumption).
  destruct e as [tid alloc alloc_size | tid]; simpl.
  - destruct (nth_error ts tid) as [[| | |]|] eqn:Hn; simpl;
      try (split; [exact Hsame | lia]).
    split; [|lia]. repeat split; try assumption.
    apply Forall_set_nth; [assumption | exact I].
  - destruct (nth_error ts tid) as [t|] eqn:Hn; simpl;
      [|split; [exact Hsame | lia]].
    pose proof (Forall_nth_error _ _ _ _ Hts Hn) as Ht.
    destruct t as [| a sz | a sz touch | act]; simpl.
    + split; [|lia]. repeat split; try assumption.
      apply Forall_set_nth; [assumption | exact I].
    + destruct (alloc_pretouch_stride_words g <=? sz); simpl;
        (split; [|lia]); repeat split; try assumption;
        apply Forall_set_nth; try assumption; simpl; auto.
    + split; [|lia]. repeat split; try assumption.
      apply Forall_set_nth; [assumption|]. simpl.
      rewrite Hst, Hli, Hos.
      destruct (pretouch_plan _ _ _ _ _ _) as [| o n c] eqn:Hplan; [exact I|].
      simpl in Ht.
      apply pretouch_plan_advances in Hplan; try assumption.
      destruct Hplan as (-> & Hlt & Hle). lia.
    + pose proof (pretouch_commit_frame g act) as Hf. cbv zeta in Hf.
      destruct Hf as (Hos' & _ & Hst' & Hli' & Hn').
      set (g' := pretouch_commit g act) in *.
      assert (Hcur : alloc_pretouch_next g <= alloc_pretouch_next g' /\
                     (alloc_pretouch_next g <= ms_end (object_space g0) ->
                      alloc_pretouch_next g' <= ms_end (object_space g0))).
      { rewrite Hn'. destruct act as [| o n c]; simpl in Ht; [lia|].
        destruct (Z.eqb_spec (alloc_pretouch_next g) o); lia. }
      split; [|exact Hcur]. unfold pt_inv. cbn [fst snd].
      repeat split; try congruence; try lia.
      apply Forall_set_nth; [assumption | exact I].
Qed.

Lemma pt_run_inv (g0 : PSOldGen) (es : list pt_event) (st : PSOldGen * list pt_thread) :
  pretouch_wf g0 -> end_wf g0 -> pt_inv g0 st ->
  pt_inv g0 (pt_run st es) /\
  alloc_pretouch_next (fst st) <= alloc_pretouch_next (fst (pt_run st es)) /\
  (alloc_pretouch_next (fst st) <= ms_end (object_space g0) ->
   alloc_pretouch_next (fst (pt_run st es)) <= ms_end (object_space g0)).
Proof.
  intros Hw He. revert st. induction es as [| e es IH]; intros st Hinv.
  - simpl. split; [exact Hinv | lia].
  - simpl. destruct (pt_run1_inv g0 st e Hw He Hinv) as (Hinv1 & Hm1 & Hb1).
    destruct (IH _ Hinv1) as (Hinv2 & Hm2 & Hb2).
    split; [exact Hinv2|]. split; [unfold pt_run in *; lia|].
    intros H. apply Hb2, Hb1, H.
Qed.

(** C6: however the steps of any number of [pretouch_during_allocation]
    calls interleave, the pretouch pointer never moves backward and, once
    within the object space's end, stays within it; and a call that swaps
    does so from the value it read to a value at least as large that does
    not exceed the end it read. *)
Theorem pretouch_cursor_monotone (g : PSOldGen) (ts : list pt_thread)
  (es1 es2 : list pt_event) :
  pretouch_wf g -> end_wf g -> 0 <= alloc_pretouch_next g ->
  forallb pt_fresh ts = true ->
  let g1 := fst (pt_run (g, ts) es1) in
  let g2 := fst (pt_run (g, ts) (es1 ++ es2)) in
  alloc_pretouch_next g1 <= alloc_pretouch_next g2 /\
  object_space g2 = object_space g /\
  (alloc_pretouch_next g <= ms_end (object_space g) ->
   alloc_pretouch_next g2 <= ms_end (object_space g2)) /\
  (forall touch alloc_end alloc alloc_size old_touch next_touch claimed,
      0 <= touch -> HeapWordSize <= alloc_end < word_modulus ->
      pretouch_plan (alloc_pretouch_stride_words g) (alloc_pretouch_limit_words g)
                    touch alloc_end alloc alloc_size
        = PtCmpxchg old_touch next_touch claimed ->
      old_touch = touch /\ old_touch <= next_touch <= alloc_end).
Proof.
  intros Hw He Hc Hfresh g1 g2.
  assert (Hinv0 : pt_inv g (g, ts)).
  { repeat split; try assumption. apply pt_fresh_ok. exact Hfresh. }
  destruct (pt_run_inv g es1 _ Hw He Hinv0) as (Hinv1 & Hm1 & Hb1).
  destruct (pt_run_inv g es2 _ Hw He Hinv1) as (Hinv2 & Hm2 & Hb2).
  assert (Hg2 : g2 = fst (pt_run (pt_run (g, ts) es1) es2)).
  { subst g2. unfold pt_run. rewrite fold_left_app. reflexivity. }
  rewrite Hg2. destruct Hinv2 as (Hos2 & _).
  repeat split.
  - exact Hm2.
  - exact Hos2.
  - intros H. rewrite Hos2. apply Hb2, Hb1, H.
  - destruct Hw as (Hp & Hs & Hsa).
    apply (pretouch_plan_advances _ _ _ _ _ _ _ _ _ Hp Hs Hsa H H0) in H1. apply H1.
  - destruct Hw as (Hp & Hs & Hsa).
    apply (pretouch_plan_advances _ _ _ _ _ _ _ _ _ Hp Hs Hsa H H0) in H1. lia.
  - destruct Hw as (Hp & Hs & Hsa).
    apply (pretouch_plan_advances _ _ _ _ _ _ _ _ _ Hp Hs Hsa H H0) in H1. lia.
Qed.

Lemma gen_touch_pretouch_wf : pretouch_wf gen_touch /\ end_wf gen_touch.
Proof. vm_compute. repeat split; (reflexivity || discriminate). Qed.

Lemma pretouch_cursor_monotone_witness :
  alloc_pretouch_next gen_touch
    <= alloc_pretouch_next (fst (pt_run (gen_touch, [PtIdle; PtIdle]) two_calls))
  /\ alloc_pretouch_next (fst (pt_run (gen_touch, [PtIdle; PtIdle]) two_calls))
    <= ms_end (object_space gen_touch).
Proof.
  destruct (pretouch_cursor_monotone gen_touch [PtIdle; PtIdle] [] two_calls
              (proj1 gen_touch_pretouch_wf) (proj2 gen_touch_pretouch_wf))
    as (H1 & H2 & H3 & _).
  - vm_compute. discriminate.
  - reflexivity.
  - split; [exact H1|]. rewrite <- H2. apply H3. vm_compute. discriminate.
Defined.

(** *** The 512-word stride, 2048-word limit scenario *)

Lemma pretouch_during_allocation_plan (g : PSOldGen) (alloc alloc_size : Z) :
  alloc_size < alloc_pretouch_stride_words g ->
  pretouch_during_allocation g alloc alloc_size =
    pretouch_commit g
      (pretouch_plan (alloc_pretouch_stride_words g) (alloc_pretouch_limit_words g)
         (alloc_pretouch_next g) (ms_end (object_space g)) alloc alloc_size).
Proof.
  intros H. unfold pretouch_during_allocation.
  destruct (Z.leb_spec (alloc_pretouch_stride_words g) alloc_size); [lia | reflexivity].
Qed.

Lemma pretouch_commit_swap (g : PSOldGen) (n : Z) (claimed : option Z) :
  alloc_pretouch_next (pretouch_commit g (PtCmpxchg (alloc_pretouch_next g) n claimed)) = n.
Proof.
  pose proof (pretouch_commit_frame g (PtCmpxchg (alloc_pretouch_next g) n claimed)) as H.
  cbv zeta in H. destruct H as (_ & _ & _ & _ & ->). rewrite Z.eqb_refl. reflexivity.
Qed.

(** A compare-and-swap from the value the pointer holds succeeds: the
    pointer takes the new value and the claimed page, if any, is touched. *)
Lemma pretouch_commit_own (g : PSOldGen) (n : Z) (claimed : option Z) :
  pretouch_commit g (PtCmpxchg (alloc_pretouch_next g) n claimed) =
    match claimed with
    | Some page => touch_page (set_alloc_pretouch_next g n) page
    | None => set_alloc_pretouch_next g n
    end.
Proof.
  unfold pretouch_commit, Atomic_cmpxchg. rewrite Z.eqb_refl.
  destruct claimed; reflexivity.
Qed.

(** C8, as the code has it.  With a stride of 512 words and a limit of 2048
    words, and the pretouch pointer below the end of the space: a 64-word
    allocation that starts 600 words behind the pointer ends 536 words
    behind it, inside the limit, so the call touches the page at the
    pointer and advances the pointer by one stride (up to the end).  In
    general a 64-word allocation that ends [b] words behind the pointer
    does so whenever [b <= 2048], the limit itself included, and leaves
    the generation untouched when [b > 2048]: the call returns without
    advancing exactly when the allocation ends more than 2048 words behind
    the pointer.  When the allocation ends past the pointer, the call
    touches the page at that end rounded up to the stride and the pointer
    becomes one stride past it (up to the end of the space); when the
    allocation reaches into the last page the pointer becomes the end of
    the space and nothing is touched. *)
Theorem pretouch_scenario (g : PSOldGen) :
  alloc_pretouch_stride_words g = 512 ->
  alloc_pretouch_limit_words g = 2048 ->
  end_wf g ->
  0 <= alloc_pretouch_next g < ms_end (object_space g) ->
  let c := alloc_pretouch_next g in
  let e := ms_end (object_space g) in
  let call alloc := pretouch_during_allocation g alloc 64 in
  let advanced next page := touch_page (set_alloc_pretouch_next g next) page in
  (8 * 600 <= c ->
   call (c - 8 * 600) = advanced (Z.min (c + 8 * 512) e) c /\
   c < alloc_pretouch_next (call (c - 8 * 600))) /\
  (forall b, 0 <= b -> 8 * (b + 64) <= c ->
     (b <= 2048 -> call (c - 8 * (b + 64)) = advanced (Z.min (c + 8 * 512) e) c) /\
     (2048 < b -> call (c - 8 * (b + 64)) = g) /\
     (alloc_pretouch_next (call (c - 8 * (b + 64))) = c <-> 2048 < b)) /\
  (forall alloc, 0 <= alloc -> c < alloc + 8 * 64 ->
     alloc + 8 * 64 <= align_down (e - 8) 4096 ->
     let page := align_up (alloc + 8 * 64) 4096 in
     call alloc = advanced (Z.min (page + 8 * 512) e) page /\
     alloc + 8 * 64 <= page < alloc_pretouch_next (call alloc)) /\
  (forall alloc, 0 <= alloc -> c < alloc + 8 * 64 < word_modulus ->
     align_down (e - 8) 4096 < alloc + 8 * 64 ->
     call alloc = set_alloc_pretouch_next g e).
Proof.
  intros Hst Hli He Hc c e call advanced. subst call advanced. cbv beta.
  unfold end_wf in He. fold e in He. fold c e in Hc.
  assert (Hwm : word_modulus = 18446744073709551616) by reflexivity.
  assert (Hplan : forall alloc,
             pretouch_during_allocation g alloc 64 =
             pretouch_commit g (pretouch_plan 512 2048 c e alloc 64)).
  { intros alloc. rewrite pretouch_during_allocation_plan by lia.
    rewrite Hst, Hli. reflexivity. }
  assert (Hge : (c >=? e) = false) by (rewrite Z.geb_leb; apply Z.leb_gt; lia).
  assert (Hsa : wrap (512 * HeapWordSize) = 4096) by reflexivity.
  assert (Hna : forall alloc, 0 <= alloc -> alloc + 8 * 64 < word_modulus ->
                  ptr_add alloc 64 = alloc + 8 * 64).
  { intros alloc H0 H1. unfold ptr_add, HeapWordSize.
    apply wrap_small. unfold in_word. lia. }
  assert (Hsub : ptr_sub e 1 = e - 8).
  { unfold ptr_sub, HeapWordSize in *. rewrite wrap_small; unfold in_word; lia. }
  assert (Hin : in_word (e - 8)) by (unfold in_word, HeapWordSize in *; lia).
  destruct (align_down_bounds (e - 8) 4096 Hin eq_refl ltac:(lia)) as (Hdb & Hdm & Hd0).
  assert (Hcur : forall n page,
             alloc_pretouch_next (touch_page (set_alloc_pretouch_next g n) page) = n)
    by reflexivity.
  assert (Hbehind : forall b, 0 <= b -> 8 * (b + 64) <= c ->
             pretouch_during_allocation g (c - 8 * (b + 64)) 64 =
             if b >? 2048 then g
             else touch_page (set_alloc_pretouch_next g (Z.min (c + 8 * 512) e)) c).
  { intros b Hb Hbc. rewrite Hplan. unfold pretouch_plan.
    rewrite Hge, Hsa, Hna by lia.
    replace (c - 8 * (b + 64) + 8 * 64 >? c) with false
      by (symmetry; rewrite Z.gtb_ltb; apply Z.ltb_ge; lia).
    rewrite pointer_delta_exact by lia.
    replace (c - (c - 8 * (b + 64) + 8 * 64)) with (b * 8) by lia.
    unfold HeapWordSize. rewrite Z.div_mul by lia.
    destruct (b >? 2048); [reflexivity|].
    rewrite pretouch_next_spec by lia.
    subst c. rewrite pretouch_commit_own. unfold HeapWordSize.
    replace (alloc_pretouch_next g + 512 * 8) with (alloc_pretouch_next g + 8 * 512) by lia.
    reflexivity. }
  split; [|split; [|split]].
  - intros Hfar.
    pose proof (Hbehind 536 ltac:(lia) ltac:(lia)) as H.
    replace (c - 8 * (536 + 64)) with (c - 8 * 600) in H by lia.
    change (536 >? 2048) with false in H. cbv iota in H.
    rewrite H, Hcur. split; [reflexivity | lia].
  - intros b Hb Hbc. rewrite (Hbehind b Hb Hbc).
    destruct (Z.gtb_spec b 2048) as [Hfar | Hnear].
    + split; [intros; lia|]. split; [reflexivity|].
      split; [intros _; exact Hfar | reflexivity].
    + split; [reflexivity|]. split; [intros; lia|].
      rewrite Hcur. split; intros; lia.
  - intros alloc H0 Hpast Hroom. cbv zeta. rewrite Hplan. unfold pretouch_plan.
    rewrite Hge, Hsa, Hsub, Hna by lia.
    replace (alloc + 8 * 64 >? c) with true by (symmetry; apply Z.gtb_lt; lia).
    replace (alloc + 8 * 64 >? align_down (e - 8) 4096) with false
      by (symmetry; rewrite Z.gtb_ltb; apply Z.ltb_ge; lia).
    assert (Hal : in_word (alloc + 8 * 64)) by (unfold in_word; lia).
    assert (HD : in_word (align_down (e - 8) 4096)) by (unfold in_word in *; lia).
    pose proof (multiple_room _ 4096 eq_refl ltac:(lia) HD Hdm) as Hrm.
    pose proof (align_up_le_multiple _ 4096 _ Hal eq_refl ltac:(lia) Hroom Hdm Hrm) as Hup.
    pose proof (align_up_bounds _ 4096 Hal eq_refl ltac:(lia) ltac:(lia)) as [Hub _].
    rewrite pretouch_next_spec by lia.
    subst c. rewrite pretouch_commit_own. unfold HeapWordSize.
    replace (align_up (alloc + 8 * 64) 4096 + 512 * 8)
      with (align_up (alloc + 8 * 64) 4096 + 8 * 512) by lia.
    rewrite Hcur. split; [reflexivity | lia].
  - intros alloc H0 Hpast Hlast. rewrite Hplan. unfold pretouch_plan.
    rewrite Hge, Hsa, Hsub, Hna by lia.
    replace (alloc + 8 * 64 >? c) with true by (symmetry; apply Z.gtb_lt; lia).
    replace (alloc + 8 * 64 >? align_down (e - 8) 4096) with true
      by (symmetry; apply Z.gtb_lt; lia).
    subst c. rewrite pretouch_commit_own. reflexivity.
Qed.

Lemma pretouch_scenario_witness :
  pretouch_during_allocation gen_touch (alloc_pretouch_next gen_touch - 8 * 600) 64
  = touch_page
      (set_alloc_pretouch_next gen_touch
         (Z.min (alloc_pretouch_next gen_touch + 8 * 512)
                (ms_end (object_space gen_touch))))
      (alloc_pretouch_next gen_touch).
Proof.
  destruct (pretouch_scenario gen_touch eq_refl eq_refl (proj2 gen_touch_pretouch_wf))
    as (H & _).
  - vm_compute. split; [discriminate | reflexivity].
  - apply H. vm_compute. discriminate.
Defined.

(** C8 as stated fails: the 64-word allocation 600 words behind the
    pretouch pointer does advance it, by one stride, and touches the page
    the pointer was at. *)
Lemma pretouch_600_words_behind_advances :
  let c := alloc_pretouch_next gen_touch in
  let g' := pretouch_during_allocation gen_touch (c - 8 * 600) 64 in
  alloc_pretouch_stride_words gen_touch = 512 /\
  alloc_pretouch_limit_words gen_touch = 2048 /\
  alloc_pretouch_next g' = c + 8 * 512 /\
  alloc_pretouch_next g' <> c /\
  touched g' = [c].
Proof. vm_compute. repeat split; (reflexivity || discriminate). Qed.

(** *** The pretouch pointer across resizes *)

Lemma post_resize_cursor (env : Env) (g : PSOldGen) :
  alloc_pretouch_next (post_resize env g) =
    if is_VM_thread env then
      if AlwaysPreTouch env then high (virtual_space g)
      else Z.min (high (virtual_space g)) (alloc_pretouch_next g)
    else alloc_pretouch_next g.
Proof.
  pose proof (post_resize_states_eq env g) as H. cbv zeta in H. destruct H as [_ ->].
  unfold update_alloc_pretouch.
  destruct (is_VM_thread env); [|reflexivity].
  destruct (AlwaysPreTouch env); simpl; [reflexivity|]. apply MIN2_min.
Qed.

Lemma post_resize_end (env : Env) (g : PSOldGen) :
  ms_end (object_space (post_resize env g)) = high (virtual_space g) /\
  ms_bottom (object_space (post_resize env g)) = low (virtual_space g) /\
  ms_top (object_space (post_resize env g)) = ms_top (object_space g).
Proof.
  pose proof (post_resize_frame env g) as H. cbv zeta in H.
  destruct H as (_ & _ & _ & -> & _). simpl. auto.
Qed.

Lemma vs_expand_by_spec (env : Env) (vs : PSVirtualSpace) (bytes : Z) :
  vs_wf vs -> 0 <= bytes ->
  let r := vs_expand_by env vs bytes in
  (fst r = false -> snd r = vs) /\
  (fst r = true ->
     bytes <= uncommitted_size vs /\
     snd r = mkVS (vs_alignment vs) (reserved_low_addr vs) (reserved_high_addr vs)
                  (committed_high_addr vs + bytes)).
Proof.
  intros Hwf Hb. destruct (vs_sizes vs Hwf) as (_ & _ & Hu).
  pose proof Hwf as (_ & _ & H0 & H1 & H2 & H3 & _).
  unfold vs_expand_by.
  destruct (Z.ltb_spec (uncommitted_size vs) bytes) as [Hlt | Hge]; simpl.
  - split; [reflexivity | discriminate].
  - destruct (commit_memory env (committed_high_addr vs) bytes); simpl.
    + split; [discriminate|]. intros _. split; [exact Hge|].
      rewrite wrap_small by (unfold in_word; lia). reflexivity.
    + split; [reflexivity | discriminate].
Qed.

Lemma expand_by_cursor (env : Env) (g : PSOldGen) (bytes : Z) :
  gen_wf g -> 0 <= bytes ->
  alloc_pretouch_next g <= ms_end (object_space g) ->
  let g' := snd (expand_by env g bytes) in
  alloc_pretouch_next g <= alloc_pretouch_next g' /\
  alloc_pretouch_next g' <= ms_end (object_space g').
Proof.
  intros (Hwf & Hbot & Hend) Hb Hc. cbv zeta.
  pose proof (vs_expand_by_spec env _ bytes Hwf Hb) as Hvs. cbv zeta in Hvs.
  destruct Hvs as [Hfail Hok].
  destruct (fst (vs_expand_by env (virtual_space g) bytes)) eqn:E.
  - destruct (Hok eq_refl) as [Hle Hvs']. clear Hfail Hok.
    unfold expand_by.
    destruct (vs_expand_by env (virtual_space g) bytes) as [r vs'].
    simpl in E, Hvs'. subst r vs'.
    set (g1 := if ZapUnusedHeapArea env then _ else _).
    assert (Hg1 : virtual_space g1 =
                    mkVS (vs_alignment (virtual_space g))
                         (reserved_low_addr (virtual_space g))
                         (reserved_high_addr (virtual_space g))
                         (committed_high_addr (virtual_space g) + bytes)
                  /\ alloc_pretouch_next g1 = alloc_pretouch_next g).
    { subst g1. destruct (ZapUnusedHeapArea env); simpl; auto. }
    destruct Hg1 as (Hv1 & Hc1).
    pose proof (post_resize_cursor env g1) as Hpc.
    destruct (post_resize_end env g1) as (Hpe & _).
    rewrite Hv1 in Hpc, Hpe. unfold high in Hpc, Hpe, Hend. simpl in Hpc, Hpe.
    rewrite Hc1 in Hpc.
    assert (Hres : alloc_pretouch_next g <= alloc_pretouch_next (post_resize env g1) /\
                   alloc_pretouch_next (post_resize env g1)
                     <= ms_end (object_space (post_resize env g1))).
    { rewrite Hpc, Hpe.
      destruct (is_VM_thread env); [destruct (AlwaysPreTouch env)|]; lia. }
    destruct (UsePerfData env); simpl; exact Hres.
  - rewrite expand_by_refused by exact E. simpl. lia.
Qed.

Lemma shrink_cursor (env : Env) (g : PSOldGen) (bytes : Z) :
  is_VM_thread env = true ->
  alloc_pretouch_next g <= ms_end (object_space g) ->
  let g' := shrink env g bytes in
  alloc_pretouch_next g' <= ms_end (object_space g') /\
  (AlwaysPreTouch env = false ->
   alloc_pretouch_next g' = Z.min (alloc_pretouch_next g) (ms_end (object_space g'))).
Proof.
  intros Hvm Hc. cbv zeta. rewrite shrink_spec.
  destruct (align_down bytes (vs_alignment (virtual_space g)) >? 0).
  - rewrite post_resize_cursor, Hvm.
    destruct (post_resize_end env
                (set_virtual_space g (vs_shrink_by (virtual_space g) bytes))) as (-> & _).
    simpl. destruct (AlwaysPreTouch env); split; try discriminate; try lia.
  - split; lia.
Qed.

(** C7, as the code has it.  The pretouch pointer does not move backward
    across [pretouch_during_allocation] calls nor across expansions, and
    stays within the end of the space there.  On the VM thread
    [post_resize] stores the new end when [AlwaysPreTouch] is set and
    otherwise the smaller of the new end and the old pointer, so a shrink
    to below the pointer moves it backward to the new end; off the VM
    thread [post_resize] leaves it alone.  The pointer is at or above the
    bottom only once it holds: calls and resizes preserve it. *)
Theorem pretouch_cursor_lifetime (env : Env) (g : PSOldGen) :
  pretouch_wf g -> end_wf g -> 0 <= alloc_pretouch_next g ->
  alloc_pretouch_next g <= ms_end (object_space g) ->
  (forall alloc alloc_size,
     let g' := pretouch_during_allocation g alloc alloc_size in
     alloc_pretouch_next g <= alloc_pretouch_next g' /\
     alloc_pretouch_next g' <= ms_end (object_space g') /\
     (ms_bottom (object_space g) <= alloc_pretouch_next g ->
      ms_bottom (object_space g') <= alloc_pretouch_next g')) /\
  (forall bytes, gen_wf g -> 0 <= bytes ->
     let g' := snd (expand_by env g bytes) in
     alloc_pretouch_next g <= alloc_pretouch_next g' /\
     alloc_pretouch_next g' <= ms_end (object_space g')) /\
  (forall bytes, is_VM_thread env = true ->
     let g' := shrink env g bytes in
     alloc_pretouch_next g' <= ms_end (object_space g') /\
     (AlwaysPreTouch env = false ->
      alloc_pretouch_next g' = Z.min (alloc_pretouch_next g) (ms_end (object_space g')))) /\
  (let g' := post_resize env g in
   let new_end := high (virtual_space g) in
   ms_end (object_space g') = new_end /\
   (is_VM_thread env = false -> alloc_pretouch_next g' = alloc_pretouch_next g) /\
   (is_VM_thread env = true ->
      alloc_pretouch_next g' =
        (if AlwaysPreTouch env then new_end
         else Z.min new_end (alloc_pretouch_next g)) /\
      alloc_pretouch_next g' <= ms_end (object_space g') /\
      (alloc_pretouch_next g <= new_end ->
       alloc_pretouch_next g <= alloc_pretouch_next g') /\
      (new_end < alloc_pretouch_next g -> alloc_pretouch_next g' = new_end)) /\
   (low (virtual_space g) <= new_end ->
    low (virtual_space g) <= alloc_pretouch_next g ->
    ms_bottom (object_space g') <= alloc_pretouch_next g')).
Proof.
  intros Hw He H0 Hc. split; [|split; [|split]].
  - intros alloc alloc_size.
    pose proof (pretouch_during_allocation_monotone g alloc alloc_size Hw He H0) as H.
    cbv zeta in *. destruct H as (Hos & Hm & Hb). rewrite Hos in *.
    split; [exact Hm|]. split; [apply Hb; exact Hc | lia].
  - intros bytes Hwf Hb. apply expand_by_cursor; assumption.
  - intros bytes Hvm. apply shrink_cursor; assumption.
  - cbv zeta. destruct (post_resize_end env g) as (Hpe & Hpb & _).
    pose proof (post_resize_cursor env g) as Hpc.
    rewrite Hpe, Hpb, Hpc.
    split; [reflexivity|].
    destruct (is_VM_thread env); [destruct (AlwaysPreTouch env)|];
      repeat split; intros; try discriminate; try lia.
Qed.

Lemma gen_collected_wf :
  pretouch_wf gen_collected /\ end_wf gen_collected /\ gen_wf gen_collected.
Proof.
  unfold pretouch_wf, end_wf, gen_wf, vs_wf. vm_compute.
  repeat split; (reflexivity || discriminate).
Qed.

Lemma pretouch_cursor_lifetime_witness :
  alloc_pretouch_next (shrink env0 gen_collected (8 * M))
    = Z.min (alloc_pretouch_next gen_collected)
            (ms_end (object_space (shrink env0 gen_collected (8 * M)))) /\
  alloc_pretouch_next gen_collected
    <= alloc_pretouch_next (snd (expand_by env0 gen_collected M)).
Proof.
  destruct gen_collected_wf as (Hw & He & Hg).
  destruct (pretouch_cursor_lifetime env0 gen_collected Hw He) as (_ & Hx & Hs & _).
  - vm_compute. discriminate.
  - vm_compute. discriminate.
  - split.
    + apply (Hs (8 * M) eq_refl). reflexivity.
    + apply (Hx M Hg). vm_compute. discriminate.
Defined.

(** C7 as stated fails twice.  A resize that shrinks the generation to
    below the pretouch pointer moves the pointer backward; and a freshly
    built generation has the pointer at [NULL], below its bottom. *)
Lemma pretouch_cursor_moves_backward_on_shrink :
  alloc_pretouch_next gen_collected = gen_base + 16 * M /\
  alloc_pretouch_next (resize env0 gen_collected M) = gen_base + 8 * M /\
  alloc_pretouch_next (resize env0 gen_collected M) < alloc_pretouch_next gen_collected /\
  alloc_pretouch_next gen_fresh = 0 /\
  ~ (ms_bottom (object_space gen_fresh) <= alloc_pretouch_next gen_fresh).
Proof. vm_compute. repeat split; (reflexivity || discriminate || (intros H; apply H; reflexivity)). Qed.

(** ** Bounds of the committed size *)

Lemma pow2_mod_word (a : Z) :
  is_power_of_2 a = true -> HeapWordSize <= a -> a mod HeapWordSize = 0.
Proof.
  intros Hp Ha. destruct (is_power_of_2_spec a Hp) as (Hpos & He & Hk).
  unfold HeapWordSize in *.
  assert (Hk3 : 3 <= Z.log2 a).
  { change 3 with (Z.log2 8). apply Z.log2_le_mono. exact Ha. }
  rewrite He. replace (Z.log2 a) with (3 + (Z.log2 a - 3)) by lia.
  rewrite Z.pow_add_r by lia. change (2 ^ 3) with 8.
  rewrite Z.mul_comm. apply Z.mod_mul. lia.
Qed.

Lemma mod0_add (x y a : Z) : 0 < a -> x mod a = 0 -> y mod a = 0 -> (x + y) mod a = 0.
Proof.
  intros Ha Hx Hy. apply Z.mod_divide in Hx; [|lia]. apply Z.mod_divide in Hy; [|lia].
  apply Z.mod_divide; [lia|]. apply Z.divide_add_r; assumption.
Qed.

Lemma mod0_sub (x y a : Z) : 0 < a -> x mod a = 0 -> y mod a = 0 -> (x - y) mod a = 0.
Proof.
  intros Ha Hx Hy. apply Z.mod_divide in Hx; [|lia]. apply Z.mod_divide in Hy; [|lia].
  apply Z.mod_divide; [lia|]. apply Z.divide_sub_r; assumption.
Qed.

Lemma mod0_trans (x a b : Z) : 0 < a -> 0 < b -> x mod a = 0 -> a mod b = 0 -> x mod b = 0.
Proof.
  intros Ha Hb Hx Hab. apply Z.mod_divide in Hx; [|lia]. apply Z.mod_divide in Hab; [|lia].
  apply Z.mod_divide; [lia|]. eapply Z.divide_trans; eassumption.
Qed.

(** A product with the alignment stays a multiple of it when it wraps. *)
Lemma wrap_multiple (a n : Z) :
  is_power_of_2 a = true -> a < word_modulus -> wrap (a * n) mod a = 0.
Proof.
  intros Hp Ha. destruct (pow2_in_word a Hp Ha) as (k & Hk & ->).
  assert (Hpos : 0 < 2 ^ k) by (apply Z.pow_pos_nonneg; lia).
  unfold wrap. rewrite Z.mod_mod_divide.
  - rewrite Z.mul_comm. apply Z.mod_mul. lia.
  - exists (2 ^ (word_bits - k)). unfold word_modulus.
    rewrite <- Z.pow_add_r by lia. f_equal. lia.
Qed.

Lemma same_config_refl (g : PSOldGen) : same_config g g.
Proof. repeat split. Qed.

Lemma same_config_trans (g1 g2 g3 : PSOldGen) :
  same_config g1 g2 -> same_config g2 g3 -> same_config g1 g3.
Proof.
  intros (A1 & A2 & A3 & A4 & A5) (B1 & B2 & B3 & B4 & B5).
  repeat split; congruence.
Qed.

(** The capacity of the object space is the committed size. *)
Lemma capacity_in_bytes_committed (g : PSOldGen) :
  gen_wf g ->
  capacity_in_bytes g = committed_size (virtual_space g) /\
  committed_size (virtual_space g)
    = committed_high_addr (virtual_space g) - reserved_low_addr (virtual_space g) /\
  committed_size (virtual_space g) mod vs_alignment (virtual_space g) = 0.
Proof.
  intros (Hwf & Hb & He). destruct (vs_sizes _ Hwf) as (_ & Hc & _).
  pose proof Hwf as (Hp & Ha & H0 & H1 & H2 & H3 & Hm0 & Hm1 & Hm2).
  destruct (is_power_of_2_spec _ Hp) as (Hpos & _ & _).
  assert (Hma : (committed_high_addr (virtual_space g)
                 - reserved_low_addr (virtual_space g)) mod vs_alignment (virtual_space g) = 0)
    by (apply mod0_sub; assumption).
  split; [|split; [exact Hc | rewrite Hc; exact Hma]].
  unfold capacity_in_bytes, ms_capacity_in_bytes, ms_capacity_in_words.
  rewrite Hb, He. unfold low, high.
  rewrite pointer_delta_exact by lia. rewrite Hc.
  pose proof (pow2_mod_word _ Hp (proj1 Ha)) as H8.
  pose proof (mod0_trans _ _ HeapWordSize Hpos eq_refl Hma H8) as Hw.
  unfold HeapWordSize in *.
  pose proof (Z.div_mod (committed_high_addr (virtual_space g)
                         - reserved_low_addr (virtual_space g)) 8 ltac:(lia)) as Hdm.
  rewrite Hw in Hdm.
  rewrite wrap_small; unfold in_word; lia.
Qed.

(** A granted or refused [expand_by] by a multiple of the alignment keeps
    the generation well formed and does not lower the committed size. *)
Lemma expand_by_wf (env : Env) (g : PSOldGen) (bytes : Z) :
  gen_wf g -> 0 <= bytes -> bytes mod vs_alignment (virtual_space g) = 0 ->
  let g' := snd (expand_by env g bytes) in
  gen_wf g' /\ same_config g g' /\
  committed_high_addr (virtual_space g) <= committed_high_addr (virtual_space g').
Proof.
  intros Hg Hb Hm. cbv zeta. pose proof Hg as (Hwf & Hbot & Hend).
  pose proof (vs_expand_by_spec env _ bytes Hwf Hb) as Hvs. cbv zeta in Hvs.
  destruct Hvs as [_ Hok].
  destruct (fst (vs_expand_by env (virtual_space g) bytes)) eqn:E.
  - destruct (Hok eq_refl) as [Hle Hvs']. clear Hok.
    destruct (expand_by_success env g bytes E) as (_ & Hv & Hmin & Hmax & Hos).
    rewrite Hvs' in Hv, Hos.
    destruct (vs_sizes _ Hwf) as (_ & _ & Hu).
    pose proof Hwf as (Hp & Ha & H0 & H1 & H2 & H3 & Hm0 & Hm1 & Hm2).
    destruct (is_power_of_2_spec _ Hp) as (Hpos & _ & _).
    split; [|split].
    + unfold gen_wf, vs_wf. rewrite Hv, Hos. simpl.
      repeat split; try assumption; try lia.
      apply mod0_add; assumption.
    + unfold same_config. rewrite Hv, Hmin, Hmax. simpl. repeat split.
    + rewrite Hv. simpl. lia.
  - rewrite expand_by_refused by exact E. simpl.
    split; [exact Hg|]. split; [apply same_config_refl | lia].
Qed.

Lemma expand_to_reserved_wf (env : Env) (g : PSOldGen) :
  gen_wf g ->
  let g' := snd (expand_to_reserved env g) in
  gen_wf g' /\ same_config g g' /\
  committed_high_addr (virtual_space g) <= committed_high_addr (virtual_space g').
Proof.
  intros Hg. cbv zeta. unfold expand_to_reserved.
  destruct (uncommitted_size (virtual_space g) >? 0) eqn:E.
  - pose proof Hg as (Hwf & _).
    destruct (vs_sizes _ Hwf) as (_ & _ & Hu).
    pose proof Hwf as (Hp & Ha & H0 & H1 & H2 & H3 & Hm0 & Hm1 & Hm2).
    destruct (is_power_of_2_spec _ Hp) as (Hpos & _ & _).
    apply expand_by_wf; [exact Hg | lia |].
    rewrite Hu. apply mod0_sub; assumption.
  - simpl. split; [exact Hg|]. split; [apply same_config_refl | lia].
Qed.

(** [expand] never lowers the committed size, never leaves the reserved
    region, and keeps everything aligned, whatever the request and whatever
    the operating system grants. *)
Lemma expand_wf (env : Env) (g : PSOldGen) (bytes : Z) :
  gen_wf g -> in_word bytes ->
  let g' := snd (expand env g bytes) in
  gen_wf g' /\ same_config g g' /\
  committed_high_addr (virtual_space g) <= committed_high_addr (virtual_space g').
Proof.
  intros Hg Hb. cbv zeta. unfold expand.
  pose proof Hg as (Hwf & _).
  pose proof Hwf as (Hp & Ha & _).
  destruct (is_power_of_2_spec _ Hp) as (Hpos & _ & _).
  set (a := vs_alignment (virtual_space g)) in *.
  set (floor0 := align_up (MinHeapDeltaBytes env) a).
  set (floor := if UseNUMA env then MAX2 floor0 (wrap (a * numa_get_groups_num env))
                else floor0).
  set (ab := if align_up bytes a =? 0 then align_down bytes a else align_up bytes a).
  assert (Hfloor : 0 <= floor /\ floor mod a = 0).
  { destruct (align_up_multiple (MinHeapDeltaBytes env) a Hp (proj2 Ha)) as (Hm & Hi).
    fold floor0 in Hm, Hi. subst floor.
    destruct (UseNUMA env); [|unfold in_word in Hi; lia].
    rewrite MAX2_max.
    pose proof (wrap_multiple a (numa_get_groups_num env) Hp (proj2 Ha)) as Hwm.
    pose proof (wrap_range (a * numa_get_groups_num env)) as Hwr.
    unfold in_word in *.
    destruct (Z.max_spec floor0 (wrap (a * numa_get_groups_num env))) as [[_ ->] | [_ ->]];
      split; (assumption || lia). }
  assert (Hab : 0 <= ab /\ ab mod a = 0).
  { subst ab. destruct (align_up bytes a =? 0).
    - destruct (align_down_multiple bytes a Hb Hp (proj2 Ha)) as (Hm & Hi).
      unfold in_word in Hi. split; [lia | exact Hm].
    - destruct (align_up_multiple bytes a Hp (proj2 Ha)) as (Hm & Hi).
      unfold in_word in Hi. split; [lia | exact Hm]. }
  (* first attempt: the minimum increment *)
  assert (H1 : exists s1 g1,
             (if floor >? ab then expand_by env g floor else (false, g)) = (s1, g1) /\
             gen_wf g1 /\ same_config g g1 /\
             committed_high_addr (virtual_space g)
               <= committed_high_addr (virtual_space g1)).
  { destruct (floor >? ab).
    - pose proof (expand_by_wf env g floor Hg (proj1 Hfloor) (proj2 Hfloor)) as H.
      cbv zeta in H. destruct (expand_by env g floor) as [s1 g1]. eauto.
    - exists false, g. split; [reflexivity|]. split; [exact Hg|].
      split; [apply same_config_refl | lia]. }
  destruct H1 as (s1 & g1 & -> & Hg1 & Hc1 & Hh1).
  (* second attempt: the requested amount *)
  assert (H2 : exists s2 g2,
             (if negb s1 then expand_by env g1 ab else (s1, g1)) = (s2, g2) /\
             gen_wf g2 /\ same_config g g2 /\
             committed_high_addr (virtual_space g)
               <= committed_high_addr (virtual_space g2)).
  { destruct (negb s1).
    - assert (Hm : ab mod vs_alignment (virtual_space g1) = 0).
      { destruct Hc1 as (_ & _ & -> & _). apply Hab. }
      pose proof (expand_by_wf env g1 ab Hg1 (proj1 Hab) Hm) as H.
      cbv zeta in H. destruct (expand_by env g1 ab) as [s2 g2].
      destruct H as (Hw2 & Hs2 & Hh2). exists s2, g2.
      split; [reflexivity|]. split; [exact Hw2|].
      split; [eapply same_config_trans; eassumption | simpl in Hh2; lia].
    - exists s1, g1. auto. }
  destruct H2 as (s2 & g2 & -> & Hg2 & Hc2 & Hh2).
  (* last attempt: everything that is left *)
  destruct (negb s2).
  - pose proof (expand_to_reserved_wf env g2 Hg2) as H. cbv zeta in H.
    destruct (expand_to_reserved env g2) as [s3 g3]. simpl in *.
    destruct H as (Hw3 & Hs3 & Hh3).
    split; [exact Hw3|]. split; [eapply same_config_trans; eassumption | lia].
  - simpl. auto.
Qed.

(** The target size of [resize] lies within the bounds and is aligned, when
    the maximum size is the reserved size. *)
Lemma resize_new_size_bounds (g : PSOldGen) (desired_free_space : Z) :
  gen_wf g -> 0 <= min_gen_size g -> min_gen_size g <= max_gen_size g ->
  max_gen_size g = reserved_size (virtual_space g) ->
  min_gen_size g <= resize_new_size g desired_free_space <= max_gen_size g /\
  resize_new_size g desired_free_space mod vs_alignment (virtual_space g) = 0.
Proof.
  intros (Hwf & _) Hmin Hmm Hmax.
  destruct (vs_sizes _ Hwf) as (Hr & _ & _).
  pose proof Hwf as (Hp & Ha & H0 & H1 & H2 & H3 & Hm0 & Hm1 & Hm2).
  destruct (is_power_of_2_spec _ Hp) as (Hpos & _ & _).
  unfold resize_new_size.
  set (c := clamp _ _ _).
  pose proof (clamp_bounds (resize_desired_size g desired_free_space) _ _ Hmm) as Hc.
  fold c in Hc.
  assert (Hmaxm : max_gen_size g mod vs_alignment (virtual_space g) = 0)
    by (rewrite Hmax, Hr; apply mod0_sub; assumption).
  assert (Hmaxw : in_word (max_gen_size g)) by (unfold in_word; lia).
  pose proof (multiple_room _ _ Hp (proj2 Ha) Hmaxw Hmaxm) as Hroom.
  assert (Hcw : in_word c) by (unfold in_word in *; lia).
  pose proof (align_up_le_multiple c _ _ Hcw Hp (proj2 Ha) (proj2 Hc) Hmaxm Hroom) as Hle.
  destruct (align_up_bounds c _ Hcw Hp (proj2 Ha) ltac:(lia)) as (Hge & Hm).
  split; [lia | exact Hm].
Qed.

(** C2, as the code has it.  The code bounds the committed size by the
    reserved size only, and checks that the reserved size does not exceed
    [max_gen_size].  So for a well-formed generation with
    [0 <= min_size <= max_size], [max_size] equal to the reserved size and
    at least [min_size] committed, after [resize] with any
    [desired_free_space] and any outcome of the commits the committed size
    is within [[min_size, max_size]] and a multiple of the alignment; the
    aligned-up target is itself within the bounds, and a resize that does
    not grow lands exactly on it. *)
Theorem resize_keeps_bounds (env : Env) (g : PSOldGen) (desired_free_space : Z) :
  gen_wf g ->
  0 <= min_gen_size g -> min_gen_size g <= max_gen_size g ->
  max_gen_size g <= reserved_size (virtual_space g) ->
  reserved_size (virtual_space g) <= max_gen_size g ->
  min_gen_size g <= committed_size (virtual_space g) ->
  let g' := resize env g desired_free_space in
  let new_size := resize_new_size g desired_free_space in
  min_gen_size g <= committed_size (virtual_space g') <= max_gen_size g /\
  committed_size (virtual_space g') mod vs_alignment (virtual_space g') = 0 /\
  min_gen_size g <= new_size <= max_gen_size g /\
  new_size mod vs_alignment (virtual_space g) = 0 /\
  (new_size <= committed_size (virtual_space g) ->
   committed_size (virtual_space g') = new_size) /\
  gen_wf g' /\ same_config g g'.
Proof.
  intros Hg Hmin Hmm Hmr Hrm Hmc. cbv zeta.
  assert (Hmax : max_gen_size g = reserved_size (virtual_space g)) by lia.
  destruct (resize_new_size_bounds g desired_free_space Hg Hmin Hmm Hmax) as (Hn & Hnm).
  destruct (capacity_in_bytes_committed g Hg) as (Hcap & Hcs & Hcm).
  pose proof Hg as (Hwf & Hbot & Hend).
  destruct (vs_sizes _ Hwf) as (Hr & _ & _).
  pose proof Hwf as (Hp & Ha & H0 & H1 & H2 & H3 & Hm0 & Hm1 & Hm2).
  destruct (is_power_of_2_spec _ Hp) as (Hpos & _ & _).
  set (n := resize_new_size g desired_free_space) in *.
  assert (Hkeep : forall g', gen_wf g' -> same_config g g' ->
            committed_high_addr (virtual_space g) <= committed_high_addr (virtual_space g') ->
            min_gen_size g <= committed_size (virtual_space g') <= max_gen_size g /\
            committed_size (virtual_space g') mod vs_alignment (virtual_space g') = 0).
  { intros g' Hg' (_ & _ & Hal & Hlo & Hhi) Hh.
    destruct (capacity_in_bytes_committed g' Hg') as (_ & Hcs' & Hcm').
    destruct Hg' as ((_ & _ & _ & _ & Hle' & _) & _).
    rewrite Hcs', Hlo in *. rewrite Hhi in Hle'. split; [lia | exact Hcm']. }
  unfold resize. fold n. rewrite Hcap.
  destruct (Z.eqb_spec n (committed_size (virtual_space g))) as [Heq | Hne].
  - (* no change requested *)
    destruct (Hkeep g Hg (same_config_refl g) (Z.le_refl _)) as (Hb & Hm).
    refine (conj Hb (conj Hm (conj Hn (conj Hnm (conj _ (conj Hg (same_config_refl g))))))).
    intros _. symmetry. exact Heq.
  - rewrite Z.gtb_ltb.
    destruct (Z.ltb_spec (committed_size (virtual_space g)) n) as [Hgrow | Hshrink].
    + (* expand *)
      pose proof (expand_wf env g (wrap (n - committed_size (virtual_space g))) Hg
                    (wrap_range _)) as H.
      cbv zeta in H. destruct H as (Hg' & Hc' & Hh').
      destruct (Hkeep _ Hg' Hc' Hh') as (Hb & Hm).
      refine (conj Hb (conj Hm (conj Hn (conj Hnm (conj _ (conj Hg' Hc')))))).
      intros Hle. exfalso. lia.
    + (* shrink *)
      set (change := wrap (committed_size (virtual_space g) - n)).
      assert (Hchange : change = committed_size (virtual_space g) - n).
      { subst change. apply wrap_small. unfold in_word. lia. }
      assert (Hchm : change mod vs_alignment (virtual_space g) = 0)
        by (rewrite Hchange; apply mod0_sub; assumption).
      assert (Hchw : in_word change) by (unfold in_word; lia).
      rewrite shrink_spec.
      rewrite (align_down_aligned change _ Hchw Hp (proj2 Ha) Hchm).
      replace (change >? 0) with true by (symmetry; apply Z.gtb_lt; lia).
      set (vs' := vs_shrink_by (virtual_space g) change).
      assert (Hvs' : vs' = mkVS (vs_alignment (virtual_space g))
                                (reserved_low_addr (virtual_space g))
                                (reserved_high_addr (virtual_space g))
                                (reserved_low_addr (virtual_space g) + n)).
      { subst vs'. unfold vs_shrink_by.
        replace (committed_size (virtual_space g) <? change) with false
          by (symmetry; apply Z.ltb_ge; lia).
        rewrite wrap_small by (unfold in_word; lia).
        f_equal. lia. }
      pose proof (post_resize_frame env (set_virtual_space g vs')) as Hf.
      cbv zeta in Hf. destruct Hf as (Hv & Hmin' & Hmax' & Hos & _).
      simpl in Hv, Hmin', Hmax', Hos. unfold new_memregion in Hos. simpl in Hos.
      set (g' := post_resize env (set_virtual_space g vs')) in *.
      assert (Hwf' : vs_wf (virtual_space g')).
      { rewrite Hv, Hvs'. unfold vs_wf. simpl.
        repeat split; try assumption; try lia. apply mod0_add; assumption. }
      assert (Hg' : gen_wf g').
      { split; [exact Hwf'|]. rewrite Hos, Hv. simpl. auto. }
      assert (Hcs' : committed_size (virtual_space g') = n).
      { destruct (vs_sizes _ Hwf') as (_ & -> & _). rewrite Hv, Hvs'. simpl. lia. }
      assert (Hc' : same_config g g').
      { unfold same_config. rewrite Hv, Hvs', Hmin', Hmax'. simpl. repeat split. }
      rewrite Hcs'.
      refine (conj Hn (conj _ (conj Hn (conj Hnm (conj _ (conj Hg' Hc')))))).
      * rewrite Hv, Hvs'. simpl. exact Hnm.
      * intros _. reflexivity.
Qed.

Lemma resize_keeps_bounds_witness :
  8 * M <= committed_size (virtual_space (resize env0 gen0 (20 * M))) <= 64 * M /\
  committed_size (virtual_space (resize env0 gen0 (20 * M))) mod M = 0.
Proof.
  destruct (resize_keeps_bounds env0 gen0 (20 * M) gen0_wf) as (H1 & H2 & _).
  - vm_compute. discriminate.
  - vm_compute. discriminate.
  - vm_compute. discriminate.
  - vm_compute. discriminate.
  - vm_compute. discriminate.
  - split; [exact H1 | exact H2].
Defined.

(** C2 as stated fails for a maximum size below the reserved size.  With
    32 MiB maximum in a 64 MiB reservation and a 24 MiB minimum increment,
    [resize] to a 22 MiB target commits 40 MiB; with a maximum that is not
    a multiple of the alignment the aligned-up target itself exceeds it. *)
Lemma resize_exceeds_max_below_reserved :
  (min_gen_size gen_low_max <= max_gen_size gen_low_max /\
   max_gen_size gen_low_max <= reserved_size (virtual_space gen_low_max) /\
   min_gen_size gen_low_max <= committed_size (virtual_space gen_low_max)
     <= max_gen_size gen_low_max /\
   resize_new_size gen_low_max (12 * M) = 22 * M /\
   committed_size (virtual_space (resize env_big_delta gen_low_max (12 * M))) = 40 * M /\
   ~ (committed_size (virtual_space (resize env_big_delta gen_low_max (12 * M)))
        <= max_gen_size gen_low_max)) /\
  (min_gen_size gen_odd_max <= max_gen_size gen_odd_max /\
   max_gen_size gen_odd_max <= reserved_size (virtual_space gen_odd_max) /\
   resize_new_size gen_odd_max (30 * M) = 33 * M /\
   committed_size (virtual_space (resize env0 gen_odd_max (30 * M))) = 33 * M /\
   ~ (committed_size (virtual_space (resize env0 gen_odd_max (30 * M)))
        <= max_gen_size gen_odd_max)).
Proof.
  vm_compute.
  repeat split; (reflexivity || discriminate || (intros H; apply H; reflexivity)).
Qed.

(** ** Block iteration *)

Lemma total_words_nil : total_words [] = 0.
Proof. reflexivity. Qed.

Lemma total_words_cons (s : Z) (rest : list Z) :
  total_words (s :: rest) = s + total_words rest.
Proof. reflexivity. Qed.

Lemma total_words_app (l1 l2 : list Z) :
  total_words (l1 ++ l2) = total_words l1 + total_words l2.
Proof.
  induction l1 as [| s r IH]; [reflexivity|].
  rewrite <- app_comm_cons, !total_words_cons, IH. lia.
Qed.

Lemma total_words_nonneg (sizes : list Z) :
  forallb (fun s => 0 <? s) sizes = true -> 0 <= total_words sizes.
Proof.
  induction sizes as [| s r IH]; [intros _; cbv; discriminate|].
  cbn [forallb]. intros H. apply andb_true_iff in H. destruct H as [Hs Hr].
  apply Z.ltb_lt in Hs. specialize (IH Hr). rewrite total_words_cons. lia.
Qed.

Lemma layout_ok_cons (p s : Z) (rest : list Z) :
  layout_ok p (s :: rest) ->
  0 < s /\ ptr_add p s = p + HeapWordSize * s /\ layout_ok (p + HeapWordSize * s) rest.
Proof.
  intros (Hp & Hf & Hw). cbn [forallb] in Hf. rewrite total_words_cons in Hw.
  apply andb_true_iff in Hf. destruct Hf as [Hs Hr]. apply Z.ltb_lt in Hs.
  pose proof (total_words_nonneg rest Hr) as Ht.
  unfold layout_ok, ptr_add, HeapWordSize in *.
  split; [exact Hs|]. split.
  - apply wrap_small. unfold in_word. lia.
  - repeat split; try assumption; lia.
Qed.

Lemma layout_ok_app (p : Z) (pre suf : list Z) :
  layout_ok p (pre ++ suf) ->
  layout_ok p pre /\ layout_ok (p + HeapWordSize * total_words pre) suf.
Proof.
  intros (Hp & Hf & Hw). rewrite forallb_app in Hf.
  apply andb_true_iff in Hf. destruct Hf as [Hf1 Hf2].
  rewrite total_words_app in Hw.
  pose proof (total_words_nonneg pre Hf1). pose proof (total_words_nonneg suf Hf2).
  unfold layout_ok, HeapWordSize in *.
  split; repeat split; try assumption; lia.
Qed.

(** Every object starts inside the space. *)
Lemma object_addresses_bounds (p : Z) (sizes : list Z) :
  layout_ok p sizes ->
  forall a, In a (object_addresses p sizes) ->
            p <= a < p + HeapWordSize * total_words sizes.
Proof.
  revert p. induction sizes as [| s r IH]; intros p Hok a Hin; [destruct Hin|].
  destruct (layout_ok_cons _ _ _ Hok) as (Hs & Hadd & Hok').
  pose proof Hok' as (_ & Hf & _). pose proof (total_words_nonneg r Hf) as Ht.
  cbn [object_addresses In] in Hin. rewrite Hadd in Hin. rewrite total_words_cons.
  destruct Hin as [<- | Hin].
  - unfold HeapWordSize. lia.
  - specialize (IH _ Hok' a Hin). unfold HeapWordSize in *. lia.
Qed.

Lemma object_addresses_app (p : Z) (pre suf : list Z) :
  layout_ok p (pre ++ suf) ->
  object_addresses p (pre ++ suf) =
    object_addresses p pre ++ object_addresses (p + HeapWordSize * total_words pre) suf.
Proof.
  revert p. induction pre as [| s r IH]; intros p Hok.
  - cbn [app object_addresses]. f_equal. rewrite total_words_nil. lia.
  - rewrite <- app_comm_cons in *.
    destruct (layout_ok_cons _ _ _ Hok) as (Hs & Hadd & Hok').
    cbn [object_addresses]. rewrite Hadd, (IH _ Hok'), total_words_cons.
    rewrite <- app_comm_cons. do 3 f_equal. unfold HeapWordSize. lia.
Qed.

(** No two objects start at the same address. *)
Lemma object_addresses_NoDup (p : Z) (sizes : list Z) :
  layout_ok p sizes -> NoDup (object_addresses p sizes).
Proof.
  revert p. induction sizes as [| s r IH]; intros p Hok; [constructor|].
  destruct (layout_ok_cons _ _ _ Hok) as (Hs & Hadd & Hok').
  cbn [object_addresses]. rewrite Hadd. constructor; [|apply IH; exact Hok'].
  intros Hin. apply (object_addresses_bounds _ _ Hok') in Hin.
  unfold HeapWordSize in *. lia.
Qed.

(** The object at the start of a suffix of the layout reports the size at
    the head of that suffix. *)
Lemma oop_size_at (bottom : Z) (pre : list Z) (s : Z) (suf : list Z) :
  layout_ok bottom (pre ++ s :: suf) ->
  oop_size bottom (pre ++ s :: suf) (bottom + HeapWordSize * total_words pre) = s.
Proof.
  revert bottom. induction pre as [| s0 r IH]; intros bottom Hok.
  - cbn [app oop_size].
    replace (bottom + HeapWordSize * total_words []) with bottom
      by (rewrite total_words_nil; lia).
    rewrite Z.eqb_refl. reflexivity.
  - rewrite <- app_comm_cons in *.
    destruct (layout_ok_cons _ _ _ Hok) as (Hs & Hadd & Hok').
    destruct (layout_ok_app _ _ _ Hok') as ((_ & Hf & _) & _).
    pose proof (total_words_nonneg r Hf) as Ht.
    cbn [oop_size]. rewrite Hadd, total_words_cons.
    replace (_ =? bottom) with false
      by (symmetry; apply Z.eqb_neq; unfold HeapWordSize in *; lia).
    rewrite <- (IH _ Hok') at 2. f_equal. unfold HeapWordSize. lia.
Qed.

(** [object_start] finds the object that contains an address inside the
    used part of the space. *)
Lemma object_start_contains (bottom : Z) (sizes : list Z) (addr : Z) :
  layout_ok bottom sizes ->
  bottom <= addr < bottom + HeapWordSize * total_words sizes ->
  exists pre s suf,
    sizes = pre ++ s :: suf /\
    object_start bottom sizes addr = bottom + HeapWordSize * total_words pre /\
    object_start bottom sizes addr <= addr
      < object_start bottom sizes addr + HeapWordSize * s.
Proof.
  revert bottom. induction sizes as [| s r IH]; intros bottom Hok Ha.
  - rewrite total_words_nil in Ha. lia.
  - destruct (layout_ok_cons _ _ _ Hok) as (Hs & Hadd & Hok').
    rewrite total_words_cons in Ha.
    cbn [object_start]. rewrite Hadd.
    destruct (Z.ltb_spec addr (bottom + HeapWordSize * s)) as [Hin | Hout].
    + exists [], s, r. split; [reflexivity|].
      rewrite total_words_nil. unfold HeapWordSize in *. lia.
    + assert (Ha' : bottom + HeapWordSize * s <= addr
                    < bottom + HeapWordSize * s + HeapWordSize * total_words r)
        by (unfold HeapWordSize in *; lia).
      destruct (IH _ Hok' Ha') as (pre & s' & suf & -> & Hst & Hb).
      exists (s :: pre), s', suf. split; [reflexivity|].
      split; [|exact Hb]. rewrite Hst, total_words_cons. unfold HeapWordSize. lia.
Qed.

Lemma filter_none {A : Type} (f : A -> bool) (l : list A) :
  (forall a, In a l -> f a = false) -> filter f l = [].
Proof.
  induction l as [| x r IH]; intros H; [reflexivity|].
  cbn [filter]. rewrite (H x (or_introl eq_refl)). apply IH.
  intros a Ha. apply H. right. exact Ha.
Qed.

Lemma existsb_false_filter {A : Type} (f : A -> bool) (l : list A) :
  existsb f l = false -> filter f l = [].
Proof.
  intros H. apply filter_none. intros a Ha.
  destruct (f a) eqn:E; [|reflexivity].
  assert (existsb f l = true) by (apply existsb_exists; eauto). congruence.
Qed.

Lemma iterate_objects_done (fuel : nat) (size_of : Z -> Z) (p end_ : Z) :
  end_ <= p -> iterate_objects fuel size_of p end_ = Some [].
Proof.
  intros H. destruct fuel; cbn [iterate_objects];
    replace (p <? end_) with false by (symmetry; apply Z.ltb_ge; exact H);
    reflexivity.
Qed.

Lemma iterate_objects_step (fuel : nat) (size_of : Z -> Z) (p end_ : Z) :
  p < end_ ->
  iterate_objects (S fuel) size_of p end_ =
    match iterate_objects fuel size_of (ptr_add p (size_of p)) end_ with
    | Some visited => Some (p :: visited)
    | None => None
    end.
Proof.
  intros H. cbn [iterate_objects].
  replace (p <? end_) with true by (symmetry; apply Z.ltb_lt; exact H).
  reflexivity.
Qed.

(** The loop of [object_iterate_block], started at an object, hands over
    the objects that start below [end_], in order. *)
Lemma iterate_objects_from (bottom : Z) (pre suf : list Z) (fuel : nat) (end_ : Z) :
  layout_ok bottom (pre ++ suf) ->
  (length suf <= fuel)%nat ->
  end_ <= bottom + HeapWordSize * total_words (pre ++ suf) ->
  iterate_objects fuel (oop_size bottom (pre ++ suf))
                  (bottom + HeapWordSize * total_words pre) end_
  = Some (filter (fun a => a <? end_)
                 (object_addresses (bottom + HeapWordSize * total_words pre) suf)).
Proof.
  revert pre fuel. induction suf as [| s r IH]; intros pre fuel Hok Hfuel Hend.
  - rewrite app_nil_r in *. apply iterate_objects_done. exact Hend.
  - destruct (layout_ok_app _ _ _ Hok) as (Hpre & Hsuf).
    destruct (layout_ok_cons _ _ _ Hsuf) as (Hs & Hadd & Hr).
    destruct (Z.ltb_spec (bottom + HeapWordSize * total_words pre) end_) as [Hlt | Hge].
    + destruct fuel as [| fuel]; [cbn [length] in Hfuel; lia|].
      rewrite iterate_objects_step by exact Hlt.
      rewrite oop_size_at by exact Hok. rewrite Hadd.
      cbn [object_addresses filter]. rewrite Hadd.
      replace (_ <? end_) with true by (symmetry; apply Z.ltb_lt; exact Hlt).
      assert (Hre : pre ++ s :: r = (pre ++ [s]) ++ r)
        by (rewrite <- app_assoc; reflexivity).
      assert (Hp' : bottom + HeapWordSize * total_words pre + HeapWordSize * s
                    = bottom + HeapWordSize * total_words (pre ++ [s])).
      { rewrite total_words_app, total_words_cons, total_words_nil.
        unfold HeapWordSize. lia. }
      rewrite Hp', Hre. rewrite Hre in Hok, Hend.
      rewrite (IH (pre ++ [s]) fuel Hok ltac:(cbn [length] in Hfuel; lia) Hend).
      reflexivity.
    + rewrite iterate_objects_done by exact Hge.
      rewrite filter_none; [reflexivity|].
      intros a Ha. apply (object_addresses_bounds _ _ Hsuf) in Ha.
      apply Z.ltb_ge. lia.
Qed.

Lemma filter_all {A : Type} (f : A -> bool) (l : list A) :
  (forall a, In a l -> f a = true) -> filter f l = l.
Proof.
  induction l as [| x r IH]; intros H; [reflexivity|].
  cbn [filter]. rewrite (H x (or_introl eq_refl)). f_equal. apply IH.
  intros a Ha. apply H. right. exact Ha.
Qed.

Lemma between_spec (lo hi p : Z) : between lo hi p = true <-> lo <= p < hi.
Proof.
  unfold between. rewrite andb_true_iff, Z.leb_le, Z.ltb_lt. reflexivity.
Qed.

Lemma between_in (lo hi p : Z) : lo <= p < hi -> between lo hi p = true.
Proof. apply between_spec. Qed.

Lemma between_out (lo hi p : Z) : p < lo \/ hi <= p -> between lo hi p = false.
Proof.
  intros H. unfold between.
  destruct (Z.leb_spec lo p); destruct (Z.ltb_spec p hi); try reflexivity; lia.
Qed.

(** Consecutive address ranges pick consecutive runs of the objects. *)
Lemma filter_between_split (p : Z) (sizes : list Z) (x y z : Z) :
  layout_ok p sizes -> x <= y <= z ->
  filter (between x y) (object_addresses p sizes)
    ++ filter (between y z) (object_addresses p sizes)
  = filter (between x z) (object_addresses p sizes).
Proof.
  intros Hok Hxyz. revert p Hok.
  induction sizes as [| s r IH]; intros p Hok; [reflexivity|].
  destruct (layout_ok_cons _ _ _ Hok) as (Hs & Hadd & Hok').
  pose proof (object_addresses_bounds _ _ Hok') as Hb.
  cbn [object_addresses filter]. rewrite Hadd.
  specialize (IH _ Hok').
  assert (Hcase : p < x \/ x <= p < y \/ y <= p < z \/ z <= p) by lia.
  destruct Hcase as [H | [H | [H | H]]].
  - rewrite !between_out by lia. exact IH.
  - rewrite (between_in x y), (between_out y z), (between_in x z) by lia.
    rewrite <- app_comm_cons. f_equal. exact IH.
  - rewrite (between_out x y), (between_in y z), (between_in x z) by lia.
    rewrite (filter_none (between x y)).
    + cbn [app]. f_equal. apply filter_ext_in. intros a Ha. specialize (Hb a Ha).
      unfold between. unfold HeapWordSize in *.
      replace (x <=? a) with true by (symmetry; apply Z.leb_le; lia).
      replace (y <=? a) with true by (symmetry; apply Z.leb_le; lia).
      reflexivity.
    + intros a Ha. specialize (Hb a Ha). apply between_out.
      unfold HeapWordSize in *. lia.
  - rewrite !between_out by lia. exact IH.
Qed.

(** The block geometry without wrap-around. *)
Lemma block_geometry (IterateBlockSize : Z) (space : MutableSpace) (sizes : list Z) :
  blocks_wf IterateBlockSize space sizes ->
  let b := ms_bottom space in
  let n := num_iterable_blocks IterateBlockSize space in
  IterateBlockSize = HeapWordSize * (IterateBlockSize / HeapWordSize) /\
  0 <= n /\
  IterateBlockSize * (n - 1) < ms_used_in_bytes space <= IterateBlockSize * n /\
  ms_used_in_bytes space = ms_top space - b /\
  (forall i, 0 <= i < n ->
     block_begin IterateBlockSize space i = b + IterateBlockSize * i /\
     block_begin IterateBlockSize space i < ms_top space /\
     block_end IterateBlockSize space i
       = Z.min (ms_top space) (b + IterateBlockSize * (i + 1))).
Proof.
  intros (Hpos & Hmod & Hok & Htop & Hroom). cbv zeta.
  pose proof Hok as (Hb0 & Hf & Hw).
  pose proof (total_words_nonneg _ Hf) as Ht.
  assert (Hibs : IterateBlockSize = HeapWordSize * (IterateBlockSize / HeapWordSize)).
  { pose proof (Z.div_mod IterateBlockSize HeapWordSize ltac:(unfold HeapWordSize; lia)).
    lia. }
  set (bws := IterateBlockSize / HeapWordSize) in *.
  assert (Hbws : 0 < bws) by (unfold HeapWordSize in *; lia).
  assert (Hused : ms_used_in_bytes space = ms_top space - ms_bottom space).
  { unfold ms_used_in_bytes, ms_used_in_words.
    rewrite pointer_delta_exact by (unfold HeapWordSize in *; lia).
    rewrite Htop.
    replace (ms_bottom space + HeapWordSize * total_words sizes - ms_bottom space)
      with (total_words sizes * HeapWordSize) by lia.
    rewrite Z.div_mul by (unfold HeapWordSize; lia).
    apply wrap_small. unfold in_word, HeapWordSize in *. lia. }
  assert (Hn : num_iterable_blocks IterateBlockSize space
               = (ms_top space - ms_bottom space + IterateBlockSize - 1) / IterateBlockSize).
  { unfold num_iterable_blocks. rewrite Hused. rewrite wrap_small; [reflexivity|].
    unfold in_word, HeapWordSize in *. lia. }
  set (U := ms_top space - ms_bottom space) in *.
  assert (HU : 0 <= U) by (subst U; unfold HeapWordSize in *; lia).
  pose proof (Z.div_mod (U + IterateBlockSize - 1) IterateBlockSize ltac:(lia)) as Hdm.
  pose proof (Z.mod_pos_bound (U + IterateBlockSize - 1) IterateBlockSize Hpos) as Hmb.
  rewrite <- Hn in Hdm.
  set (n := num_iterable_blocks IterateBlockSize space) in *.
  assert (Hn0 : 0 <= n) by (rewrite Hn; apply Z.div_pos; lia).
  split; [exact Hibs|]. split; [exact Hn0|].
  split; [rewrite Hused; nia|]. split; [exact Hused|].
  intros i Hi.
  assert (Hlt : ms_bottom space + IterateBlockSize * i < ms_top space) by nia.
  assert (Hbeg : block_begin IterateBlockSize space i
                 = ms_bottom space + IterateBlockSize * i).
  { unfold block_begin. fold bws.
    assert (Hiw : 0 <= i * bws) by nia.
    assert (Hi8 : HeapWordSize * (i * bws) = IterateBlockSize * i) by nia.
    unfold ptr_add. rewrite (wrap_small (i * bws)).
    - rewrite Hi8. apply wrap_small. unfold in_word. lia.
    - unfold in_word, HeapWordSize in *. lia. }
  split; [exact Hbeg|]. split; [rewrite Hbeg; exact Hlt|].
  unfold block_end. rewrite Hbeg. fold bws. rewrite MIN2_min. f_equal.
  unfold ptr_add. rewrite <- Hibs. rewrite wrap_small; [lia|].
  unfold in_word. lia.
Qed.

(** One block hands over exactly the objects that start inside it. *)
Lemma object_iterate_block_spec (IterateBlockSize : Z) (space : MutableSpace)
  (sizes : list Z) (i : Z) :
  blocks_wf IterateBlockSize space sizes ->
  0 <= i < num_iterable_blocks IterateBlockSize space ->
  object_iterate_block IterateBlockSize space sizes i =
    Some (filter (between (block_begin IterateBlockSize space i)
                          (block_end IterateBlockSize space i))
                 (object_addresses (ms_bottom space) sizes)).
Proof.
  intros Hwf Hi.
  pose proof (block_geometry _ _ _ Hwf) as Hgeo. cbv zeta in Hgeo.
  destruct Hgeo as (_ & _ & _ & _ & Hblk).
  destruct (Hblk i Hi) as (Hbeg & Hlt & Hend). clear Hblk.
  destruct Hwf as (Hpos & _ & Hok & Htop & _).
  unfold object_iterate_block.
  set (begin := block_begin IterateBlockSize space i) in *.
  set (end_ := block_end IterateBlockSize space i) in *.
  set (b := ms_bottom space) in *.
  assert (Hend_top : end_ <= ms_top space) by lia.
  unfold object_starts_in_range.
  change (fun s : Z => (begin <=? s) && (s <? end_)) with (between begin end_).
  destruct (existsb (between begin end_) (object_addresses b sizes)) eqn:E; cbn [negb].
  2:{ rewrite (existsb_false_filter _ _ E). reflexivity. }
  assert (Hb_begin : b <= begin < b + HeapWordSize * total_words sizes)
    by (pose proof Hok as (H0 & _); subst b; nia).
  destruct (object_start_contains b sizes begin Hok Hb_begin)
    as (pre & s & suf & Hsizes & Hst & Hcont).
  rewrite Hst in Hcont |- *. clear E Hst.
  subst sizes.
  set (p0 := b + HeapWordSize * total_words pre) in *.
  destruct (layout_ok_app _ _ _ Hok) as (Hpre & Hsuf). fold p0 in Hsuf.
  destruct (layout_ok_cons _ _ _ Hsuf) as (Hs & Hadd & Hrest).
  pose proof (object_addresses_bounds _ _ Hpre) as Bpre. fold p0 in Bpre.
  pose proof (object_addresses_bounds _ _ Hsuf) as Bsuf.
  pose proof (object_addresses_bounds _ _ Hrest) as Brest.
  assert (Htot : p0 + HeapWordSize * total_words (s :: suf) = ms_top space).
  { rewrite Htop, total_words_app. subst p0. unfold HeapWordSize. lia. }
  rewrite total_words_cons in Htot.
  rewrite (object_addresses_app b pre (s :: suf) Hok). fold p0.
  rewrite filter_app, (filter_none _ (object_addresses b pre)).
  2:{ intros a Ha. specialize (Bpre a Ha). apply between_out. lia. }
  cbn [app].
  destruct (Z.ltb_spec p0 begin) as [Hstraddle | Hat].
  - (* the object found reaches in from an earlier block: step over it *)
    subst p0. rewrite oop_size_at by exact Hok.
    set (p0 := b + HeapWordSize * total_words pre) in *.
    rewrite Hadd.
    assert (Hre : pre ++ s :: suf = (pre ++ [s]) ++ suf)
      by (rewrite <- app_assoc; reflexivity).
    assert (Hp' : p0 + HeapWordSize * s = b + HeapWordSize * total_words (pre ++ [s])).
    { rewrite total_words_app, total_words_cons, total_words_nil.
      subst p0. unfold HeapWordSize. lia. }
    rewrite Hre in Hok |- *. rewrite Hp'.
    rewrite (iterate_objects_from b (pre ++ [s]) suf).
    + rewrite <- Hp'. f_equal. cbn [object_addresses filter]. rewrite Hadd.
      rewrite (between_out begin end_ p0) by lia.
      apply filter_ext_in. intros a Ha. specialize (Brest a Ha).
      unfold between.
      replace (begin <=? a) with true by (symmetry; apply Z.leb_le; lia).
      reflexivity.
    + exact Hok.
    + rewrite !length_app. lia.
    + rewrite <- Hre, total_words_app, total_words_cons. fold p0.
      unfold HeapWordSize in *. lia.
  - (* an object starts right at the block's begin *)
    rewrite (iterate_objects_from b pre (s :: suf)).
    + f_equal. apply filter_ext_in. intros a Ha. specialize (Bsuf a Ha).
      unfold between.
      replace (begin <=? a) with true by (symmetry; apply Z.leb_le; lia).
      reflexivity.
    + exact Hok.
    + rewrite length_app. lia.
    + rewrite total_words_app, total_words_cons. fold p0.
      unfold HeapWordSize in *. lia.
Qed.

(** A run of consecutive blocks hands over the objects that start between
    the begin of the first and the begin of the block after the last. *)
Lemma iterate_blocks_spec (IterateBlockSize : Z) (space : MutableSpace)
  (sizes : list Z) (k : nat) (first : Z) :
  blocks_wf IterateBlockSize space sizes ->
  0 <= first ->
  first + Z.of_nat k <= num_iterable_blocks IterateBlockSize space ->
  iterate_blocks IterateBlockSize space sizes first k =
    Some (filter (between (ms_bottom space + IterateBlockSize * first)
                          (ms_bottom space + IterateBlockSize * (first + Z.of_nat k)))
                 (object_addresses (ms_bottom space) sizes)).
Proof.
  intros Hwf. revert first. induction k as [| k IH]; intros first H0 Hn.
  - cbn [iterate_blocks]. rewrite filter_none; [reflexivity|].
    intros a _. apply between_out. lia.
  - cbn [iterate_blocks].
    assert (Hi : 0 <= first < num_iterable_blocks IterateBlockSize space) by lia.
    rewrite (object_iterate_block_spec _ _ _ _ Hwf Hi).
    rewrite (IH (first + 1)) by lia.
    pose proof (block_geometry _ _ _ Hwf) as Hgeo. cbv zeta in Hgeo.
    destruct Hgeo as (_ & _ & _ & _ & Hblk).
    destruct (Hblk first Hi) as (Hbeg & Hlt & Hend).
    pose proof Hwf as (Hpos & _ & Hok & Htop & _).
    pose proof (object_addresses_bounds _ _ Hok) as Hb.
    f_equal. rewrite Hbeg.
    rewrite (filter_ext_in
               (between (ms_bottom space + IterateBlockSize * first)
                        (block_end IterateBlockSize space first))
               (between (ms_bottom space + IterateBlockSize * first)
                        (ms_bottom space + IterateBlockSize * (first + 1)))).
    + replace (first + 1 + Z.of_nat k) with (first + Z.of_nat (S k)) by lia.
      apply filter_between_split; [exact Hok | nia].
    + intros a Ha. specialize (Hb a Ha). rewrite <- Htop in Hb.
      unfold between. f_equal. rewrite Hend.
      destruct (Z.ltb_spec a (Z.min (ms_top space)
                                    (ms_bottom space + IterateBlockSize * (first + 1))));
        destruct (Z.ltb_spec a (ms_bottom space + IterateBlockSize * (first + 1)));
        try reflexivity; lia.
Qed.

(** C9: over a used space cut into [num_iterable_blocks] blocks, running
    [object_iterate_block] on every block index hands every object to the
    callback exactly once, in address order; each block hands over exactly
    the objects whose start address lies in the block, so an object that
    crosses a block boundary is visited from the block holding its start
    only, and a block in which no object starts hands over nothing.  The
    number of blocks is the used bytes divided by the block size, rounded
    up. *)
Theorem object_iterate_blocks_visit_once (IterateBlockSize : Z) (space : MutableSpace)
  (sizes : list Z) :
  blocks_wf IterateBlockSize space sizes ->
  let objs := object_addresses (ms_bottom space) sizes in
  let n := num_iterable_blocks IterateBlockSize space in
  object_iterate_all_blocks IterateBlockSize space sizes = Some objs /\
  NoDup objs /\
  (forall i, 0 <= i < n ->
     object_iterate_block IterateBlockSize space sizes i =
       Some (filter (between (block_begin IterateBlockSize space i)
                             (block_end IterateBlockSize space i)) objs)) /\
  (forall i, 0 <= i < n ->
     (forall a, In a objs ->
        between (block_begin IterateBlockSize space i)
                (block_end IterateBlockSize space i) a = false) ->
     object_iterate_block IterateBlockSize space sizes i = Some []) /\
  IterateBlockSize * (n - 1) < ms_used_in_bytes space <= IterateBlockSize * n.
Proof.
  intros Hwf objs n.
  pose proof (block_geometry _ _ _ Hwf) as Hgeo. cbv zeta in Hgeo.
  destruct Hgeo as (_ & Hn0 & Hceil & Hused & _). fold n in Hn0, Hceil.
  pose proof Hwf as (Hpos & _ & Hok & Htop & _).
  pose proof (object_addresses_bounds _ _ Hok) as Hb.
  split; [|split; [|split; [|split]]].
  - unfold object_iterate_all_blocks. fold n.
    rewrite (iterate_blocks_spec _ _ _ _ 0 Hwf (Z.le_refl 0)) by (fold n; lia).
    f_equal. apply filter_all. intros a Ha. specialize (Hb a Ha).
    apply between_in. rewrite Z2Nat.id by exact Hn0.
    rewrite <- Htop in Hb. rewrite Hused in Hceil. lia.
  - apply object_addresses_NoDup. exact Hok.
  - intros i Hi. apply object_iterate_block_spec; assumption.
  - intros i Hi Hnone. rewrite object_iterate_block_spec by assumption.
    rewrite filter_none; [reflexivity | exact Hnone].
  - exact Hceil.
Qed.

Lemma small_space_blocks_wf : blocks_wf 64 small_space small_sizes.
Proof.
  unfold blocks_wf, layout_ok. vm_compute.
  repeat split; (reflexivity || discriminate).
Qed.

Lemma object_iterate_blocks_visit_once_witness :
  object_iterate_all_blocks 64 small_space small_sizes
    = Some (object_addresses (ms_bottom small_space) small_sizes) /\
  object_iterate_block 64 small_space small_sizes 2 = Some [].
Proof.
  destruct (object_iterate_blocks_visit_once 64 small_space small_sizes
              small_space_blocks_wf) as (Hall & _ & _ & Hempty & _).
  split; [exact Hall|].
  apply Hempty.
  - vm_compute. split; [discriminate | reflexivity].
  - intros a Ha. vm_compute in Ha.
    destruct Ha as [<- | [<- | [<- | [<- | [<- | []]]]]]; reflexivity.
Defined.

(** * Further properties *)

(** ** What the attempts of [expand] do *)

(** Case analysis on a boolean that leaves the hypotheses as they are. *)
Ltac bool_cases t E :=
  let H := fresh in
  assert (H : t = true \/ t = false) by (destruct t; auto);
  destruct H as [E | E]; rewrite E.

Lemma expand_by_false (env : Env) (g : PSOldGen) (bytes : Z) :
  fst (expand_by env g bytes) = false -> snd (expand_by env g bytes) = g.
Proof.
  intros H. rewrite expand_by_outcome in H.
  rewrite (expand_by_refused env g bytes H). reflexivity.
Qed.

Lemma expand_by_true (env : Env) (g : PSOldGen) (bytes : Z) :
  gen_wf g -> 0 <= bytes -> fst (expand_by env g bytes) = true ->
  bytes <= uncommitted_size (virtual_space g) /\
  commit_memory env (high (virtual_space g)) bytes = true /\
  virtual_space (snd (expand_by env g bytes))
    = mkVS (vs_alignment (virtual_space g)) (reserved_low_addr (virtual_space g))
           (reserved_high_addr (virtual_space g))
           (committed_high_addr (virtual_space g) + bytes) /\
  object_space (snd (expand_by env g bytes))
    = mkMS (low (virtual_space g)) (ms_top (object_space g))
           (committed_high_addr (virtual_space g) + bytes).
Proof.
  intros (Hwf & _) Hb H. rewrite expand_by_outcome in H.
  pose proof (vs_expand_by_spec env _ bytes Hwf Hb) as Hvs. cbv zeta in Hvs.
  destruct Hvs as [_ Hok]. destruct (Hok H) as [Hle Hvs'].
  destruct (expand_by_success env g bytes H) as (_ & Hv & _ & _ & Hos).
  rewrite Hvs' in Hv, Hos.
  split; [exact Hle|]. split.
  - unfold vs_expand_by, high in *.
    destruct (uncommitted_size (virtual_space g) <? bytes); [discriminate|].
    destruct (commit_memory env (committed_high_addr (virtual_space g)) bytes);
      [reflexivity | discriminate].
  - split; [exact Hv | exact Hos].
Qed.

Lemma expand_by_granted (env : Env) (g : PSOldGen) (bytes : Z) :
  commits_granted env ->
  fst (expand_by env g bytes) = (bytes <=? uncommitted_size (virtual_space g)).
Proof.
  intros Hgr. rewrite expand_by_outcome. unfold vs_expand_by.
  rewrite Hgr, Z.leb_antisym.
  destruct (uncommitted_size (virtual_space g) <? bytes); reflexivity.
Qed.

Lemma expand_by_top (env : Env) (g : PSOldGen) (bytes : Z) :
  ms_top (object_space (snd (expand_by env g bytes))) = ms_top (object_space g).
Proof.
  destruct (fst (vs_expand_by env (virtual_space g) bytes)) eqn:E.
  - destruct (expand_by_success env g bytes E) as (_ & _ & _ & _ & ->). reflexivity.
  - rewrite (expand_by_refused env g bytes E). reflexivity.
Qed.

Lemma expand_to_reserved_false (env : Env) (g : PSOldGen) :
  fst (expand_to_reserved env g) = false -> snd (expand_to_reserved env g) = g.
Proof.
  unfold expand_to_reserved.
  destruct (uncommitted_size (virtual_space g) >? 0); [|reflexivity].
  apply expand_by_false.
Qed.

(** [expand] as its three attempts in a row. *)
Lemma expand_attempts (env : Env) (g : PSOldGen) (bytes : Z) :
  let a := vs_alignment (virtual_space g) in
  let r1 := if expand_min_increment env a >? expand_aligned_bytes bytes a
            then expand_by env g (expand_min_increment env a) else (false, g) in
  let r2 := if negb (fst r1)
            then expand_by env (snd r1) (expand_aligned_bytes bytes a) else r1 in
  let r3 := if negb (fst r2) then expand_to_reserved env (snd r2) else r2 in
  expand env g bytes = r3.
Proof.
  cbv zeta. unfold expand, expand_min_increment, expand_aligned_bytes.
  set (a := vs_alignment (virtual_space g)).
  set (floor := if UseNUMA env then _ else _).
  set (ab := if align_up bytes a =? 0 then _ else _).
  destruct (floor >? ab).
  - destruct (expand_by env g floor) as [s1 g1]. cbn [fst snd].
    destruct s1; cbn [negb]; [reflexivity|].
    destruct (expand_by env g1 ab) as [s2 g2]. cbn [fst snd].
    destruct s2; cbn [negb]; [reflexivity|].
    destruct (expand_to_reserved env g2) as [s3 g3]. reflexivity.
  - cbn [fst snd negb].
    destruct (expand_by env g ab) as [s2 g2]. cbn [fst snd].
    destruct s2; cbn [negb]; [reflexivity|].
    destruct (expand_to_reserved env g2) as [s3 g3]. reflexivity.
Qed.

Lemma expand_min_increment_aligned (env : Env) (a : Z) :
  is_power_of_2 a = true -> a < word_modulus ->
  0 <= expand_min_increment env a /\ expand_min_increment env a mod a = 0.
Proof.
  intros Hp Ha. unfold expand_min_increment.
  destruct (align_up_multiple (MinHeapDeltaBytes env) a Hp Ha) as (Hm & Hi).
  destruct (UseNUMA env); [|unfold in_word in Hi; lia].
  rewrite MAX2_max.
  pose proof (wrap_multiple a (numa_get_groups_num env) Hp Ha) as Hwm.
  pose proof (wrap_range (a * numa_get_groups_num env)) as Hwr.
  unfold in_word in *.
  destruct (Z.max_spec (align_up (MinHeapDeltaBytes env) a)
                       (wrap (a * numa_get_groups_num env))) as [[_ ->] | [_ ->]];
    split; (assumption || lia).
Qed.

(** The requested amount after alignment: a positive multiple of the
    alignment that covers the request, except when rounding up wrapped,
    where it is the request rounded down. *)
Lemma expand_aligned_bytes_spec (bytes a : Z) :
  is_power_of_2 a = true -> a < word_modulus -> in_word bytes -> 0 < bytes ->
  0 < expand_aligned_bytes bytes a /\
  expand_aligned_bytes bytes a mod a = 0 /\
  expand_aligned_bytes bytes a < word_modulus /\
  (bytes <= expand_aligned_bytes bytes a \/
   (word_modulus - a < bytes /\ word_modulus - 2 * a < expand_aligned_bytes bytes a)).
Proof.
  intros Hp Ha Hb Hpos.
  destruct (is_power_of_2_spec a Hp) as (Hapos & _ & _).
  destruct (align_down_bounds bytes a Hb Hp Ha) as (Hdb & Hdm & Hd0).
  destruct (align_up_multiple bytes a Hp Ha) as (Hum & Hui).
  assert (Hup : bytes + a - 1 < word_modulus -> bytes <= align_up bytes a).
  { intros H. apply (align_up_bounds bytes a Hb Hp Ha H). }
  assert (Hwrapped : word_modulus <= bytes + a - 1 -> align_up bytes a = 0).
  { intros H. unfold align_up. rewrite align_mask_pow2 by assumption.
    assert (Hw : wrap (bytes + (a - 1)) = bytes + (a - 1) - word_modulus).
    { unfold wrap. symmetry. apply Z.mod_unique with 1; unfold in_word in *; lia. }
    rewrite Hw. rewrite align_down_div; try assumption.
    - rewrite Z.div_small; unfold in_word in *; lia.
    - unfold in_word in *. lia. }
  pose proof (multiple_room a a Hp Ha ltac:(unfold in_word; lia)
                (Z.mod_same a ltac:(lia))) as H2a.
  unfold expand_aligned_bytes.
  destruct (Z.eqb_spec (align_up bytes a) 0) as [Hz | Hnz].
  - assert (Hov : word_modulus <= bytes + a - 1).
    { destruct (Z.lt_ge_cases (bytes + a - 1) word_modulus) as [H | H]; [|exact H].
      specialize (Hup H). lia. }
    unfold in_word in *. repeat split; lia.
  - assert (Hno : bytes + a - 1 < word_modulus).
    { destruct (Z.lt_ge_cases (bytes + a - 1) word_modulus) as [H | H]; [exact H|].
      specialize (Hwrapped H). lia. }
    specialize (Hup Hno). unfold in_word in *. repeat split; lia.
Qed.

(** A multiple of the alignment above [2^64 - 2 * alignment] that fits
    what is left uncommitted is all that is left. *)
Lemma near_top_multiple (a x u : Z) :
  is_power_of_2 a = true -> a < word_modulus ->
  x mod a = 0 -> u mod a = 0 -> word_modulus - 2 * a < x -> x <= u ->
  u < word_modulus -> x = u.
Proof.
  intros Hp Ha Hx Hu Hlo Hle Hhi.
  destruct (pow2_in_word a Hp Ha) as (k & Hk & ->).
  assert (Hpos : 0 < 2 ^ k) by (apply Z.pow_pos_nonneg; lia).
  assert (Hwm : word_modulus = 2 ^ k * 2 ^ (word_bits - k)).
  { unfold word_modulus. rewrite <- Z.pow_add_r by lia. f_equal. lia. }
  apply Z.mod_divide in Hx; [|lia]. destruct Hx as [q Hq].
  apply Z.mod_divide in Hu; [|lia]. destruct Hu as [v Hv].
  subst x u. rewrite Hwm in *.
  set (t := 2 ^ (word_bits - k)) in *.
  assert (t - 2 < q) by nia. assert (v < t) by nia. assert (q <= v) by nia.
  assert (q = v) by lia. subst q. reflexivity.
Qed.

Lemma expand_by_grown (env : Env) (g : PSOldGen) (bytes : Z) :
  gen_wf g -> 0 < bytes -> fst (expand_by env g bytes) = true ->
  grown_by g (snd (expand_by env g bytes)) bytes.
Proof.
  intros Hg Hb H.
  destruct (expand_by_true env g bytes Hg ltac:(lia) H) as (Hle & _ & Hv & Hos).
  repeat split; assumption.
Qed.

(** Every way [expand] can end: nothing granted and nothing changed, or
    one attempt granted, which covers the request unless it took all that
    was left. *)
Lemma expand_outcome (env : Env) (g : PSOldGen) (bytes : Z) :
  gen_wf g -> in_word bytes -> 0 < bytes ->
  (fst (expand env g bytes) = false /\ snd (expand env g bytes) = g) \/
  (fst (expand env g bytes) = true /\
   exists grow, grown_by g (snd (expand env g bytes)) grow /\
                (bytes <= grow \/ grow = uncommitted_size (virtual_space g))).
Proof.
  intros Hg Hb Hpos. pose proof Hg as (Hwf & _).
  pose proof Hwf as (Hp & Ha & H0 & H1 & H2 & H3 & Hm0 & Hm1 & Hm2).
  destruct (is_power_of_2_spec _ Hp) as (Hapos & _ & _).
  destruct (vs_sizes _ Hwf) as (_ & _ & Hu).
  assert (Hum : uncommitted_size (virtual_space g) mod vs_alignment (virtual_space g) = 0)
    by (rewrite Hu; apply mod0_sub; assumption).
  assert (Huw : uncommitted_size (virtual_space g) < word_modulus) by lia.
  pose proof (expand_attempts env g bytes) as Hex. cbv zeta in Hex. rewrite Hex. clear Hex.
  set (a := vs_alignment (virtual_space g)) in *.
  destruct (expand_min_increment_aligned env a Hp (proj2 Ha)) as (Hf0 & Hfm).
  destruct (expand_aligned_bytes_spec bytes a Hp (proj2 Ha) Hb Hpos)
    as (Hab0 & Habm & Habw & Hab).
  set (floor := expand_min_increment env a) in *.
  set (ab := expand_aligned_bytes bytes a) in *.
  (* first attempt *)
  assert (Hfirst :
    (floor >? ab) = true -> fst (expand_by env g floor) = true ->
    grown_by g (snd (expand_by env g floor)) floor /\
    (bytes <= floor \/ floor = uncommitted_size (virtual_space g))).
  { intros Hgt E. apply Z.gtb_lt in Hgt.
    pose proof (expand_by_grown env g floor Hg ltac:(lia) E) as Hgr.
    split; [exact Hgr|]. destruct Hgr as (_ & Hle & _).
    destruct Hab as [Hcov | [_ Hnear]]; [left; lia|].
    exfalso.
    pose proof (near_top_multiple a ab _ Hp (proj2 Ha) Habm Hum Hnear ltac:(lia) Huw).
    lia. }
  (* second attempt *)
  assert (Hsecond :
    fst (expand_by env g ab) = true ->
    grown_by g (snd (expand_by env g ab)) ab /\
    (bytes <= ab \/ ab = uncommitted_size (virtual_space g))).
  { intros E. pose proof (expand_by_grown env g ab Hg Hab0 E) as Hgr.
    split; [exact Hgr|]. destruct Hgr as (_ & Hle & _).
    destruct Hab as [Hcov | [_ Hnear]]; [left; exact Hcov|]. right.
    apply (near_top_multiple a ab _ Hp (proj2 Ha) Habm Hum Hnear Hle Huw). }
  (* third attempt *)
  assert (Hthird :
    (fst (expand_to_reserved env g) = false /\ snd (expand_to_reserved env g) = g) \/
    (fst (expand_to_reserved env g) = true /\
     grown_by g (snd (expand_to_reserved env g)) (uncommitted_size (virtual_space g)))).
  { destruct (fst (expand_to_reserved env g)) eqn:E.
    - right. split; [reflexivity|]. unfold expand_to_reserved in *.
      destruct (Z.gtb_spec (uncommitted_size (virtual_space g)) 0) as [Hr | Hr];
        [|discriminate].
      apply expand_by_grown; assumption.
    - left. split; [reflexivity|]. apply expand_to_reserved_false. exact E. }
  assert (Hrest :
    let r2 := expand_by env g ab in
    let r3 := if negb (fst r2) then expand_to_reserved env (snd r2) else r2 in
    (fst r3 = false /\ snd r3 = g) \/
    (fst r3 = true /\
     exists grow, grown_by g (snd r3) grow /\
                  (bytes <= grow \/ grow = uncommitted_size (virtual_space g)))).
  { cbv zeta. bool_cases (fst (expand_by env g ab)) E2; cbn [negb].
    - right. split; [exact E2|]. exists ab. apply Hsecond. exact E2.
    - rewrite (expand_by_false env g ab E2).
      destruct Hthird as [[Hf Hs] | [Ht Hgr]].
      + left. split; assumption.
      + right. split; [exact Ht|]. eexists. split; [exact Hgr | right; reflexivity]. }
  cbv zeta in Hrest.
  destruct (floor >? ab) eqn:Hgt; cbn [fst snd negb]; [|exact Hrest].
  bool_cases (fst (expand_by env g floor)) E1; cbn [negb].
  - rewrite E1. cbn [negb].
    right. split; [exact E1|]. exists floor. apply Hfirst; [reflexivity | exact E1].
  - rewrite (expand_by_false env g floor E1). exact Hrest.
Qed.

Lemma expand_false_inv (env : Env) (g : PSOldGen) (bytes : Z) :
  fst (expand env g bytes) = false ->
  snd (expand env g bytes) = g /\
  fst (expand_by env g (expand_aligned_bytes bytes (vs_alignment (virtual_space g))))
    = false /\
  fst (expand_to_reserved env g) = false.
Proof.
  pose proof (expand_attempts env g bytes) as Hex. cbv zeta in Hex. rewrite Hex. clear Hex.
  set (a := vs_alignment (virtual_space g)).
  set (floor := expand_min_increment env a).
  set (ab := expand_aligned_bytes bytes a).
  assert (Hrest :
    let r2 := expand_by env g ab in
    let r3 := if negb (fst r2) then expand_to_reserved env (snd r2) else r2 in
    fst r3 = false ->
    snd r3 = g /\ fst (expand_by env g ab) = false /\ fst (expand_to_reserved env g) = false).
  { cbv zeta. bool_cases (fst (expand_by env g ab)) E2; cbn [negb].
    - intros H. congruence.
    - rewrite (expand_by_false env g ab E2). intros E3.
      split; [apply expand_to_reserved_false; exact E3 | split; [reflexivity | exact E3]]. }
  cbv zeta in Hrest.
  destruct (floor >? ab); cbn [fst snd negb]; [|exact Hrest].
  bool_cases (fst (expand_by env g floor)) E1; cbn [negb].
  - rewrite E1. cbn [negb]. intros H. congruence.
  - rewrite (expand_by_false env g floor E1). exact Hrest.
Qed.

(** X3: an [expand] that returns false has changed nothing: the attempt
    for the requested amount and the attempt for everything left were both
    refused, and the generation, with its committed region, coverage,
    object space, pretouch pointer and counters, is the one it started
    from. *)
Theorem expand_failure_unchanged (env : Env) (g : PSOldGen) (bytes : Z) :
  fst (expand env g bytes) = false ->
  snd (expand env g bytes) = g /\
  expand env g bytes = (false, g) /\
  fst (expand_by env g (expand_aligned_bytes bytes (vs_alignment (virtual_space g))))
    = false /\
  fst (expand_to_reserved env g) = false.
Proof.
  intros H. destruct (expand_false_inv env g bytes H) as (Hs & H2 & H3).
  split; [exact Hs|]. split; [|split; assumption].
  rewrite (surjective_pairing (expand env g bytes)), H, Hs. reflexivity.
Qed.

Lemma expand_failure_unchanged_witness :
  snd (expand env_no_commit gen0 (14 * M)) = gen0.
Proof.
  apply (expand_failure_unchanged env_no_commit gen0 (14 * M)). reflexivity.
Defined.

Lemma grown_by_sizes (g g' : PSOldGen) (grow : Z) :
  gen_wf g -> grown_by g g' grow ->
  committed_size (virtual_space g') = committed_size (virtual_space g) + grow /\
  uncommitted_size (virtual_space g') = uncommitted_size (virtual_space g) - grow /\
  ms_end (object_space g') = high (virtual_space g') /\
  ms_end (object_space g') = ms_end (object_space g) + grow /\
  ms_top (object_space g') = ms_top (object_space g) /\
  ms_bottom (object_space g') = ms_bottom (object_space g).
Proof.
  intros (Hwf & Hbot & Hend) (Hpos & Hle & Hv & Hos).
  destruct (vs_sizes _ Hwf) as (Hr & Hc & Hu).
  pose proof Hwf as (_ & _ & H0 & H1 & H2 & H3 & _).
  rewrite Hv, Hos, Hc, Hu, Hbot, Hend. unfold high, low in *.
  unfold uncommitted_size, reserved_size, committed_size. cbn.
  rewrite Hu in Hle.
  rewrite (wrap_small (reserved_high_addr (virtual_space g)
                       - reserved_low_addr (virtual_space g)))
    by (unfold in_word; lia).
  rewrite (wrap_small (committed_high_addr (virtual_space g) + grow
                       - reserved_low_addr (virtual_space g)))
    by (unfold in_word; lia).
  rewrite wrap_small by (unfold in_word; lia).
  repeat split; lia.
Qed.

(** X4: an [expand] that returns true has committed more, and either at
    least the [bytes] asked for or everything that was left of the
    reserved region; the object space ends at the new committed boundary
    and the allocation frontier has not moved. *)
Theorem expand_success_meets_request (env : Env) (g : PSOldGen) (bytes : Z) :
  gen_wf g -> in_word bytes -> 0 < bytes ->
  fst (expand env g bytes) = true ->
  let g' := snd (expand env g bytes) in
  committed_size (virtual_space g) < committed_size (virtual_space g') /\
  (committed_size (virtual_space g) + bytes <= committed_size (virtual_space g') \/
   uncommitted_size (virtual_space g') = 0) /\
  committed_size (virtual_space g') <= reserved_size (virtual_space g) /\
  ms_end (object_space g') = high (virtual_space g') /\
  ms_top (object_space g') = ms_top (object_space g) /\
  gen_wf g'.
Proof.
  intros Hg Hb Hpos Hok. cbv zeta.
  destruct (expand_outcome env g bytes Hg Hb Hpos) as [[Hf _] | [_ (grow & Hgr & Hcov)]];
    [congruence|].
  destruct (grown_by_sizes _ _ _ Hg Hgr) as (Hc & Hu & He & _ & Ht & _).
  pose proof Hgr as (Hgpos & Hgle & _).
  pose proof (expand_wf env g bytes Hg Hb) as Hw. cbv zeta in Hw.
  destruct Hw as (Hg' & _ & _).
  destruct (vs_sizes _ (proj1 Hg)) as (Hr & Hcs & Hus).
  split; [lia|]. split; [destruct Hcov; lia|]. split; [lia|].
  split; [exact He|]. split; [exact Ht | exact Hg'].
Qed.

Lemma expand_success_meets_request_witness :
  committed_size (virtual_space gen0) + 14 * M
    <= committed_size (virtual_space (snd (expand env0 gen0 (14 * M))))
  \/ uncommitted_size (virtual_space (snd (expand env0 gen0 (14 * M)))) = 0.
Proof.
  destruct (expand_success_meets_request env0 gen0 (14 * M) gen0_wf) as (_ & H & _).
  - vm_compute. split; [discriminate | reflexivity].
  - reflexivity.
  - reflexivity.
  - exact H.
Defined.

(** X5: [expand_for_allocate] returns at once, changing nothing, when the
    space already has room for [word_size] words; when it returns false
    nothing has changed; and when it returns true the space has room for
    [word_size] words unless the generation has reached its reserved
    ceiling.  It never moves the allocation frontier. *)
Theorem expand_for_allocate_result (env : Env) (g : PSOldGen) (word_size : Z) :
  gen_wf g -> top_wf g ->
  0 < word_size -> word_size * HeapWordSize < word_modulus ->
  let r := expand_for_allocate env g word_size in
  let free g := pointer_delta (ms_end (object_space g)) (ms_top (object_space g)) in
  (word_size <= free g -> r = (true, g)) /\
  (fst r = false -> snd r = g /\ free g < word_size) /\
  (fst r = true ->
   word_size <= free (snd r) \/ uncommitted_size (virtual_space (snd r)) = 0) /\
  ms_top (object_space (snd r)) = ms_top (object_space g).
Proof.
  intros Hg Htop Hpos Hno. cbv zeta.
  unfold expand_for_allocate, expand_for_allocate_impl.
  pose proof Hg as (Hwf & Hbot & Hend).
  pose proof Hwf as (_ & _ & H0 & H1 & H2 & H3 & _).
  destruct Htop as (Hbt & Hte). unfold low, high in *.
  destruct (Z.leb_spec word_size
              (pointer_delta (ms_end (object_space g)) (ms_top (object_space g))))
    as [Hroom | Hshort].
  - cbn [fst snd]. repeat split; try reflexivity; try discriminate. left. exact Hroom.
  - assert (Hw : wrap (word_size * HeapWordSize) = word_size * HeapWordSize)
      by (apply wrap_small; unfold in_word, HeapWordSize in *; lia).
    rewrite Hw.
    assert (Hb : in_word (word_size * HeapWordSize))
      by (unfold in_word, HeapWordSize in *; lia).
    assert (Hbp : 0 < word_size * HeapWordSize) by (unfold HeapWordSize; lia).
    split; [intros; lia|].
    destruct (expand_outcome env g _ Hg Hb Hbp) as [[Hf Hs] | [Ht (grow & Hgr & Hcov)]].
    + rewrite Hf, Hs. repeat split; try assumption; discriminate.
    + rewrite Ht. destruct (grown_by_sizes _ _ _ Hg Hgr) as (_ & Hu & _ & He & Htp & _).
      pose proof Hgr as (Hgpos & Hgle & _).
      destruct (vs_sizes _ Hwf) as (_ & _ & Hus).
      split; [discriminate|]. split; [|exact Htp].
      intros _. destruct Hcov as [Hcov | Hall]; [left | right; lia].
      rewrite He, Htp. rewrite pointer_delta_exact by lia.
      apply Z.div_le_lower_bound; [unfold HeapWordSize; lia|]. lia.
Qed.

Lemma gen_nearly_full_wf : gen_wf gen_nearly_full /\ top_wf gen_nearly_full.
Proof.
  unfold gen_wf, vs_wf, top_wf. vm_compute.
  repeat split; (reflexivity || discriminate).
Qed.

Lemma expand_for_allocate_result_witness :
  let r := expand_for_allocate env0 gen_nearly_full 262144 in
  262144 <= pointer_delta (ms_end (object_space (snd r))) (ms_top (object_space (snd r)))
  \/ uncommitted_size (virtual_space (snd r)) = 0.
Proof.
  destruct (expand_for_allocate_result env0 gen_nearly_full 262144
              (proj1 gen_nearly_full_wf) (proj2 gen_nearly_full_wf))
    as (_ & _ & H & _).
  - reflexivity.
  - reflexivity.
  - apply H. reflexivity.
Defined.

(** ** [expand] when the operating system grants every commit *)

(** X6: when every commit is granted and the larger of the minimum
    increment and the aligned request fits what is left uncommitted,
    [expand] succeeds and commits exactly that larger amount: at least the
    request, at least [MinHeapDeltaBytes] rounded up and, with [UseNUMA],
    at least one alignment unit per NUMA group. *)
Theorem expand_growth_when_granted (env : Env) (g : PSOldGen) (bytes : Z) :
  gen_wf g -> commits_granted env ->
  0 < bytes -> bytes + vs_alignment (virtual_space g) <= word_modulus ->
  let a := vs_alignment (virtual_space g) in
  let want := Z.max (expand_min_increment env a) (align_up bytes a) in
  want <= uncommitted_size (virtual_space g) ->
  fst (expand env g bytes) = true /\
  committed_size (virtual_space (snd (expand env g bytes)))
    = committed_size (virtual_space g) + want /\
  bytes <= want /\
  align_up (MinHeapDeltaBytes env) a <= want /\
  (UseNUMA env = true -> wrap (a * numa_get_groups_num env) <= want).
Proof.
  intros Hg Hgr Hpos Hno a want Hfit. pose proof Hg as (Hwf & _).
  pose proof Hwf as (Hp & Ha & _). fold a in Hp, Ha, Hno.
  destruct (is_power_of_2_spec _ Hp) as (Hapos & _ & _).
  assert (Hb : in_word bytes) by (unfold in_word; lia).
  destruct (align_up_bounds bytes a Hb Hp (proj2 Ha) ltac:(lia)) as (Hub & _).
  assert (Hab : expand_aligned_bytes bytes a = align_up bytes a).
  { unfold expand_aligned_bytes.
    destruct (Z.eqb_spec (align_up bytes a) 0); [lia | reflexivity]. }
  assert (Hfloor : align_up (MinHeapDeltaBytes env) a <= expand_min_increment env a /\
                   (UseNUMA env = true ->
                    wrap (a * numa_get_groups_num env) <= expand_min_increment env a)).
  { unfold expand_min_increment. destruct (UseNUMA env).
    - rewrite MAX2_max. split; [lia | intros _; lia].
    - split; [lia | discriminate]. }
  assert (Hgrow : forall b, 0 < b -> b <= uncommitted_size (virtual_space g) ->
            fst (expand_by env g b) = true /\
            committed_size (virtual_space (snd (expand_by env g b)))
              = committed_size (virtual_space g) + b).
  { intros b Hb0 Hble.
    assert (E : fst (expand_by env g b) = true)
      by (rewrite expand_by_granted by exact Hgr; apply Z.leb_le; exact Hble).
    split; [exact E|].
    apply (grown_by_sizes g _ b Hg). apply expand_by_grown; assumption. }
  pose proof (expand_attempts env g bytes) as Hex. cbv zeta in Hex. rewrite Hex. clear Hex.
  fold a. rewrite Hab.
  destruct (Z.gtb_spec (expand_min_increment env a) (align_up bytes a)) as [Hgt | Hle].
  - assert (Hw : want = expand_min_increment env a) by (subst want; lia).
    destruct (Hgrow (expand_min_increment env a) ltac:(lia) ltac:(lia)) as (E & Hc).
    rewrite E. cbn [negb]. rewrite E. cbn [negb]. rewrite Hw.
    split; [exact E|]. split; [exact Hc|]. split; [lia|]. exact Hfloor.
  - assert (Hw : want = align_up bytes a) by (subst want; lia).
    destruct (Hgrow (align_up bytes a) ltac:(lia) ltac:(lia)) as (E & Hc).
    cbn [fst snd negb]. rewrite E. cbn [negb]. rewrite Hw.
    split; [exact E|]. split; [exact Hc|]. split; [lia|].
    split; [lia|]. intros Hn. destruct Hfloor as (_ & Hf). specialize (Hf Hn). lia.
Qed.

Lemma env0_grants : commits_granted env0.
Proof. intros base bytes. reflexivity. Qed.

Lemma expand_growth_when_granted_witness :
  committed_size (virtual_space (snd (expand env0 gen0 (14 * M)))) = 30 * M.
Proof.
  destruct (expand_growth_when_granted env0 gen0 (14 * M) gen0_wf env0_grants)
    as (_ & H & _).
  - reflexivity.
  - vm_compute. discriminate.
  - vm_compute. discriminate.
  - rewrite H. reflexivity.
Defined.

(** X7: when every commit is granted, [expand] fails exactly when nothing
    of the reserved region is left uncommitted. *)
Theorem expand_succeeds_iff_room (env : Env) (g : PSOldGen) (bytes : Z) :
  gen_wf g -> commits_granted env -> in_word bytes -> 0 < bytes ->
  fst (expand env g bytes) = negb (uncommitted_size (virtual_space g) =? 0).
Proof.
  intros Hg Hgr Hb Hpos.
  destruct (vs_sizes _ (proj1 Hg)) as (_ & _ & Hu).
  pose proof (proj1 Hg) as (_ & _ & H0 & H1 & H2 & H3 & _).
  destruct (Z.eqb_spec (uncommitted_size (virtual_space g)) 0) as [Hz | Hnz]; cbn [negb].
  - destruct (expand_outcome env g bytes Hg Hb Hpos)
      as [[Hf _] | [_ (grow & (Hg0 & Hgle & _) & _)]]; [exact Hf | lia].
  - destruct (fst (expand env g bytes)) eqn:E; [reflexivity|].
    destruct (expand_false_inv env g bytes E) as (_ & _ & H3').
    unfold expand_to_reserved in H3'.
    replace (uncommitted_size (virtual_space g) >? 0) with true in H3'
      by (symmetry; apply Z.gtb_lt; lia).
    rewrite expand_by_granted in H3' by exact Hgr.
    rewrite Z.leb_refl in H3'. discriminate.
Qed.

Lemma expand_succeeds_iff_room_witness :
  fst (expand env0 gen_full M) = false /\ fst (expand env0 gen0 M) = true.
Proof.
  split.
  - rewrite (expand_succeeds_iff_room env0 gen_full M (proj1 (conj gen_full_wf I)) env0_grants).
    + reflexivity.
    + vm_compute. split; [discriminate | reflexivity].
    + reflexivity.
  - rewrite (expand_succeeds_iff_room env0 gen0 M gen0_wf env0_grants).
    + reflexivity.
    + vm_compute. split; [discriminate | reflexivity].
    + reflexivity.
Defined.

(** ** The effect of a resize on every field *)

(** The two bounds that [new_memregion] keeps are the region the class
    builds from them: the committed part of a well-formed virtual space is
    a whole number of heap words long. *)
Lemma new_memregion_exact (g : PSOldGen) :
  vs_wf (virtual_space g) ->
  new_memregion g
    = MemRegion_of_bounds (low (virtual_space g)) (high (virtual_space g)).
Proof.
  intros Hwf. pose proof Hwf as (Hp & Ha & H0 & H1 & H2 & H3 & Hm0 & Hm1 & _).
  destruct (is_power_of_2_spec _ Hp) as (Hpos & _ & _).
  pose proof (pow2_mod_word _ Hp (proj1 Ha)) as Haw.
  assert (Hd : (committed_high_addr (virtual_space g)
                - reserved_low_addr (virtual_space g)) mod HeapWordSize = 0).
  { apply mod0_trans with (a := vs_alignment (virtual_space g));
      [exact Hpos | reflexivity | apply mod0_sub; assumption | exact Haw]. }
  unfold new_memregion, MemRegion_of_bounds, low, high. f_equal.
  rewrite pointer_delta_exact by lia. unfold ptr_add.
  pose proof (Z.div_mod (committed_high_addr (virtual_space g)
                         - reserved_low_addr (virtual_space g))
                HeapWordSize ltac:(unfold HeapWordSize; lia)) as Hdm.
  rewrite Hd in Hdm. rewrite wrap_small; unfold in_word; lia.
Qed.

Lemma post_resize_eq (env : Env) (g : PSOldGen) :
  post_resize env g =
    mkGen (reserved g) (virtual_space g)
          (mkMS (low (virtual_space g)) (ms_top (object_space g)) (high (virtual_space g)))
          (new_memregion g) (start_array_reserved g) (new_memregion g)
          (if is_VM_thread env then
             if AlwaysPreTouch env then high (virtual_space g)
             else Z.min (high (virtual_space g)) (alloc_pretouch_next g)
           else alloc_pretouch_next g)
          (alloc_pretouch_stride_words g) (alloc_pretouch_limit_words g)
          (min_gen_size g) (max_gen_size g) (space_counters_capacity g)
          (gen_counters_committed g) (mangled g) (touched g).
Proof.
  pose proof (post_resize_states_eq env g) as H. cbv zeta in H. destruct H as [_ ->].
  unfold update_alloc_pretouch, object_space_initialize,
    card_table_resize_covered_region, start_array_set_covered_region.
  destruct g. cbn.
  destruct (is_VM_thread env); [|reflexivity].
  destruct (AlwaysPreTouch env); cbn; [reflexivity|].
  rewrite MIN2_min. reflexivity.
Qed.

(** X10: running the resize synchronization a second time changes nothing:
    [post_resize] is idempotent. *)
Theorem post_resize_idempotent (env : Env) (g : PSOldGen) :
  post_resize env (post_resize env g) = post_resize env g.
Proof.
  rewrite (post_resize_eq env (post_resize env g)).
  rewrite (post_resize_eq env g). cbn.
  unfold new_memregion. cbn.
  destruct (is_VM_thread env); [|reflexivity].
  destruct (AlwaysPreTouch env); [reflexivity|].
  rewrite Z.min_assoc, Z.min_id. reflexivity.
Qed.

Lemma expand_by_success_eq (env : Env) (g : PSOldGen) (bytes : Z) :
  gen_wf g -> 0 <= bytes -> fst (expand_by env g bytes) = true ->
  let vs' := mkVS (vs_alignment (virtual_space g)) (reserved_low_addr (virtual_space g))
                  (reserved_high_addr (virtual_space g))
                  (committed_high_addr (virtual_space g) + bytes) in
  let g1 := set_virtual_space g vs' in
  let g2 := if ZapUnusedHeapArea env
            then mangle_region g1 (mkMemRegion (ms_end (object_space g)) (high vs'))
            else g1 in
  let g3 := post_resize env g2 in
  snd (expand_by env g bytes)
    = if UsePerfData env then update_all (update_capacity g3) else g3.
Proof.
  intros (Hwf & _) Hb H. rewrite expand_by_outcome in H.
  pose proof (vs_expand_by_spec env _ bytes Hwf Hb) as Hvs. cbv zeta in Hvs.
  destruct Hvs as [_ Hok]. destruct (Hok H) as [_ Hvs'].
  cbv zeta. unfold expand_by.
  destruct (vs_expand_by env (virtual_space g) bytes) as [r vs'].
  cbn [fst snd] in H, Hvs'. subst r vs'. cbn [snd fst].
  destruct (UsePerfData env); reflexivity.
Qed.

(** X9: what a granted [expand_by] of a whole number of heap words does.
    The committed size grows by exactly [bytes]; the object space and both
    covered regions end at the new boundary, with the allocation frontier
    where it was; with [ZapUnusedHeapArea] exactly the newly committed
    range, from the old end to the new one, is mangled; with [UsePerfData]
    the published capacity and committed size are the new ones, and
    without it they stay as they were. *)
Theorem expand_by_success_effects (env : Env) (g : PSOldGen) (bytes : Z) :
  gen_wf g -> 0 <= bytes -> bytes mod HeapWordSize = 0 ->
  fst (expand_by env g bytes) = true ->
  let g' := snd (expand_by env g bytes) in
  let new_end := ms_end (object_space g) + bytes in
  committed_size (virtual_space g') = committed_size (virtual_space g) + bytes /\
  object_space g' = mkMS (ms_bottom (object_space g)) (ms_top (object_space g)) new_end /\
  start_array_covered g' = mkMemRegion (ms_bottom (object_space g)) new_end /\
  card_table_covered g' = mkMemRegion (ms_bottom (object_space g)) new_end /\
  mangled g' =
    (if ZapUnusedHeapArea env
     then mkMemRegion (ms_end (object_space g)) new_end :: mangled g
     else mangled g) /\
  (UsePerfData env = true ->
   space_counters_capacity g' = capacity_in_bytes g' /\
   gen_counters_committed g' = committed_size (virtual_space g')) /\
  (UsePerfData env = false ->
   space_counters_capacity g' = space_counters_capacity g /\
   gen_counters_committed g' = gen_counters_committed g).
Proof.
  intros Hg Hb _ H. cbv zeta.
  pose proof (expand_by_success_eq env g bytes Hg Hb H) as Heq. cbv zeta in Heq.
  destruct (expand_by_true env g bytes Hg Hb H) as (Hle & _ & Hv & _).
  pose proof Hg as (Hwf & Hbot & Hend).
  destruct (vs_sizes _ Hwf) as (_ & Hc & Hu).
  pose proof Hwf as (_ & _ & H0 & H1 & H2 & H3 & _).
  assert (Hcs : committed_size (virtual_space (snd (expand_by env g bytes)))
                = committed_size (virtual_space g) + bytes).
  { rewrite Hv, Hc. unfold committed_size. cbn.
    rewrite wrap_small by (unfold in_word; lia). lia. }
  split; [exact Hcs|]. rewrite Heq. rewrite Hbot, Hend. unfold high, low.
  rewrite post_resize_eq.
  destruct (UsePerfData env); destruct (ZapUnusedHeapArea env); cbn;
    repeat split; try reflexivity; try discriminate.
Qed.

Lemma expand_by_success_effects_witness :
  committed_size (virtual_space (snd (expand_by env0 gen0 M))) = 17 * M /\
  space_counters_capacity (snd (expand_by env0 gen0 M))
    = capacity_in_bytes (snd (expand_by env0 gen0 M)).
Proof.
  destruct (expand_by_success_effects env0 gen0 M gen0_wf) as (H1 & _ & _ & _ & _ & H2 & _).
  - vm_compute. discriminate.
  - reflexivity.
  - reflexivity.
  - split; [rewrite H1; reflexivity | apply H2; reflexivity].
Defined.

(** X8: a granted [expand_by] of a positive multiple of the alignment
    followed by a [shrink] of the same amount brings back the committed
    region, the object space and the covered regions the generation had;
    the second step publishes nothing to the counters, which keep the
    values of the expanded generation. *)
Theorem expand_by_then_shrink (env : Env) (g : PSOldGen) (bytes : Z) :
  gen_wf g -> 0 < bytes -> bytes mod vs_alignment (virtual_space g) = 0 ->
  fst (expand_by env g bytes) = true ->
  let g1 := snd (expand_by env g bytes) in
  let g2 := shrink env g1 bytes in
  virtual_space g2 = virtual_space g /\
  object_space g2 = object_space g /\
  start_array_covered g2 = new_memregion g /\
  card_table_covered g2 = new_memregion g /\
  committed_size (virtual_space g1) = committed_size (virtual_space g) + bytes /\
  space_counters_capacity g2 = space_counters_capacity g1 /\
  gen_counters_committed g2 = gen_counters_committed g1.
Proof.
  intros Hg Hpos Hmod H. cbv zeta.
  destruct (expand_by_true env g bytes Hg ltac:(lia) H) as (Hle & _ & Hv & Hos).
  pose proof Hg as (Hwf & Hbot & Hend).
  destruct (vs_sizes _ Hwf) as (_ & Hc & Hu).
  pose proof Hwf as (Hp & Ha & H0 & H1 & H2 & H3 & _).
  set (g1 := snd (expand_by env g bytes)) in *.
  assert (Hb : in_word bytes) by (unfold in_word; lia).
  assert (Hc1 : committed_size (virtual_space g1)
                = committed_size (virtual_space g) + bytes).
  { rewrite Hv, Hc. unfold committed_size. cbn.
    rewrite wrap_small by (unfold in_word; lia). lia. }
  assert (Hvs2 : vs_shrink_by (virtual_space g1) bytes = virtual_space g).
  { unfold vs_shrink_by.
    replace (committed_size (virtual_space g1) <? bytes) with false
      by (symmetry; apply Z.ltb_ge; lia).
    rewrite Hv. cbn.
    replace (committed_high_addr (virtual_space g) + bytes - bytes)
      with (committed_high_addr (virtual_space g)) by lia.
    rewrite wrap_small by (unfold in_word; lia).
    destruct (virtual_space g); reflexivity. }
  assert (Hsh : shrink env g1 bytes
                = post_resize env (set_virtual_space g1 (virtual_space g))).
  { rewrite shrink_spec, Hvs2. rewrite Hv. cbn [vs_alignment].
    rewrite (align_down_aligned bytes _ Hb Hp (proj2 Ha) Hmod).
    replace (bytes >? 0) with true by (symmetry; apply Z.gtb_lt; lia).
    reflexivity. }
  rewrite Hsh, post_resize_eq. cbn. rewrite Hos. cbn.
  unfold new_memregion, low, high in *.
  repeat split; try reflexivity; try exact Hc1.
  rewrite <- Hbot, <- Hend. destruct (object_space g); reflexivity.
Qed.

Lemma expand_by_then_shrink_witness :
  virtual_space (shrink env0 (snd (expand_by env0 gen0 (2 * M))) (2 * M))
    = virtual_space gen0.
Proof.
  apply (expand_by_then_shrink env0 gen0 (2 * M) gen0_wf); reflexivity.
Defined.

(** ** [resize] as a whole *)

Lemma expand_top (env : Env) (g : PSOldGen) (bytes : Z) :
  ms_top (object_space (snd (expand env g bytes))) = ms_top (object_space g).
Proof.
  pose proof (expand_attempts env g bytes) as Hex. cbv zeta in Hex. rewrite Hex. clear Hex.
  set (a := vs_alignment (virtual_space g)).
  set (floor := expand_min_increment env a).
  set (ab := expand_aligned_bytes bytes a).
  assert (Hthird : forall g0,
            ms_top (object_space (snd (expand_to_reserved env g0)))
            = ms_top (object_space g0)).
  { intros g0. unfold expand_to_reserved.
    destruct (uncommitted_size (virtual_space g0) >? 0);
      [apply expand_by_top | reflexivity]. }
  assert (Hrest : forall g0,
            let r2 := expand_by env g0 ab in
            let r3 := if negb (fst r2) then expand_to_reserved env (snd r2) else r2 in
            ms_top (object_space (snd r3)) = ms_top (object_space g0)).
  { intros g0. cbv zeta. destruct (negb (fst (expand_by env g0 ab))).
    - rewrite Hthird. apply expand_by_top.
    - apply expand_by_top. }
  cbv zeta in Hrest.
  destruct (floor >? ab); cbn [fst snd negb]; [|apply Hrest].
  destruct (negb (fst (expand_by env g floor))) eqn:E1.
  - rewrite Hrest. apply expand_by_top.
  - rewrite E1. apply expand_by_top.
Qed.

(** The three ways [resize] goes, for a well-formed generation whose
    maximum size is its reserved size. *)
Lemma resize_cases (env : Env) (g : PSOldGen) (desired_free_space : Z) :
  gen_wf g -> 0 <= min_gen_size g -> min_gen_size g <= max_gen_size g ->
  max_gen_size g = reserved_size (virtual_space g) ->
  let n := resize_new_size g desired_free_space in
  let c := committed_size (virtual_space g) in
  (n = c /\ resize env g desired_free_space = g) \/
  (c < n /\ resize env g desired_free_space = snd (expand env g (n - c))) \/
  (n < c /\
   resize env g desired_free_space =
     post_resize env
       (set_virtual_space g
          (mkVS (vs_alignment (virtual_space g)) (reserved_low_addr (virtual_space g))
                (reserved_high_addr (virtual_space g))
                (reserved_low_addr (virtual_space g) + n)))).
Proof.
  intros Hg Hmin Hmm Hmax. cbv zeta.
  destruct (resize_new_size_bounds g desired_free_space Hg Hmin Hmm Hmax) as (Hn & Hnm).
  destruct (capacity_in_bytes_committed g Hg) as (Hcap & Hcs & Hcm).
  pose proof Hg as (Hwf & Hbot & Hend).
  destruct (vs_sizes _ Hwf) as (Hr & _ & _).
  pose proof Hwf as (Hp & Ha & H0 & H1 & H2 & H3 & Hm0 & Hm1 & Hm2).
  destruct (is_power_of_2_spec _ Hp) as (Hpos & _ & _).
  set (n := resize_new_size g desired_free_space) in *.
  unfold resize. fold n. rewrite Hcap.
  destruct (Z.eqb_spec n (committed_size (virtual_space g))) as [Heq | Hne].
  - left. split; [exact Heq | reflexivity].
  - rewrite Z.gtb_ltb.
    destruct (Z.ltb_spec (committed_size (virtual_space g)) n) as [Hgrow | Hshrink].
    + right. left. split; [exact Hgrow|].
      rewrite wrap_small by (unfold in_word; lia). reflexivity.
    + right. right. split; [lia|].
      set (change := wrap (committed_size (virtual_space g) - n)).
      assert (Hchange : change = committed_size (virtual_space g) - n).
      { subst change. apply wrap_small. unfold in_word. lia. }
      assert (Hchm : change mod vs_alignment (virtual_space g) = 0)
        by (rewrite Hchange; apply mod0_sub; assumption).
      assert (Hchw : in_word change) by (unfold in_word; lia).
      rewrite shrink_spec.
      rewrite (align_down_aligned change _ Hchw Hp (proj2 Ha) Hchm).
      replace (change >? 0) with true by (symmetry; apply Z.gtb_lt; lia).
      do 2 f_equal. unfold vs_shrink_by.
      replace (committed_size (virtual_space g) <? change) with false
        by (symmetry; apply Z.ltb_ge; lia).
      rewrite wrap_small by (unfold in_word; lia).
      f_equal. lia.
Qed.

Lemma resize_new_size_ext (g g' : PSOldGen) (desired_free_space : Z) :
  ms_bottom (object_space g') = ms_bottom (object_space g) ->
  ms_top (object_space g') = ms_top (object_space g) ->
  same_config g g' ->
  resize_new_size g' desired_free_space = resize_new_size g desired_free_space.
Proof.
  intros Hb Ht (Hmin & Hmax & Hal & _).
  unfold resize_new_size, resize_desired_size, used_in_bytes,
    ms_used_in_bytes, ms_used_in_words.
  rewrite Hb, Ht, Hmin, Hmax, Hal. reflexivity.
Qed.

(** Where [resize] leaves the generation: well formed, for the same
    configuration, with the allocation frontier where it was. *)
Lemma resize_inv (env : Env) (g : PSOldGen) (desired_free_space : Z) :
  gen_wf g -> 0 <= min_gen_size g -> min_gen_size g <= max_gen_size g ->
  max_gen_size g = reserved_size (virtual_space g) ->
  let g' := resize env g desired_free_space in
  gen_wf g' /\ same_config g g' /\
  ms_top (object_space g') = ms_top (object_space g) /\
  ms_bottom (object_space g') = ms_bottom (object_space g) /\
  (resize_new_size g desired_free_space <= committed_size (virtual_space g) ->
   committed_size (virtual_space g') = resize_new_size g desired_free_space).
Proof.
  intros Hg Hmin Hmm Hmax. cbv zeta.
  destruct (resize_new_size_bounds g desired_free_space Hg Hmin Hmm Hmax) as (Hn & Hnm).
  pose proof Hg as (Hwf & Hbot & Hend).
  destruct (vs_sizes _ Hwf) as (Hr & Hcs & _).
  pose proof Hwf as (Hp & Ha & H0 & H1 & H2 & H3 & Hm0 & Hm1 & Hm2).
  destruct (is_power_of_2_spec _ Hp) as (Hpos & _ & _).
  pose proof (resize_cases env g desired_free_space Hg Hmin Hmm Hmax) as Hc.
  cbv zeta in Hc.
  set (n := resize_new_size g desired_free_space) in *.
  destruct Hc as [(Heq & ->) | [(Hgrow & ->) | (Hshrink & ->)]].
  - split; [exact Hg|]. split; [apply same_config_refl|].
    split; [reflexivity|]. split; [reflexivity|]. intros _. symmetry. exact Heq.
  - pose proof (expand_wf env g (n - committed_size (virtual_space g)) Hg
                  ltac:(unfold in_word; lia)) as H.
    cbv zeta in H. destruct H as (Hg' & Hc' & _).
    split; [exact Hg'|]. split; [exact Hc'|].
    split; [apply expand_top|]. split; [|intros; lia].
    destruct Hg' as (_ & -> & _). destruct Hc' as (_ & _ & _ & Hlo & _).
    unfold low. rewrite Hlo. symmetry. exact Hbot.
  - set (vs' := mkVS (vs_alignment (virtual_space g))
                     (reserved_low_addr (virtual_space g))
                     (reserved_high_addr (virtual_space g))
                     (reserved_low_addr (virtual_space g) + n)).
    pose proof (post_resize_frame env (set_virtual_space g vs')) as Hf.
    cbv zeta in Hf. destruct Hf as (Hv & Hmin' & Hmax' & Hos & _).
    simpl in Hv, Hmin', Hmax', Hos. unfold new_memregion in Hos. simpl in Hos.
    set (g' := post_resize env (set_virtual_space g vs')) in *.
    assert (Hwf' : vs_wf (virtual_space g')).
    { rewrite Hv. subst vs'. unfold vs_wf. simpl.
      repeat split; try assumption; try lia. apply mod0_add; assumption. }
    split; [split; [exact Hwf'|]; rewrite Hos, Hv; simpl; auto|].
    split; [unfold same_config; rewrite Hv, Hmin', Hmax'; simpl; repeat split|].
    rewrite Hos. simpl. split; [reflexivity|]. split; [symmetry; exact Hbot|].
    intros _. destruct (vs_sizes _ Hwf') as (_ & -> & _). rewrite Hv. simpl. lia.
Qed.

Lemma resize_noop (env : Env) (g : PSOldGen) (desired_free_space : Z) :
  gen_wf g ->
  resize_new_size g desired_free_space = committed_size (virtual_space g) ->
  resize env g desired_free_space = g.
Proof.
  intros Hg Hn. destruct (capacity_in_bytes_committed g Hg) as (Hcap & _).
  unfold resize. rewrite Hcap, Hn, Z.eqb_refl. reflexivity.
Qed.

(** X11: once [resize] has brought the committed size to its target, as
    it always does when the target is not above the committed size, a
    second [resize] for the same desired free space is a no-op. *)
Theorem resize_fixed_point (env : Env) (g : PSOldGen) (desired_free_space : Z) :
  gen_wf g -> 0 <= min_gen_size g -> min_gen_size g <= max_gen_size g ->
  max_gen_size g = reserved_size (virtual_space g) ->
  let g' := resize env g desired_free_space in
  let target := resize_new_size g desired_free_space in
  resize_new_size g' desired_free_space = target /\
  (committed_size (virtual_space g') = target ->
   resize env g' desired_free_space = g') /\
  (target <= committed_size (virtual_space g) ->
   resize env g' desired_free_space = g').
Proof.
  intros Hg Hmin Hmm Hmax. cbv zeta.
  pose proof (resize_inv env g desired_free_space Hg Hmin Hmm Hmax) as H.
  cbv zeta in H. destruct H as (Hg' & Hc' & Ht & Hb & Hland).
  pose proof (resize_new_size_ext g _ desired_free_space Hb Ht Hc') as Hn.
  split; [exact Hn|].
  split; intros H; apply resize_noop; try assumption; rewrite Hn; symmetry;
    [exact H | apply Hland; exact H].
Qed.

Lemma gen0_bounds :
  0 <= min_gen_size gen0 /\ min_gen_size gen0 <= max_gen_size gen0 /\
  max_gen_size gen0 = reserved_size (virtual_space gen0).
Proof. vm_compute. repeat split; discriminate. Qed.

Lemma resize_fixed_point_witness :
  resize env0 (resize env0 gen0 0) 0 = resize env0 gen0 0.
Proof.
  destruct gen0_bounds as (H1 & H2 & H3).
  destruct (resize_fixed_point env0 gen0 0 gen0_wf H1 H2 H3) as (_ & _ & H).
  apply H. vm_compute. discriminate.
Defined.

(** X12: when every commit is granted, [resize] always reaches its
    target: for a well-formed generation whose maximum size is its
    reserved size, the committed size afterwards is at least the target,
    within the maximum, and exactly the target when the target was not
    above the committed size. *)
Theorem resize_reaches_target (env : Env) (g : PSOldGen) (desired_free_space : Z) :
  gen_wf g -> 0 <= min_gen_size g -> min_gen_size g <= max_gen_size g ->
  max_gen_size g = reserved_size (virtual_space g) ->
  commits_granted env ->
  let g' := resize env g desired_free_space in
  let target := resize_new_size g desired_free_space in
  target <= committed_size (virtual_space g') <= max_gen_size g /\
  (target <= committed_size (virtual_space g) ->
   committed_size (virtual_space g') = target).
Proof.
  intros Hg Hmin Hmm Hmax Hgr. cbv zeta.
  destruct (resize_new_size_bounds g desired_free_space Hg Hmin Hmm Hmax) as (Hn & Hnm).
  pose proof (resize_inv env g desired_free_space Hg Hmin Hmm Hmax) as H.
  cbv zeta in H. destruct H as (Hg' & Hc' & _ & _ & Hland).
  split; [|exact Hland].
  destruct (vs_sizes _ (proj1 Hg)) as (Hr & Hcs & Hus).
  pose proof (proj1 Hg) as (_ & _ & H0 & H1 & H2 & H3 & _).
  assert (Hmaxb : committed_size (virtual_space (resize env g desired_free_space))
                  <= max_gen_size g).
  { destruct (vs_sizes _ (proj1 Hg')) as (_ & -> & _).
    destruct Hc' as (_ & _ & _ & Hlo & Hhi).
    pose proof (proj1 Hg') as (_ & _ & _ & _ & Hle & _).
    rewrite Hlo. rewrite Hhi in Hle. lia. }
  split; [|exact Hmaxb].
  pose proof (resize_cases env g desired_free_space Hg Hmin Hmm Hmax) as Hc.
  cbv zeta in Hc.
  set (n := resize_new_size g desired_free_space) in *.
  destruct Hc as [(Heq & Hres) | [(Hgrow & Hres) | (Hshrink & Hres)]].
  - rewrite Hland by lia. lia.
  - rewrite Hres.
    set (change := n - committed_size (virtual_space g)) in *.
    assert (Hchw : in_word change) by (unfold in_word; lia).
    destruct (expand_outcome env g change Hg Hchw ltac:(lia))
      as [[Hf _] | [_ (grow & Hgrown & Hcov)]].
    + exfalso. destruct (expand_false_inv env g change Hf) as (_ & _ & H3').
      unfold expand_to_reserved in H3'.
      replace (uncommitted_size (virtual_space g) >? 0) with true in H3'
        by (symmetry; apply Z.gtb_lt; lia).
      rewrite expand_by_granted in H3' by exact Hgr.
      rewrite Z.leb_refl in H3'. discriminate.
    + destruct (grown_by_sizes _ _ _ Hg Hgrown) as (-> & _).
      destruct Hcov as [Hcov | Hall]; lia.
  - rewrite Hland by lia. lia.
Qed.

Lemma resize_reaches_target_witness :
  resize_new_size gen0 (20 * M)
    <= committed_size (virtual_space (resize env0 gen0 (20 * M))).
Proof.
  destruct gen0_bounds as (H1 & H2 & H3).
  apply (resize_reaches_target env0 gen0 (20 * M) gen0_wf H1 H2 H3 env0_grants).
Defined.

(** ** The target of [resize] *)

(** With every commit granted, [expand] commits at least what it is asked
    for when that much is left. *)
Lemma expand_granted_covers (env : Env) (g : PSOldGen) (bytes : Z) :
  gen_wf g -> commits_granted env -> in_word bytes -> 0 < bytes ->
  bytes <= uncommitted_size (virtual_space g) ->
  committed_size (virtual_space g) + bytes
    <= committed_size (virtual_space (snd (expand env g bytes))).
Proof.
  intros Hg Hgr Hw Hpos Hroom.
  destruct (expand_outcome env g bytes Hg Hw Hpos)
    as [[Hf _] | [_ (grow & Hgrown & Hcov)]].
  - exfalso. destruct (expand_false_inv env g bytes Hf) as (_ & _ & H3).
    unfold expand_to_reserved in H3.
    replace (uncommitted_size (virtual_space g) >? 0) with true in H3
      by (symmetry; apply Z.gtb_lt; lia).
    rewrite expand_by_granted in H3 by exact Hgr.
    rewrite Z.leb_refl in H3. discriminate.
  - destruct (grown_by_sizes _ _ _ Hg Hgrown) as (-> & _).
    destruct Hcov as [Hcov | Hall]; lia.
Qed.

(** C3: [resize] computes its target from [used_in_bytes() +
    desired_free_space] with the overflow detected.  When the sum fits a
    machine word it is the size wanted; when it wraps, the wrapped value is
    below [used_in_bytes()], the test fires and [max_gen_size()] is taken
    for the sum; the clamp and the align-up then apply.  [resize] acts on
    that target: it returns at once when the target is the capacity,
    expands by the difference when it is larger and shrinks by the
    difference when it is smaller.  So for a well-formed generation whose
    maximum size is its reserved size a sum that wraps makes the maximum
    the target: the generation never shrinks, and it grows to the maximum
    when the commits are granted. *)
Theorem resize_overflow_resolves_to_max (env : Env) (g : PSOldGen)
  (desired_free_space : Z) :
  in_word desired_free_space ->
  let used := used_in_bytes g in
  let sum := used + desired_free_space in
  let a := vs_alignment (virtual_space g) in
  let target := resize_new_size g desired_free_space in
  let current := capacity_in_bytes g in
  let g' := resize env g desired_free_space in
  (sum < word_modulus ->
   resize_desired_size g desired_free_space = sum /\
   target = align_up (clamp sum (min_gen_size g) (max_gen_size g)) a) /\
  (word_modulus <= sum ->
   wrap sum < used /\
   resize_desired_size g desired_free_space = max_gen_size g /\
   target = align_up (clamp (max_gen_size g) (min_gen_size g) (max_gen_size g)) a /\
   (min_gen_size g <= max_gen_size g -> target = align_up (max_gen_size g) a)) /\
  (target = current -> g' = g) /\
  (current < target -> g' = snd (expand env g (wrap (target - current)))) /\
  (target < current -> g' = shrink env g (wrap (current - target))) /\
  (gen_wf g -> 0 <= min_gen_size g <= max_gen_size g ->
   max_gen_size g = reserved_size (virtual_space g) ->
   word_modulus <= sum ->
   target = max_gen_size g /\
   committed_size (virtual_space g) <= committed_size (virtual_space g') /\
   (commits_granted env -> committed_size (virtual_space g') = max_gen_size g)).
Proof.
  intros Hd. cbv zeta. pose proof (used_in_bytes_in_word g) as Hu.
  assert (Hfit : used_in_bytes g + desired_free_space < word_modulus ->
                 resize_desired_size g desired_free_space
                 = used_in_bytes g + desired_free_space).
  { intros Hlt. unfold resize_desired_size.
    rewrite wrap_small by (unfold in_word in *; lia).
    replace (_ <? _) with false
      by (symmetry; apply Z.ltb_ge; unfold in_word in *; lia).
    reflexivity. }
  assert (Hover : word_modulus <= used_in_bytes g + desired_free_space ->
                  wrap (used_in_bytes g + desired_free_space) < used_in_bytes g /\
                  resize_desired_size g desired_free_space = max_gen_size g).
  { intros Hov.
    assert (Hw : wrap (used_in_bytes g + desired_free_space)
                 = used_in_bytes g + desired_free_space - word_modulus).
    { unfold wrap. symmetry. apply Z.mod_unique with 1; unfold in_word in *; lia. }
    assert (Hlt : wrap (used_in_bytes g + desired_free_space) < used_in_bytes g)
      by (unfold in_word in *; lia).
    split; [exact Hlt|].
    unfold resize_desired_size. apply Z.ltb_lt in Hlt. rewrite Hlt. reflexivity. }
  assert (Hmax : min_gen_size g <= max_gen_size g ->
                 clamp (max_gen_size g) (min_gen_size g) (max_gen_size g)
                 = max_gen_size g).
  { intros Hmm. unfold clamp. rewrite MIN2_min, MAX2_max. lia. }
  split; [|split; [|split; [|split; [|split]]]].
  - intros Hlt. split; [exact (Hfit Hlt)|].
    unfold resize_new_size. rewrite (Hfit Hlt). reflexivity.
  - intros Hov. destruct (Hover Hov) as (Hlt & Hdes).
    split; [exact Hlt|]. split; [exact Hdes|].
    split; [unfold resize_new_size; rewrite Hdes; reflexivity|].
    intros Hmm. unfold resize_new_size. rewrite Hdes, (Hmax Hmm). reflexivity.
  - intros Heq. unfold resize. rewrite Heq, Z.eqb_refl. reflexivity.
  - intros Hgt. unfold resize.
    replace (_ =? _) with false by (symmetry; apply Z.eqb_neq; lia).
    replace (_ >? _) with true by (symmetry; apply Z.gtb_lt; lia).
    reflexivity.
  - intros Hlt. unfold resize.
    replace (_ =? _) with false by (symmetry; apply Z.eqb_neq; lia).
    replace (_ >? _) with false
      by (symmetry; rewrite Z.gtb_ltb; apply Z.ltb_ge; lia).
    reflexivity.
  - intros Hg (Hmin & Hmm) Hres Hov.
    destruct (Hover Hov) as (_ & Hdes).
    pose proof Hg as (Hwf & _).
    destruct (vs_sizes _ Hwf) as (Hr & Hcs & Hus).
    pose proof Hwf as (Hp & Ha & H0 & H1 & H2 & H3 & Hm0 & Hm1 & Hm2).
    destruct (is_power_of_2_spec _ Hp) as (Hpos & _ & _).
    assert (Hmaxm : max_gen_size g mod vs_alignment (virtual_space g) = 0)
      by (rewrite Hres, Hr; apply mod0_sub; assumption).
    assert (Hmaxw : in_word (max_gen_size g)) by (unfold in_word; lia).
    assert (Htarget : resize_new_size g desired_free_space = max_gen_size g).
    { unfold resize_new_size. rewrite Hdes, (Hmax Hmm).
      apply align_up_aligned; try assumption; [lia|].
      apply multiple_room; assumption || lia. }
    split; [exact Htarget|].
    pose proof (resize_inv env g desired_free_space Hg Hmin Hmm Hres) as Hinv.
    cbv zeta in Hinv. destruct Hinv as (Hg' & Hc' & _ & _ & Hland).
    pose proof (resize_cases env g desired_free_space Hg Hmin Hmm Hres) as Hc.
    cbv zeta in Hc. rewrite Htarget in Hc, Hland.
    set (g' := resize env g desired_free_space) in *.
    pose proof Hg' as (Hwf' & _).
    destruct (vs_sizes _ Hwf') as (_ & Hcs' & _).
    pose proof Hwf' as (_ & _ & _ & _ & Hle' & _).
    destruct Hc' as (_ & _ & _ & Hlo & Hhi).
    destruct Hc as [(Heq & Hres') | [(Hgrow & Hres') | (Hshrink & _)]].
    + rewrite Hres'. split; [lia|]. intros _. lia.
    + assert (Hchw : in_word (max_gen_size g - committed_size (virtual_space g)))
        by (unfold in_word; lia).
      pose proof (expand_wf env g _ Hg Hchw) as Hw. cbv zeta in Hw.
      rewrite <- Hres' in Hw. destruct Hw as (_ & _ & Hup).
      split; [rewrite Hcs', Hcs, Hlo; lia|].
      intros Hgr.
      pose proof (expand_granted_covers env g _ Hg Hgr Hchw ltac:(lia) ltac:(lia)) as Hcov.
      rewrite <- Hres' in Hcov. lia.
    + lia.
Qed.

Lemma resize_overflow_resolves_to_max_witness :
  resize_new_size gen0 max_uintx = 64 * M /\
  committed_size (virtual_space (resize env0 gen0 max_uintx)) = 64 * M.
Proof.
  destruct (resize_overflow_resolves_to_max env0 gen0 max_uintx)
    as (_ & _ & _ & _ & _ & H).
  - vm_compute. split; [discriminate | reflexivity].
  - destruct gen0_bounds as (H1 & H2 & H3).
    destruct (H gen0_wf (conj H1 H2) H3) as (Ht & _ & Hc).
    + vm_compute. discriminate.
    + split; [exact Ht | exact (Hc env0_grants)].
Defined.

(** ** The pages the allocation pretouch claims *)

(** The page a call claims lies between the pointer it read and the
    pointer it stores; when the pointer read and the allocation end are
    multiples of the stride, the page is one too and lies at or below the
    start of the last page, as the two assertions before the
    compare-and-swap say. *)
Lemma pretouch_plan_claim (stride limit touch alloc_end alloc alloc_size : Z)
  (old_touch next_touch page : Z) :
  is_power_of_2 (stride * HeapWordSize) = true ->
  0 < stride -> stride * HeapWordSize < word_modulus ->
  0 <= touch -> HeapWordSize <= alloc_end < word_modulus ->
  pretouch_plan stride limit touch alloc_end alloc alloc_size
    = PtCmpxchg old_touch next_touch (Some page) ->
  old_touch = touch /\ old_touch <= page < next_touch /\
  next_touch = Z.min (page + stride * HeapWordSize) alloc_end /\
  (touch mod (stride * HeapWordSize) = 0 -> alloc_end mod (stride * HeapWordSize) = 0 ->
   page mod (stride * HeapWordSize) = 0 /\
   next_touch mod (stride * HeapWordSize) = 0 /\
   page <= align_down (ptr_sub alloc_end 1) (stride * HeapWordSize)).
Proof.
  intros Hp Hs Hsa Ht He. unfold pretouch_plan.
  destruct (Z.geb_spec touch alloc_end) as [Hge | Hlt]; [discriminate|].
  assert (Hsaw : wrap (stride * HeapWordSize) = stride * HeapWordSize)
    by (apply wrap_small; unfold in_word, HeapWordSize in *; lia).
  rewrite Hsaw.
  set (sa := stride * HeapWordSize) in *.
  assert (Hsapos : 0 < sa) by (subst sa; unfold HeapWordSize; lia).
  set (new_alloc := ptr_add alloc alloc_size).
  assert (Hna : in_word new_alloc) by apply wrap_range.
  assert (Hw : ptr_sub alloc_end 1 = alloc_end - HeapWordSize).
  { unfold ptr_sub. rewrite wrap_small; unfold in_word, HeapWordSize in *; lia. }
  assert (Hin : in_word (alloc_end - HeapWordSize))
    by (unfold in_word, HeapWordSize in *; lia).
  destruct (align_down_bounds _ _ Hin Hp Hsa) as (Hdb & Hdm & Hd0).
  rewrite Hw.
  set (D := align_down (alloc_end - HeapWordSize) sa) in *.
  assert (Hmin_al : forall p, p mod sa = 0 -> alloc_end mod sa = 0 ->
                      Z.min (p + sa) alloc_end mod sa = 0).
  { intros p Hpm Hem.
    destruct (Z.min_spec (p + sa) alloc_end) as [[_ ->] | [_ ->]]; [|exact Hem].
    apply mod0_add; [exact Hsapos | exact Hpm | apply Z.mod_same; lia]. }
  rewrite !Z.gtb_ltb.
  destruct (Z.ltb_spec touch new_alloc) as [Hpast | Hbehind].
  - destruct (Z.ltb_spec D new_alloc) as [Hlast | Hroom]; [discriminate|].
    assert (HD : in_word D) by (unfold in_word in *; lia).
    pose proof (multiple_room D _ Hp Hsa HD Hdm) as Hrm.
    pose proof (align_up_le_multiple new_alloc _ D Hna Hp Hsa Hroom Hdm Hrm) as Hup.
    destruct (align_up_bounds new_alloc _ Hna Hp Hsa ltac:(lia)) as (Hub & Hum).
    rewrite pretouch_next_spec by (unfold HeapWordSize in *; lia).
    intros [= <- <- <-]. fold sa.
    split; [reflexivity|]. split; [unfold HeapWordSize in *; lia|].
    split; [reflexivity|]. intros _ Hem.
    split; [exact Hum|]. split; [apply Hmin_al; assumption | exact Hup].
  - destruct (Z.ltb_spec limit (pointer_delta touch new_alloc)); [discriminate|].
    rewrite pretouch_next_spec by (unfold HeapWordSize in *; lia).
    intros [= <- <- <-]. fold sa.
    split; [reflexivity|]. split; [unfold HeapWordSize in *; lia|].
    split; [reflexivity|]. intros Htm Hem.
    split; [exact Htm|]. split; [apply Hmin_al; assumption|].
    (* the pointer is a multiple of the stride below the end, one too *)
    subst D. rewrite align_down_div by assumption.
    apply Z.mod_divide in Htm; [|lia]. destruct Htm as [q Hq].
    apply Z.mod_divide in Hem; [|lia]. destruct Hem as [e Hee].
    assert (Hqe : q < e) by nia.
    assert (Hle : touch <= alloc_end - HeapWordSize).
    { subst sa. unfold HeapWordSize in *. nia. }
    assert (Hdiv : q <= (alloc_end - HeapWordSize) / sa).
    { apply Z.div_le_lower_bound; [exact Hsapos | lia]. }
    nia.
Qed.

Lemma pretouch_commit_touched (g : PSOldGen) (a : pretouch_action) :
  touched (pretouch_commit g a) =
    match a with
    | PtCmpxchg old_touch _ (Some page) =>
        if alloc_pretouch_next g =? old_touch then page :: touched g else touched g
    | _ => touched g
    end.
Proof.
  destruct a as [| o n [p|]]; cbn; try reflexivity.
  destruct (alloc_pretouch_next g =? o); reflexivity.
Qed.

(** X13: the two assertions of [pretouch_during_allocation] hold, and the
    pointer stays on stride boundaries.  When the pretouch pointer and the
    end of the space are multiples of the stride, a call leaves the
    pointer a multiple of the stride, and the page it touches, if any, is
    a multiple of the stride at or below the start of the last page, at or
    after the old pointer and before the new one, which is one stride
    past the page, limited by the end. *)
Theorem pretouch_touches_aligned_pages (g : PSOldGen) (alloc alloc_size : Z) :
  pretouch_wf g -> end_wf g -> 0 <= alloc_pretouch_next g ->
  let stride_align := alloc_pretouch_stride_words g * HeapWordSize in
  alloc_pretouch_next g mod stride_align = 0 ->
  ms_end (object_space g) mod stride_align = 0 ->
  let g' := pretouch_during_allocation g alloc alloc_size in
  alloc_pretouch_next g' mod stride_align = 0 /\
  (touched g' = touched g \/
   exists page,
     touched g' = page :: touched g /\
     page mod stride_align = 0 /\
     page <= align_down (ptr_sub (ms_end (object_space g)) 1) stride_align /\
     alloc_pretouch_next g <= page < alloc_pretouch_next g' /\
     alloc_pretouch_next g'
       = Z.min (page + stride_align) (ms_end (object_space g))).
Proof.
  intros (Hp & Hs & Hsa) He Hc sa Hcm Hem. cbv zeta.
  unfold pretouch_during_allocation.
  destruct (alloc_pretouch_stride_words g <=? alloc_size);
    [split; [exact Hcm | left; reflexivity]|].
  match goal with |- context [pretouch_commit g ?a] =>
    pose proof (pretouch_commit_frame g a) as Hf; cbv zeta in Hf;
    destruct Hf as (_ & _ & _ & _ & Hn);
    pose proof (pretouch_commit_touched g a) as Htc;
    destruct a as [| o n [page|]] eqn:Ha
  end.
  - rewrite Hn, Htc. split; [exact Hcm | left; reflexivity].
  - destruct (pretouch_plan_claim _ _ _ _ _ _ _ _ _ Hp Hs Hsa Hc He Ha)
      as (-> & Hrange & Hnext & Hal).
    destruct (Hal Hcm Hem) as (Hpm & Hnm & Hlast).
    rewrite Hn, Htc, Z.eqb_refl.
    split; [exact Hnm|]. right. exists page.
    split; [reflexivity|]. split; [exact Hpm|]. split; [exact Hlast|].
    split; [exact Hrange | exact Hnext].
  - destruct (pretouch_plan_advances _ _ _ _ _ _ _ _ _ Hp Hs Hsa Hc He Ha) as (-> & _).
    rewrite Hn, Htc, Z.eqb_refl. split; [|left; reflexivity].
    (* only the jump to the end stores a pointer without claiming a page *)
    unfold pretouch_plan in Ha.
    destruct (alloc_pretouch_next g >=? ms_end (object_space g)); [discriminate|].
    destruct (ptr_add alloc alloc_size >? alloc_pretouch_next g).
    + destruct (ptr_add alloc alloc_size >? _).
      * injection Ha as <-. exact Hem.
      * unfold pretouch_next in Ha. discriminate.
    + destruct (pointer_delta _ _ >? _); [discriminate|].
      unfold pretouch_next in Ha. discriminate.
Qed.

Lemma gen_touch_aligned :
  alloc_pretouch_next gen_touch
    mod (alloc_pretouch_stride_words gen_touch * HeapWordSize) = 0 /\
  ms_end (object_space gen_touch)
    mod (alloc_pretouch_stride_words gen_touch * HeapWordSize) = 0.
Proof. split; reflexivity. Qed.

Lemma pretouch_touches_aligned_pages_witness :
  alloc_pretouch_next
    (pretouch_during_allocation gen_touch (gen_base + 8 * 4096 + 8 * 100) 64)
    mod 4096 = 0.
Proof.
  destruct gen_touch_pretouch_wf as (Hw & He).
  destruct gen_touch_aligned as (Hc & Hm).
  apply (pretouch_touches_aligned_pages gen_touch (gen_base + 8 * 4096 + 8 * 100) 64
           Hw He ltac:(vm_compute; discriminate) Hc Hm).
Defined.

(** One scheduler event keeps the claims of the threads and the record of
    touched pages in order. *)
Lemma pt_run1_touched (g0 : PSOldGen) (st : PSOldGen * list pt_thread) (e : pt_event) :
  pretouch_wf g0 -> end_wf g0 ->
  pt_inv g0 st -> Forall pt_claim_ok (snd st) -> touched_inv (fst st) ->
  Forall pt_claim_ok (snd (pt_run1 st e)) /\ touched_inv (fst (pt_run1 st e)).
Proof.
  intros Hw He Hinv Hcl Hti.
  pose proof Hw as (Hp & Hs & Hsa).
  pose proof Hinv as (Hos & Hst & Hli & Hc & Hts).
  destruct st as [g ts]. cbn [fst snd] in *.
  destruct e as [tid alloc alloc_size | tid]; cbn [pt_run1].
  - destruct (nth_error ts tid) as [[| | |]|] eqn:Hn; cbn [fst snd];
      try (split; assumption).
    split; [|exact Hti]. apply Forall_set_nth; [assumption | exact I].
  - destruct (nth_error ts tid) as [t|] eqn:Hn; [|split; assumption].
    pose proof (Forall_nth_error _ _ _ _ Hts Hn) as Hok.
    pose proof (Forall_nth_error _ _ _ _ Hcl Hn) as Hclaim.
    destruct t as [| a sz | a sz touch | act]; cbn [pt_step fst snd].
    + split; [|exact Hti]. apply Forall_set_nth; [assumption | exact I].
    + destruct (alloc_pretouch_stride_words g <=? sz); cbn [fst snd];
        (split; [|exact Hti]); apply Forall_set_nth; try assumption; exact I.
    + split; [|exact Hti]. apply Forall_set_nth; [assumption|].
      cbn [pt_claim_ok]. rewrite Hst, Hli, Hos.
      destruct (pretouch_plan _ _ _ _ _ _) as [| o n [page|]] eqn:Hplan; try exact I.
      cbn in Hok.
      destruct (pretouch_plan_claim _ _ _ _ _ _ _ _ _ Hp Hs Hsa Hok He Hplan)
        as (_ & Hrange & _).
      exact Hrange.
    + split; [apply Forall_set_nth; [assumption | exact I]|].
      destruct Hti as (Hbelow & Hnd).
      pose proof (pretouch_commit_frame g act) as Hf. cbv zeta in Hf.
      destruct Hf as (_ & _ & _ & _ & Hn').
      pose proof (pretouch_commit_touched g act) as Htc.
      unfold touched_inv. rewrite Hn', Htc.
      destruct act as [| o n [page|]]; [split; assumption | |].
      * cbn in Hok, Hclaim.
        destruct (Z.eqb_spec (alloc_pretouch_next g) o) as [Heq | Hneq];
          [|split; assumption].
        split.
        -- constructor; [lia|].
           eapply Forall_impl; [|exact Hbelow]. cbv beta. intros p Hp'. lia.
        -- constructor; [|exact Hnd].
           intros Hin. rewrite Forall_forall in Hbelow.
           specialize (Hbelow page Hin). lia.
      * cbn in Hok.
        destruct (Z.eqb_spec (alloc_pretouch_next g) o) as [Heq | Hneq];
          [|split; assumption].
        split; [|exact Hnd].
        eapply Forall_impl; [|exact Hbelow]. cbv beta. intros p Hp'. lia.
Qed.

Lemma pt_run_touched (g0 : PSOldGen) (es : list pt_event) (st : PSOldGen * list pt_thread) :
  pretouch_wf g0 -> end_wf g0 ->
  pt_inv g0 st -> Forall pt_claim_ok (snd st) -> touched_inv (fst st) ->
  touched_inv (fst (pt_run st es)).
Proof.
  intros Hw He. revert st. induction es as [| e es IH]; intros st Hinv Hcl Hti.
  - exact Hti.
  - cbn [pt_run fold_left].
    destruct (pt_run1_inv g0 st e Hw He Hinv) as (Hinv1 & _).
    destruct (pt_run1_touched g0 st e Hw He Hinv Hcl Hti) as (Hcl1 & Hti1).
    apply (IH _ Hinv1 Hcl1 Hti1).
Qed.

(** X14: no page is touched twice.  However the steps of the calls of any
    number of threads interleave, the addresses touched are pairwise
    distinct and all lie below the pretouch pointer. *)
Theorem pretouch_touches_each_page_once (g : PSOldGen) (ts : list pt_thread)
  (es : list pt_event) :
  pretouch_wf g -> end_wf g -> 0 <= alloc_pretouch_next g ->
  forallb pt_fresh ts = true ->
  touched_inv g ->
  let g' := fst (pt_run (g, ts) es) in
  NoDup (touched g') /\
  Forall (fun page => page < alloc_pretouch_next g') (touched g').
Proof.
  intros Hw He Hc Hfresh Hti. cbv zeta.
  assert (Hinv0 : pt_inv g (g, ts)).
  { repeat split; try assumption. apply pt_fresh_ok. exact Hfresh. }
  assert (Hcl0 : Forall pt_claim_ok ts).
  { rewrite forallb_forall in Hfresh. rewrite Forall_forall. intros t Ht.
    specialize (Hfresh t Ht). destruct t; cbn in *; try discriminate; exact I. }
  destruct (pt_run_touched g es (g, ts) Hw He Hinv0 Hcl0 Hti) as (Hbelow & Hnd).
  split; assumption.
Qed.

Lemma gen_touch_touched_inv : touched_inv gen_touch.
Proof. split; [constructor | constructor]. Qed.

Lemma pretouch_touches_each_page_once_witness :
  NoDup (touched (fst (pt_run (gen_touch, [PtIdle; PtIdle]) two_calls))).
Proof.
  apply (pretouch_touches_each_page_once gen_touch [PtIdle; PtIdle] two_calls
           (proj1 gen_touch_pretouch_wf) (proj2 gen_touch_pretouch_wf)
           ltac:(vm_compute; discriminate) eq_refl gen_touch_touched_inv).
Defined.

(** ** Construction *)

Lemma vs_new_expand_by (env : Env) (base size alignment initial : Z) :
  0 <= base -> 0 <= size -> base + size < word_modulus -> 0 <= initial ->
  vs_expand_by env (vs_new base size alignment) initial =
    if (initial <=? size) && commit_memory env base initial
    then (true, mkVS alignment base (base + size) (base + initial))
    else (false, mkVS alignment base (base + size) base).
Proof.
  intros Hb Hs Hno Hi.
  assert (Hhigh : wrap (base + size) = base + size)
    by (apply wrap_small; unfold in_word; lia).
  assert (Hunc : uncommitted_size (vs_new base size alignment) = size).
  { unfold uncommitted_size, reserved_size, committed_size, vs_new.
    cbn [reserved_high_addr reserved_low_addr committed_high_addr].
    rewrite Hhigh, Z.sub_diag.
    replace (base + size - base) with size by lia.
    rewrite (wrap_small size) by (unfold in_word; lia).
    rewrite (wrap_small 0) by (unfold in_word, word_modulus; cbn; lia).
    rewrite Z.sub_0_r. apply wrap_small. unfold in_word. lia. }
  unfold vs_expand_by. rewrite Hunc, Z.leb_antisym.
  unfold vs_new. cbn [reserved_high_addr reserved_low_addr committed_high_addr vs_alignment].
  rewrite Hhigh.
  destruct (Z.ltb_spec size initial) as [Hlt | Hge]; cbn [negb andb]; [reflexivity|].
  destruct (commit_memory env base initial); [|reflexivity].
  rewrite wrap_small by (unfold in_word; lia). reflexivity.
Qed.

(** X1: construction.  For a reserved space inside the address space whose
    size and initial size are whole numbers of heap words, the constructor
    fails exactly when the initial size exceeds the reserved size, the
    initial commit is refused, or the reserved region is not card aligned
    (its end being exempt when it is the end of the heap).  Otherwise the
    generation has the initial size committed from the base of the
    reserved space, an empty object space spanning the committed region,
    both covered regions equal to it, the pretouch pointer at [NULL] and
    the given bounds; and it is well formed when the base and the sizes
    are multiples of a power-of-two alignment. *)
Theorem PSOldGen_new_spec (env : Env) (card_size heap_reserved_end : Z)
  (rs_base rs_size initial_size min_size max_size : Z) :
  0 <= rs_base -> 0 <= rs_size -> rs_base + rs_size < word_modulus ->
  0 <= initial_size ->
  rs_size mod HeapWordSize = 0 -> initial_size mod HeapWordSize = 0 ->
  let ok :=
    (initial_size <=? rs_size) && commit_memory env rs_base initial_size
    && is_aligned rs_base card_size
    && ((rs_base + rs_size =? heap_reserved_end)
        || is_aligned (rs_base + rs_size) card_size) in
  let committed := mkMemRegion rs_base (rs_base + initial_size) in
  match PSOldGen_new env card_size heap_reserved_end
                     rs_base rs_size initial_size min_size max_size with
  | None => ok = false
  | Some g =>
      ok = true /\
      virtual_space g
        = mkVS (GenAlignment env) rs_base (rs_base + rs_size) (rs_base + initial_size) /\
      object_space g = mkMS rs_base rs_base (rs_base + initial_size) /\
      start_array_covered g = committed /\
      card_table_covered g = committed /\
      reserved g = mkMemRegion rs_base (rs_base + rs_size) /\
      alloc_pretouch_next g = 0 /\
      touched g = [] /\
      mangled g = (if ZapUnusedHeapArea env then [committed] else []) /\
      min_gen_size g = min_size /\ max_gen_size g = max_size /\
      (is_power_of_2 (GenAlignment env) = true ->
       HeapWordSize <= GenAlignment env < word_modulus ->
       rs_base mod GenAlignment env = 0 -> rs_size mod GenAlignment env = 0 ->
       initial_size mod GenAlignment env = 0 ->
       gen_wf g)
  end.
Proof.
  intros Hb Hs Hno Hi _ _. cbv zeta.
  unfold PSOldGen_new, initialize_virtual_space.
  rewrite (vs_new_expand_by env _ _ _ _ Hb Hs Hno Hi).
  destruct (Z.leb_spec initial_size rs_size) as [Hle | Hgt]; cbn [andb]; [|reflexivity].
  destruct (commit_memory env rs_base initial_size); cbn [andb]; [|reflexivity].
  unfold initialize_work, initialize_performance_counters.
  cbn [virtual_space set_virtual_space low_boundary high_boundary low high
       reserved_low_addr reserved_high_addr committed_high_addr mr_start mr_end].
  destruct (is_aligned rs_base card_size); cbn [negb andb orb]; [|reflexivity].
  destruct (rs_base + rs_size =? heap_reserved_end); cbn [negb andb orb].
  - destruct (UsePerfData env); destruct (ZapUnusedHeapArea env);
      (split; [reflexivity|]);
      cbn -[wrap ptr_add heap_word_size Z.add Z.sub Z.modulo];
      repeat (split; [reflexivity|]);
      intros Hp Ha Hm1 Hm2 Hm3;
      destruct (is_power_of_2_spec _ Hp) as (Hpos & _ & _);
      unfold gen_wf, vs_wf; cbn -[wrap Z.add Z.sub Z.modulo];
      repeat split; try assumption; try lia; apply mod0_add; assumption.
  - destruct (is_aligned (rs_base + rs_size) card_size); cbn [negb]; [|reflexivity].
    destruct (UsePerfData env); destruct (ZapUnusedHeapArea env);
      (split; [reflexivity|]);
      cbn -[wrap ptr_add heap_word_size Z.add Z.sub Z.modulo];
      repeat (split; [reflexivity|]);
      intros Hp Ha Hm1 Hm2 Hm3;
      destruct (is_power_of_2_spec _ Hp) as (Hpos & _ & _);
      unfold gen_wf, vs_wf; cbn -[wrap Z.add Z.sub Z.modulo];
      repeat split; try assumption; try lia; apply mod0_add; assumption.
Qed.

Lemma gen_fresh_built :
  PSOldGen_new env0 512 0 gen_base (64 * M) (16 * M) (8 * M) (64 * M) = Some gen_fresh.
Proof. vm_compute. reflexivity. Qed.

Lemma PSOldGen_new_spec_witness : gen_wf gen_fresh.
Proof.
  pose proof (PSOldGen_new_spec env0 512 0 gen_base (64 * M) (16 * M) (8 * M) (64 * M)
                ltac:(vm_compute; discriminate) ltac:(vm_compute; discriminate)
                eq_refl ltac:(vm_compute; discriminate) eq_refl eq_refl) as H.
  cbv zeta in H. rewrite gen_fresh_built in H.
  destruct H as (_ & _ & _ & _ & _ & _ & _ & _ & _ & _ & _ & Hwf).
  apply Hwf; try reflexivity. vm_compute. split; [discriminate | reflexivity].
Defined.

(** X2: the pretouch parameters the constructor computes.  When the page
    size in use (the large page size under [UseLargePages] without
    transparent huge pages, else the base page size) is a power of two of
    at least a heap word, the stride is that page size in words, the
    limit is the stride times the number of GC threads, and the stride is
    whole pages: the precondition of the pretouch protocol holds. *)
Theorem PSOldGen_new_pretouch (env : Env) (card_size heap_reserved_end : Z)
  (rs_base rs_size initial_size min_size max_size : Z) (g : PSOldGen) :
  let page_size :=
    if UseLargePages env && negb (UseTransparentHugePages env)
    then large_page_size env else vm_page_size env in
  is_power_of_2 page_size = true ->
  HeapWordSize <= page_size < word_modulus ->
  PSOldGen_new env card_size heap_reserved_end
               rs_base rs_size initial_size min_size max_size = Some g ->
  alloc_pretouch_stride_words g * HeapWordSize = page_size /\
  alloc_pretouch_limit_words g
    = wrap (alloc_pretouch_stride_words g * ParallelGCThreads env) /\
  pretouch_wf g.
Proof.
  intros page_size Hp Hr Hnew.
  assert (Hfields : alloc_pretouch_stride_words g = page_size / HeapWordSize /\
                    alloc_pretouch_limit_words g
                      = wrap (page_size / HeapWordSize * ParallelGCThreads env)).
  { unfold PSOldGen_new, initialize_virtual_space, initialize_work in Hnew.
    fold page_size in Hnew.
    destruct (vs_expand_by env _ initial_size) as [[] vs]; [|discriminate].
    destruct (negb (is_aligned _ card_size)); [discriminate|].
    destruct (negb (_ =? heap_reserved_end) && _); [discriminate|].
    cbv beta iota zeta in Hnew.
    injection Hnew as <-. unfold initialize_allocation_pretouch,
      initialize_performance_counters.
    fold page_size.
    destruct (UsePerfData env); destruct (ZapUnusedHeapArea env); split; reflexivity. }
  destruct Hfields as (Hst & Hli).
  pose proof (pow2_mod_word _ Hp (proj1 Hr)) as Hm.
  assert (Hexact : page_size / HeapWordSize * HeapWordSize = page_size).
  { pose proof (Z.div_mod page_size HeapWordSize ltac:(unfold HeapWordSize; lia)). lia. }
  rewrite Hli, Hst.
  split; [exact Hexact|]. split; [reflexivity|].
  unfold pretouch_wf. rewrite Hst, Hexact.
  split; [exact Hp|]. split; [|lia].
  unfold HeapWordSize in *. apply Z.div_str_pos. lia.
Qed.

Lemma PSOldGen_new_pretouch_witness : pretouch_wf gen_fresh.
Proof.
  apply (PSOldGen_new_pretouch env0 512 0 gen_base (64 * M) (16 * M) (8 * M) (64 * M)
           gen_fresh eq_refl).
  - vm_compute. split; [discriminate | reflexivity].
  - exact gen_fresh_built.
Defined.

(** ** More on block iteration *)

Lemma existsb_none {A : Type} (f : A -> bool) (l : list A) :
  (forall a, In a l -> f a = false) -> existsb f l = false.
Proof.
  intros H. destruct (existsb f l) eqn:E; [|reflexivity].
  apply existsb_exists in E. destruct E as (a & Ha & Hfa).
  rewrite (H a Ha) in Hfa. discriminate.
Qed.

(** X16: a block index at or past [num_iterable_blocks] names a block that
    begins at or after [top]; iterating it hands over nothing. *)
Theorem object_iterate_block_out_of_range (IterateBlockSize : Z) (space : MutableSpace)
  (sizes : list Z) (i : Z) :
  blocks_wf IterateBlockSize space sizes ->
  num_iterable_blocks IterateBlockSize space <= i ->
  ms_bottom space + IterateBlockSize * i < word_modulus ->
  ms_top space <= block_begin IterateBlockSize space i /\
  object_iterate_block IterateBlockSize space sizes i = Some [].
Proof.
  intros Hwf Hi Hno.
  pose proof (block_geometry _ _ _ Hwf) as Hgeo. cbv zeta in Hgeo.
  destruct Hgeo as (Hibs & Hn0 & Hceil & Hused & _).
  destruct Hwf as (Hpos & _ & Hok & Htop & _).
  pose proof Hok as (Hb0 & _).
  pose proof (object_addresses_bounds _ _ Hok) as Hb.
  set (bws := IterateBlockSize / HeapWordSize) in *.
  assert (Hbws : 0 < bws) by (unfold HeapWordSize in *; lia).
  assert (Hbeg : block_begin IterateBlockSize space i
                 = ms_bottom space + IterateBlockSize * i).
  { unfold block_begin. fold bws.
    assert (Hiw : 0 <= i * bws) by nia.
    assert (Hi8 : HeapWordSize * (i * bws) = IterateBlockSize * i) by nia.
    unfold ptr_add. rewrite (wrap_small (i * bws)).
    - rewrite Hi8. apply wrap_small. unfold in_word. nia.
    - unfold in_word, HeapWordSize in *. nia. }
  assert (Hpast : ms_top space <= block_begin IterateBlockSize space i).
  { rewrite Hbeg. rewrite Hused in Hceil. nia. }
  split; [exact Hpast|].
  unfold object_iterate_block, object_starts_in_range.
  rewrite existsb_none; [reflexivity|].
  intros a Ha. specialize (Hb a Ha). rewrite <- Htop in Hb.
  apply andb_false_iff. left. apply Z.leb_gt. lia.
Qed.

Lemma object_iterate_block_out_of_range_witness :
  object_iterate_block 64 small_space small_sizes 7 = Some [].
Proof.
  apply (object_iterate_block_out_of_range 64 small_space small_sizes 7
           small_space_blocks_wf).
  - vm_compute. discriminate.
  - reflexivity.
Defined.

(** What the walk of a block hands over, whatever the object-start index
    answered to the range query. *)
Lemma block_walk_spec (IterateBlockSize : Z) (space : MutableSpace)
  (sizes : list Z) (i : Z) :
  blocks_wf IterateBlockSize space sizes ->
  0 <= i < num_iterable_blocks IterateBlockSize space ->
  let begin := block_begin IterateBlockSize space i in
  let end_ := block_end IterateBlockSize space i in
  let start := object_start (ms_bottom space) sizes begin in
  let start :=
    if start <? begin
    then ptr_add start (oop_size (ms_bottom space) sizes start) else start in
  iterate_objects (length sizes) (oop_size (ms_bottom space) sizes) start end_
  = Some (filter (between begin end_) (object_addresses (ms_bottom space) sizes)).
Proof.
  intros Hwf Hi.
  pose proof (block_geometry _ _ _ Hwf) as Hgeo. cbv zeta in Hgeo.
  destruct Hgeo as (_ & _ & _ & _ & Hblk).
  destruct (Hblk i Hi) as (Hbeg & Hlt & Hend). clear Hblk.
  destruct Hwf as (Hpos & _ & Hok & Htop & _).
  cbv zeta.
  set (begin := block_begin IterateBlockSize space i) in *.
  set (end_ := block_end IterateBlockSize space i) in *.
  set (b := ms_bottom space) in *.
  assert (Hend_top : end_ <= ms_top space) by lia.
  assert (Hb_begin : b <= begin < b + HeapWordSize * total_words sizes)
    by (pose proof Hok as (H0 & _); subst b; nia).
  destruct (object_start_contains b sizes begin Hok Hb_begin)
    as (pre & s & suf & Hsizes & Hst & Hcont).
  rewrite Hst in Hcont |- *. clear Hst.
  subst sizes.
  set (p0 := b + HeapWordSize * total_words pre) in *.
  destruct (layout_ok_app _ _ _ Hok) as (Hpre & Hsuf). fold p0 in Hsuf.
  destruct (layout_ok_cons _ _ _ Hsuf) as (Hs & Hadd & Hrest).
  pose proof (object_addresses_bounds _ _ Hpre) as Bpre. fold p0 in Bpre.
  pose proof (object_addresses_bounds _ _ Hsuf) as Bsuf.
  pose proof (object_addresses_bounds _ _ Hrest) as Brest.
  assert (Htot : p0 + HeapWordSize * total_words (s :: suf) = ms_top space).
  { rewrite Htop, total_words_app. subst p0. unfold HeapWordSize. lia. }
  rewrite total_words_cons in Htot.
  rewrite (object_addresses_app b pre (s :: suf) Hok). fold p0.
  rewrite filter_app, (filter_none _ (object_addresses b pre)).
  2:{ intros a Ha. specialize (Bpre a Ha). apply between_out. lia. }
  cbn [app].
  destruct (Z.ltb_spec p0 begin) as [Hstraddle | Hat].
  - subst p0. rewrite oop_size_at by exact Hok.
    set (p0 := b + HeapWordSize * total_words pre) in *.
    rewrite Hadd.
    assert (Hre : pre ++ s :: suf = (pre ++ [s]) ++ suf)
      by (rewrite <- app_assoc; reflexivity).
    assert (Hp' : p0 + HeapWordSize * s = b + HeapWordSize * total_words (pre ++ [s])).
    { rewrite total_words_app, total_words_cons, total_words_nil.
      subst p0. unfold HeapWordSize. lia. }
    rewrite Hre in Hok |- *. rewrite Hp'.
    rewrite (iterate_objects_from b (pre ++ [s]) suf).
    + rewrite <- Hp'. f_equal. cbn [object_addresses filter]. rewrite Hadd.
      rewrite (between_out begin end_ p0) by lia.
      apply filter_ext_in. intros a Ha. specialize (Brest a Ha).
      unfold between.
      replace (begin <=? a) with true by (symmetry; apply Z.leb_le; lia).
      reflexivity.
    + exact Hok.
    + rewrite !length_app. lia.
    + rewrite <- Hre, total_words_app, total_words_cons. fold p0.
      unfold HeapWordSize in *. lia.
  - rewrite (iterate_objects_from b pre (s :: suf)).
    + f_equal. apply filter_ext_in. intros a Ha. specialize (Bsuf a Ha).
      unfold between.
      replace (begin <=? a) with true by (symmetry; apply Z.leb_le; lia).
      reflexivity.
    + exact Hok.
    + rewrite length_app. lia.
    + rewrite total_words_app, total_words_cons. fold p0.
      unfold HeapWordSize in *. lia.
Qed.

(** X17: the early return on the range query is an optimisation only.  An
    object-start index that answers yes for a range in which no object
    starts, never no for one in which an object does start, makes
    [object_iterate_block] hand over the same objects as the exact
    index. *)
Theorem object_iterate_block_conservative (in_range : Z -> Z -> bool)
  (IterateBlockSize : Z) (space : MutableSpace) (sizes : list Z) (i : Z) :
  blocks_wf IterateBlockSize space sizes ->
  0 <= i < num_iterable_blocks IterateBlockSize space ->
  (forall begin end_,
     object_starts_in_range (ms_bottom space) sizes begin end_ = true ->
     in_range begin end_ = true) ->
  object_iterate_block_with in_range IterateBlockSize space sizes i
    = object_iterate_block IterateBlockSize space sizes i /\
  object_iterate_block_with (object_starts_in_range (ms_bottom space) sizes)
      IterateBlockSize space sizes i
    = object_iterate_block IterateBlockSize space sizes i.
Proof.
  intros Hwf Hi Hsound. split; [|reflexivity].
  rewrite (object_iterate_block_spec _ _ _ _ Hwf Hi).
  pose proof (block_walk_spec _ _ _ _ Hwf Hi) as Hwalk. cbv zeta in Hwalk.
  unfold object_iterate_block_with.
  destruct (in_range _ _) eqn:E; cbn [negb]; [exact Hwalk|].
  f_equal. symmetry. apply existsb_false_filter.
  destruct (existsb _ _) eqn:Ex; [|reflexivity].
  rewrite (Hsound _ _ Ex) in E. discriminate.
Qed.

Lemma object_iterate_block_conservative_witness :
  object_iterate_block_with always_in_range 64 small_space small_sizes 2
    = object_iterate_block 64 small_space small_sizes 2.
Proof.
  apply (object_iterate_block_conservative always_in_range 64 small_space small_sizes 2
           small_space_blocks_wf).
  - vm_compute. split; [discriminate | reflexivity].
  - intros begin end_ _. reflexivity.
Defined.

(** ** Verification of the object-start index *)

Lemma forallb_ext_in {A : Type} (f h : A -> bool) (l : list A) :
  (forall a, In a l -> f a = h a) -> forallb f l = forallb h l.
Proof.
  induction l as [| x r IH]; intros H; [reflexivity|].
  cbn [forallb]. rewrite (H x (or_introl eq_refl)). f_equal. apply IH.
  intros a Ha. apply H. right. exact Ha.
Qed.

(** The whole-space walk hands over every object, in address order. *)
Lemma object_iterate_all (space : MutableSpace) (sizes : list Z) :
  layout_ok (ms_bottom space) sizes ->
  ms_top space = ms_bottom space + HeapWordSize * total_words sizes ->
  object_iterate space sizes = Some (object_addresses (ms_bottom space) sizes).
Proof.
  intros Hok Htop. unfold object_iterate.
  pose proof (iterate_objects_from (ms_bottom space) [] sizes (length sizes)
                (ms_top space) Hok (Nat.le_refl _)) as H.
  cbn [app] in H. rewrite total_words_nil in H.
  replace (ms_bottom space + HeapWordSize * 0) with (ms_bottom space) in H by lia.
  rewrite H by lia. f_equal. apply filter_all.
  intros a Ha. apply (object_addresses_bounds _ _ Hok) in Ha.
  apply Z.ltb_lt. lia.
Qed.

Lemma object_start_ge (bottom : Z) (sizes : list Z) (addr : Z) :
  layout_ok bottom sizes -> bottom <= object_start bottom sizes addr.
Proof.
  revert bottom. induction sizes as [| s r IH]; intros bottom Hok; [cbn; lia|].
  destruct (layout_ok_cons _ _ _ Hok) as (Hs & Hadd & Hok').
  cbn [object_start]. rewrite Hadd.
  destruct (addr <? bottom + HeapWordSize * s); [lia|].
  specialize (IH _ Hok'). unfold HeapWordSize in *. lia.
Qed.

(** [object_start] never answers with an object that ends at or before the
    address asked for. *)
Lemma object_start_skips (bottom : Z) (pre suf : list Z) (addr : Z) :
  layout_ok bottom (pre ++ suf) ->
  bottom + HeapWordSize * total_words pre <= addr ->
  bottom + HeapWordSize * total_words pre <= object_start bottom (pre ++ suf) addr.
Proof.
  revert bottom. induction pre as [| s r IH]; intros bottom Hok Ha.
  - rewrite total_words_nil. cbn [app].
    pose proof (object_start_ge bottom suf addr Hok). lia.
  - rewrite <- app_comm_cons in *.
    destruct (layout_ok_cons _ _ _ Hok) as (Hs & Hadd & Hok').
    destruct (layout_ok_app _ _ _ Hok') as ((_ & Hf & _) & _).
    pose proof (total_words_nonneg r Hf) as Ht.
    rewrite total_words_cons in *.
    cbn [object_start]. rewrite Hadd.
    replace (addr <? bottom + HeapWordSize * s) with false
      by (symmetry; apply Z.ltb_ge; unfold HeapWordSize in *; lia).
    specialize (IH _ Hok'). unfold HeapWordSize in *.
    assert (H : bottom + 8 * s + 8 * total_words r <= addr) by lia.
    specialize (IH H). lia.
Qed.

(** [object_start] answers with the object that contains the address. *)
Lemma object_start_inside (bottom : Z) (pre : list Z) (s : Z) (suf : list Z) (addr : Z) :
  layout_ok bottom (pre ++ s :: suf) ->
  bottom + HeapWordSize * total_words pre <= addr
    < bottom + HeapWordSize * total_words pre + HeapWordSize * s ->
  object_start bottom (pre ++ s :: suf) addr = bottom + HeapWordSize * total_words pre.
Proof.
  revert bottom. induction pre as [| s0 r IH]; intros bottom Hok Ha.
  - rewrite total_words_nil in *. cbn [app] in *.
    destruct (layout_ok_cons _ _ _ Hok) as (Hs & Hadd & _).
    cbn [object_start]. rewrite Hadd.
    replace (addr <? bottom + HeapWordSize * s) with true
      by (symmetry; apply Z.ltb_lt; lia).
    lia.
  - rewrite <- app_comm_cons in *.
    destruct (layout_ok_cons _ _ _ Hok) as (Hs & Hadd & Hok').
    destruct (layout_ok_app _ _ _ Hok') as ((_ & Hf & _) & _).
    pose proof (total_words_nonneg r Hf) as Ht.
    rewrite total_words_cons in *.
    cbn [object_start]. rewrite Hadd.
    replace (addr <? bottom + HeapWordSize * s0) with false
      by (symmetry; apply Z.ltb_ge; unfold HeapWordSize in *; lia).
    rewrite (IH _ Hok'); unfold HeapWordSize in *; lia.
Qed.

Lemma object_addresses_split (bottom : Z) (sizes : list Z) (a : Z) :
  layout_ok bottom sizes -> In a (object_addresses bottom sizes) ->
  exists pre s suf,
    sizes = pre ++ s :: suf /\ a = bottom + HeapWordSize * total_words pre.
Proof.
  revert bottom. induction sizes as [| s r IH]; intros bottom Hok Hin; [destruct Hin|].
  destruct (layout_ok_cons _ _ _ Hok) as (Hs & Hadd & Hok').
  cbn [object_addresses In] in Hin. rewrite Hadd in Hin.
  destruct Hin as [<- | Hin].
  - exists [], s, r. split; [reflexivity|]. rewrite total_words_nil. lia.
  - destruct (IH _ Hok' Hin) as (pre & s' & suf & -> & ->).
    exists (s :: pre), s', suf. split; [reflexivity|].
    rewrite total_words_cons. unfold HeapWordSize. lia.
Qed.

(** X18: [verify_object_start_array] walks every object of the space and
    passes exactly when every object reports at least two words, so that
    the word after its first belongs to it and the index finds its start,
    and has its block marked allocated. *)
Theorem verify_object_start_array_spec (space : MutableSpace) (sizes : list Z)
  (is_block_allocated : Z -> bool) :
  layout_ok (ms_bottom space) sizes ->
  ms_top space = ms_bottom space + HeapWordSize * total_words sizes ->
  let objs := object_addresses (ms_bottom space) sizes in
  object_iterate space sizes = Some objs /\
  verify_object_start_array space sizes is_block_allocated
    = Some (forallb (fun obj =>
                       (2 <=? oop_size (ms_bottom space) sizes obj)
                       && is_block_allocated obj) objs) /\
  (forallb (fun s => 2 <=? s) sizes = true ->
   (forall obj, In obj objs -> is_block_allocated obj = true) ->
   verify_object_start_array space sizes is_block_allocated = Some true).
Proof.
  intros Hok Htop objs.
  pose proof (object_iterate_all space sizes Hok Htop) as Hall. fold objs in Hall.
  assert (Hdo : forall obj, In obj objs ->
            verify_do_object (ms_bottom space) sizes is_block_allocated obj
            = (2 <=? oop_size (ms_bottom space) sizes obj) && is_block_allocated obj).
  { intros obj Hin.
    destruct (object_addresses_split _ _ _ Hok Hin) as (pre & s & suf & Hsz & Hobj).
    subst sizes obj.
    rewrite oop_size_at by exact Hok.
    destruct (layout_ok_app _ _ _ Hok) as (Hpre & Hsuf).
    destruct (layout_ok_cons _ _ _ Hsuf) as (Hs & Hadd & Hrest).
    pose proof Hpre as (Hb0 & Hf & _). pose proof (total_words_nonneg _ Hf) as Htw.
    pose proof Hsuf as (_ & _ & Hw). rewrite total_words_cons in Hw.
    pose proof Hrest as (_ & Hfr & _). pose proof (total_words_nonneg _ Hfr) as Htr.
    set (p0 := ms_bottom space + HeapWordSize * total_words pre) in *.
    unfold verify_do_object. f_equal.
    assert (Hnext : ptr_add p0 1 = p0 + HeapWordSize).
    { unfold ptr_add. rewrite wrap_small; unfold in_word, HeapWordSize in *; lia. }
    rewrite Hnext.
    destruct (Z.leb_spec 2 s) as [Hbig | Hone].
    - rewrite (object_start_inside _ pre s suf)
        by (try exact Hok; subst p0; unfold HeapWordSize; lia).
      apply Z.eqb_refl.
    - assert (Hs1 : s = 1) by lia. subst s.
      apply Z.eqb_neq.
      assert (Hre : pre ++ 1 :: suf = (pre ++ [1]) ++ suf)
        by (rewrite <- app_assoc; reflexivity).
      rewrite Hre in Hok |- *.
      pose proof (object_start_skips (ms_bottom space) (pre ++ [1]) suf
                    (p0 + HeapWordSize) Hok) as Hskip.
      rewrite total_words_app, total_words_cons, total_words_nil in Hskip.
      subst p0. unfold HeapWordSize in *. lia. }
  split; [exact Hall|].
  assert (Hver : verify_object_start_array space sizes is_block_allocated
                 = Some (forallb (fun obj =>
                           (2 <=? oop_size (ms_bottom space) sizes obj)
                           && is_block_allocated obj) objs)).
  { unfold verify_object_start_array. rewrite Hall. f_equal.
    apply forallb_ext_in. exact Hdo. }
  split; [exact Hver|].
  intros Hsizes Hiba. rewrite Hver. f_equal.
  apply forallb_forall. intros obj Hin.
  rewrite (Hiba obj Hin), andb_true_r.
  destruct (object_addresses_split _ _ _ Hok Hin) as (pre & s & suf & Hsz & Hobj).
  subst sizes obj. rewrite oop_size_at by exact Hok.
  rewrite forallb_app in Hsizes. apply andb_true_iff in Hsizes.
  destruct Hsizes as (_ & Hsuf). cbn [forallb] in Hsuf.
  apply andb_true_iff in Hsuf. apply Hsuf.
Qed.

Lemma checked_space_layout :
  layout_ok (ms_bottom checked_space) checked_sizes /\
  ms_top checked_space
    = ms_bottom checked_space + HeapWordSize * total_words checked_sizes.
Proof. unfold layout_ok. vm_compute. repeat split; (reflexivity || discriminate). Qed.

Lemma verify_object_start_array_spec_witness :
  verify_object_start_array checked_space checked_sizes (fun _ => true) = Some true.
Proof.
  destruct checked_space_layout as (Hok & Htop).
  destruct (verify_object_start_array_spec checked_space checked_sizes (fun _ => true)
              Hok Htop) as (_ & _ & H).
  apply H; [reflexivity | intros; reflexivity].
Defined.

(** ** What [resize] and [shrink] leave alone *)

(** The target of [resize] is never below what is in use. *)
Lemma resize_new_size_covers_used (g : PSOldGen) (desired_free_space : Z) :
  gen_wf g -> 0 <= min_gen_size g -> min_gen_size g <= max_gen_size g ->
  max_gen_size g = reserved_size (virtual_space g) ->
  used_in_bytes g <= max_gen_size g ->
  used_in_bytes g <= resize_new_size g desired_free_space.
Proof.
  intros (Hwf & _) Hmin Hmm Hmax Hused.
  destruct (vs_sizes _ Hwf) as (Hr & _ & _).
  pose proof Hwf as (Hp & Ha & H0 & H1 & H2 & H3 & Hm0 & Hm1 & Hm2).
  destruct (is_power_of_2_spec _ Hp) as (Hpos & _ & _).
  unfold resize_new_size.
  set (c := clamp _ _ _).
  assert (Hdes : used_in_bytes g <= resize_desired_size g desired_free_space).
  { unfold resize_desired_size.
    destruct (Z.ltb_spec (wrap (used_in_bytes g + desired_free_space)) (used_in_bytes g));
      lia. }
  assert (Hc : used_in_bytes g <= c <= max_gen_size g).
  { subst c. unfold clamp. rewrite MIN2_min, MAX2_max. lia. }
  pose proof (used_in_bytes_in_word g) as Hu.
  assert (Hmaxm : max_gen_size g mod vs_alignment (virtual_space g) = 0)
    by (rewrite Hmax, Hr; apply mod0_sub; assumption).
  assert (Hmaxw : in_word (max_gen_size g)) by (unfold in_word; lia).
  pose proof (multiple_room _ _ Hp (proj2 Ha) Hmaxw Hmaxm) as Hroom.
  assert (Hcw : in_word c) by (unfold in_word in *; lia).
  destruct (align_up_bounds c _ Hcw Hp (proj2 Ha) ltac:(lia)) as (Hge & _).
  lia.
Qed.

(** X15: [resize] never uncommits memory that holds objects.  For a
    well-formed generation whose maximum size is its reserved size and
    whose allocation frontier is a word address inside the object space,
    the frontier is still inside the object space after [resize], whatever
    the desired free space and whatever the outcome of the commits; the
    frontier itself and the bottom do not move. *)
Theorem resize_keeps_objects (env : Env) (g : PSOldGen) (desired_free_space : Z) :
  gen_wf g -> 0 <= min_gen_size g -> min_gen_size g <= max_gen_size g ->
  max_gen_size g = reserved_size (virtual_space g) ->
  top_wf g ->
  (ms_top (object_space g) - ms_bottom (object_space g)) mod HeapWordSize = 0 ->
  let g' := resize env g desired_free_space in
  top_wf g' /\
  ms_top (object_space g') = ms_top (object_space g) /\
  ms_bottom (object_space g') = ms_bottom (object_space g) /\
  used_in_bytes g' = used_in_bytes g /\
  used_in_bytes g <= committed_size (virtual_space g').
Proof.
  intros Hg Hmin Hmm Hmax (Hbt & Hte) Hword. cbv zeta.
  pose proof Hg as (Hwf & Hbot & Hend).
  destruct (vs_sizes _ Hwf) as (Hr & Hcs & _).
  pose proof Hwf as (_ & _ & H0 & H1 & H2 & H3 & _).
  unfold low, high in *.
  assert (Hused : used_in_bytes g = ms_top (object_space g) - ms_bottom (object_space g)).
  { unfold used_in_bytes, ms_used_in_bytes, ms_used_in_words.
    rewrite pointer_delta_exact by lia.
    pose proof (Z.div_mod (ms_top (object_space g) - ms_bottom (object_space g))
                  HeapWordSize ltac:(unfold HeapWordSize; lia)) as Hdm.
    rewrite Hword in Hdm.
    rewrite wrap_small; unfold in_word; lia. }
  pose proof (resize_inv env g desired_free_space Hg Hmin Hmm Hmax) as H.
  cbv zeta in H. destruct H as (Hg' & Hc' & Ht & Hb & Hland).
  set (g' := resize env g desired_free_space) in *.
  pose proof Hg' as (Hwf' & Hbot' & Hend').
  destruct (vs_sizes _ Hwf') as (_ & Hcs' & _).
  destruct Hc' as (_ & _ & _ & Hlo & _).
  unfold low, high in *.
  assert (Hu' : used_in_bytes g' = used_in_bytes g).
  { unfold used_in_bytes, ms_used_in_bytes, ms_used_in_words. rewrite Ht, Hb.
    reflexivity. }
  assert (Hcov : used_in_bytes g <= committed_size (virtual_space g')).
  { pose proof (resize_cases env g desired_free_space Hg Hmin Hmm Hmax) as Hc.
    cbv zeta in Hc. fold g' in Hc.
    pose proof (resize_new_size_covers_used g desired_free_space Hg Hmin Hmm Hmax
                  ltac:(lia)) as Hn.
    destruct (resize_new_size_bounds g desired_free_space Hg Hmin Hmm Hmax)
      as (Hnlo & Hnhi).
    destruct Hc as [(Heq & Hres) | [(Hgrow & Hres) | (Hshrink & Hres)]].
    - rewrite Hland by lia. exact Hn.
    - pose proof (expand_wf env g (resize_new_size g desired_free_space
                                   - committed_size (virtual_space g)) Hg
                    ltac:(unfold in_word; lia)) as Hw.
      cbv zeta in Hw. rewrite <- Hres in Hw. destruct Hw as (_ & _ & Hhi).
      rewrite Hcs', Hlo. lia.
    - rewrite Hland by lia. exact Hn. }
  split; [|split; [exact Ht | split; [exact Hb | split; [exact Hu' | exact Hcov]]]].
  unfold top_wf. rewrite Ht, Hb, Hend'. split; [exact Hbt|].
  rewrite Hcs', Hlo in Hcov. lia.
Qed.

Lemma gen_collected_bounds :
  0 <= min_gen_size gen_collected /\
  min_gen_size gen_collected <= max_gen_size gen_collected /\
  max_gen_size gen_collected = reserved_size (virtual_space gen_collected) /\
  top_wf gen_collected.
Proof. unfold top_wf. vm_compute. repeat split; (reflexivity || discriminate). Qed.

Lemma resize_keeps_objects_witness :
  top_wf (resize env0 gen_collected 0).
Proof.
  destruct gen_collected_wf as (_ & _ & Hg).
  destruct gen_collected_bounds as (H1 & H2 & H3 & H4).
  apply (resize_keeps_objects env0 gen_collected 0 Hg H1 H2 H3 H4). reflexivity.
Defined.

(** X19: what [shrink] does with a request of a whole number of heap
    words.  Below the alignment unit the request rounds down to nothing
    and the generation is left exactly as it was.  From one unit up to the
    committed size, exactly [bytes] are uncommitted, not their rounding:
    the object space and both covered regions end [bytes] lower, the
    allocation frontier, the counters and the mangled ranges are as
    before, and the committed size is still a multiple of the alignment
    exactly when [bytes] is one.  A request above the committed size
    leaves the virtual space and the object space as they were. *)
Theorem shrink_effects (env : Env) (g : PSOldGen) (bytes : Z) :
  gen_wf g -> in_word bytes -> bytes mod HeapWordSize = 0 ->
  let a := vs_alignment (virtual_space g) in
  let g' := shrink env g bytes in
  let new_end := ms_end (object_space g) - bytes in
  (bytes < a -> g' = g) /\
  (a <= bytes <= committed_size (virtual_space g) ->
   committed_size (virtual_space g') = committed_size (virtual_space g) - bytes /\
   object_space g'
     = mkMS (ms_bottom (object_space g)) (ms_top (object_space g)) new_end /\
   start_array_covered g' = mkMemRegion (ms_bottom (object_space g)) new_end /\
   card_table_covered g' = mkMemRegion (ms_bottom (object_space g)) new_end /\
   space_counters_capacity g' = space_counters_capacity g /\
   gen_counters_committed g' = gen_counters_committed g /\
   mangled g' = mangled g /\
   (committed_size (virtual_space g') mod a = 0 <-> bytes mod a = 0)) /\
  (committed_size (virtual_space g) < bytes ->
   virtual_space g' = virtual_space g /\ object_space g' = object_space g).
Proof.
  intros Hg Hb _. cbv zeta.
  pose proof Hg as (Hwf & Hbot & Hend).
  pose proof Hwf as (Hp & Ha & H0 & H1 & H2 & H3 & Hm0 & Hm1 & Hm2).
  destruct (is_power_of_2_spec _ Hp) as (Hpos & _ & _).
  destruct (capacity_in_bytes_committed g Hg) as (_ & Hcs & Hcm).
  assert (Hrun : vs_alignment (virtual_space g) <= bytes ->
                 shrink env g bytes
                 = post_resize env
                     (set_virtual_space g (vs_shrink_by (virtual_space g) bytes))).
  { intros H. rewrite shrink_spec, (align_down_div bytes _ Hb Hp (proj2 Ha)).
    assert (1 <= bytes / vs_alignment (virtual_space g))
      by (apply Z.div_le_lower_bound; lia).
    replace (_ >? 0) with true by (symmetry; apply Z.gtb_lt; nia).
    reflexivity. }
  split; [|split].
  - intros H. rewrite shrink_spec, (align_down_div bytes _ Hb Hp (proj2 Ha)).
    rewrite Z.div_small by (unfold in_word in Hb; lia).
    rewrite Z.mul_0_r. reflexivity.
  - intros (Hlo & Hhi). rewrite (Hrun Hlo). unfold vs_shrink_by.
    replace (committed_size (virtual_space g) <? bytes) with false
      by (symmetry; apply Z.ltb_ge; lia).
    rewrite wrap_small by (unfold in_word; lia).
    rewrite post_resize_eq.
    cbn [virtual_space set_virtual_space object_space start_array_covered
         card_table_covered space_counters_capacity gen_counters_committed mangled
         ms_top].
    assert (Hc' : committed_size
                    (mkVS (vs_alignment (virtual_space g))
                          (reserved_low_addr (virtual_space g))
                          (reserved_high_addr (virtual_space g))
                          (committed_high_addr (virtual_space g) - bytes))
                  = committed_size (virtual_space g) - bytes).
    { unfold committed_size at 1. cbn [reserved_low_addr committed_high_addr].
      rewrite Hcs, wrap_small by (unfold in_word; lia). lia. }
    split; [exact Hc'|].
    unfold new_memregion, low, high.
    cbn [virtual_space reserved_low_addr committed_high_addr].
    rewrite Hbot, Hend. unfold low, high.
    do 6 (split; [reflexivity|]).
    rewrite Hc'. split; intros Hm.
    + replace bytes
        with (committed_size (virtual_space g)
              - (committed_size (virtual_space g) - bytes)) by lia.
      apply mod0_sub; assumption.
    + apply mod0_sub; assumption.
  - intros Hover.
    destruct (Z.lt_ge_cases bytes (vs_alignment (virtual_space g))) as [Hsmall | Hbig].
    + rewrite shrink_spec, (align_down_div bytes _ Hb Hp (proj2 Ha)).
      rewrite Z.div_small by (unfold in_word in Hb; lia).
      rewrite Z.mul_0_r. split; reflexivity.
    + rewrite (Hrun Hbig). unfold vs_shrink_by.
      replace (committed_size (virtual_space g) <? bytes) with true
        by (symmetry; apply Z.ltb_lt; lia).
      rewrite set_virtual_space_same, post_resize_eq.
      cbn [virtual_space object_space]. split; [reflexivity|].
      rewrite <- Hbot, <- Hend. destruct (object_space g); reflexivity.
Qed.

Lemma shrink_effects_witness :
  committed_size (virtual_space (shrink env0 gen0 (2 * M))) = 14 * M /\
  ms_end (object_space (shrink env0 gen0 (2 * M))) = gen_base + 14 * M.
Proof.
  destruct (shrink_effects env0 gen0 (2 * M) gen0_wf) as (_ & H & _).
  - vm_compute. split; [discriminate | reflexivity].
  - reflexivity.
  - destruct H as (Hc & Ho & _).
    + vm_compute. split; discriminate.
    + rewrite Hc, Ho. split; reflexivity.
Defined.
